(** * spruned: aggregation service, file cache and Electrum connection pool

    A shallow embedding of
      - [spruned/service/spruned_vo_service.py]   (module [SprunedVOService]),
      - [spruned/service/file_cache_interface.py] (module [FileCacheInterface]),
      - [spruned/daemon/electrod/electrod_connection.py] (module [Electrod]),
      - [spruned/third_party/blockcypher_service.py] (module [BlockCypherService]),
    over a model of the disk the file cache writes to (module [FileSystem]:
    directories, path resolution, [os.makedirs], [open], [os.remove]),
    followed by the properties of these programs. *)

From Stdlib Require Import ZArith List String Ascii Bool Lia.
From stdpp Require Import gmap strings list pretty.
Import ListNotations.

Local Open Scope Z_scope.

(** ** Python values and exceptions *)

Module Py.

(** The values carried by the fields of a block or of a transaction:
    [None], integers, strings and lists of strings (transaction ids). *)
Inductive value : Type :=
| VNone
| VInt (z : Z)
| VStr (s : string)
| VList (l : list string).

#[global] Instance value_eq_dec : EqDecision value.
Proof. solve_decision. Defined.

(** The part of Python's data model the code relies on: [==] and [bool()]. *)
Class PyObject (A : Type) : Type := {
  py_eq : A -> A -> bool;
  py_bool : A -> bool
}.

Definition is_none (v : value) : bool :=
  match v with VNone => true | _ => false end.

Definition value_bool (v : value) : bool :=
  match v with
  | VNone => false
  | VInt z => negb (z =? 0)
  | VStr s => negb (String.eqb s EmptyString)
  | VList l => match l with [] => false | _ :: _ => true end
  end.

#[global] Instance value_PyObject : PyObject value := {
  py_eq a b := bool_decide (a = b);
  py_bool := value_bool
}.

(** A mapping, as its items in insertion order. *)
Definition dict : Type := list (string * value).

(** [d.get(k)] *)
Fixpoint dict_get (d : dict) (k : string) : option value :=
  match d with
  | [] => None
  | (k', v) :: d' => if String.eqb k' k then Some v else dict_get d' k
  end.

(** [d[k] = v]: an existing key keeps its place, a new one goes last. *)
Fixpoint dict_set (d : dict) (k : string) (v : value) : dict :=
  match d with
  | [] => [(k, v)]
  | (k', v') :: d' =>
      if String.eqb k' k then (k', v) :: d' else (k', v') :: dict_set d' k v
  end.

Definition dict_keys (d : dict) : list string := map fst d.

(** Two mappings are equal when they have the same items, in any order. *)
Definition dict_eq (d1 d2 : dict) : bool :=
  (length d1 =? length d2)%nat &&
  forallb (fun kv => match dict_get d2 (fst kv) with
                     | Some v => py_eq (snd kv) v
                     | None => false
                     end) d1.

#[global] Instance dict_PyObject : PyObject dict := {
  py_eq := dict_eq;
  py_bool d := match d with [] => false | _ :: _ => true end
}.

(** The exceptions the modelled code raises. *)
Inductive exn : Type :=
| AssertionError
| TypeError
| KeyError
| IndexError
| ValueError
| AttributeError
| RuntimeError
| NotImplementedError
| TimeoutError
| OSError
| FileNotFoundError
| FileExistsError
| NotADirectoryError
| IsADirectoryError.

(** [isinstance(e, OSError)]: the last four are its subclasses.
    [TimeoutError] stands for [asyncio.TimeoutError]. *)
Definition is_OSError (e : exn) : bool :=
  match e with
  | OSError | FileNotFoundError | FileExistsError
  | NotADirectoryError | IsADirectoryError => true
  | _ => false
  end.

(** A computation that returns or raises. *)
Inductive result (E A : Type) : Type :=
| Return (a : A)
| Raise (e : E).
Arguments Return {E A} a.
Arguments Raise {E A} e.

Definition bind {E A B} (m : result E A) (f : A -> result E B) : result E B :=
  match m with
  | Return a => f a
  | Raise e => Raise e
  end.

Definition raises {E A} (m : result E A) : Prop :=
  match m with Return _ => False | Raise _ => True end.

Definition returns {E A} (m : result E A) : Prop :=
  match m with Return _ => True | Raise _ => False end.

(** [assert b] *)
Definition assert (b : bool) : result exn unit :=
  if b then Return tt else Raise AssertionError.

(** [c in s] *)
Fixpoint has_char (c : ascii) (s : string) : bool :=
  match s with
  | EmptyString => false
  | String a s' => Ascii.eqb a c || has_char c s'
  end.

End Py.
Import Py.

(** [result E] with stdpp's monad notations [x ← m; k] and [m ;; k]. *)
#[global] Instance result_ret {E} : MRet (result E) := fun _ a => Return a.
#[global] Instance result_bind {E} : MBind (result E) := fun _ _ f m => Py.bind m f.

(** ** spruned/service/file_cache_interface.py *)

(** [CacheInterface]: the cache the aggregation service is given.  [C] is the
    state of the cache, [V] the type of the cached values.  [cache_get]
    returns [None] for Python's [None]; both methods can raise. *)
Class CacheInterface (C V : Type) : Type := {
  cache_get : C -> string -> string -> result exn (option V);
  cache_set : C -> string -> string -> V -> result exn C
}.

(** *** The disk

    What the cache asks of [os], [os.path] and [open]: a tree of
    directories and files, and paths that are found by walking it from the
    root or from the working directory.  A string is the sequence of the
    bytes (UTF-8) of a Python [str].  There are no links, no permissions,
    no other process, and no bound on the length of a name or of a path. *)

Module FileSystem.

Inductive node (V : Type) : Type :=
| Dir
| File (content : V).
Arguments Dir {V}.
Arguments File {V} content.

(** The place of a node: the names on the way from the root. *)
Definition path : Type := list string.

(** The names that name no entry of a directory. *)
Definition special (name : string) : bool :=
  String.eqb name EmptyString || String.eqb name "." || String.eqb name "..".

(** [s.rstrip('/')] *)
Fixpoint rstrip_slash (s : string) : string :=
  match s with
  | EmptyString => EmptyString
  | String c s' =>
      match rstrip_slash s' with
      | EmptyString => if Ascii.eqb c "/" then EmptyString else String c EmptyString
      | r => String c r
      end
  end.

(** [s.endswith('/')] *)
Fixpoint ends_with_slash (s : string) : bool :=
  match s with
  | EmptyString => false
  | String c EmptyString => Ascii.eqb c "/"
  | String _ s' => ends_with_slash s'
  end.

(** [s == '/' * len(s)] *)
Fixpoint all_slashes (s : string) : bool :=
  match s with
  | EmptyString => true
  | String c s' => Ascii.eqb c "/" && all_slashes s'
  end.

Definition is_empty (s : string) : bool :=
  match s with
  | EmptyString => true
  | _ => false
  end.

(** [i = p.rfind('/') + 1; head, tail = p[:i], p[i:]], reading [p] from
    the left: [head] is what was read up to the last separator, [tail] what
    was read since. *)
Fixpoint cut (head tail s : string) : string * string :=
  match s with
  | EmptyString => (head, tail)
  | String c s' =>
      if Ascii.eqb c "/" then cut (head ++ tail ++ "/") EmptyString s'
      else cut head (tail ++ String c EmptyString) s'
  end.

(** [posixpath.split(p)] *)
Definition psplit (p : string) : string * string :=
  let '(head, tail) := cut EmptyString EmptyString p in
  (if all_slashes head then head else rstrip_slash head, tail).

Section WithContents.
Context {V : Type}.

(** The disk: the nodes other than the root, by their place, and the
    working directory of the process. *)
Record t : Type := {
  nodes : gmap path (node V);
  cwd : path
}.

Definition node_at (fs : t) (p : path) : option (node V) :=
  match p with
  | [] => Some Dir
  | _ => nodes fs !! p
  end.

Definition put (fs : t) (p : path) (n : node V) : t :=
  {| nodes := <[p := n]> (nodes fs); cwd := cwd fs |}.

(** One step of the walk: from the directory [cur] into [name]. *)
Definition enter (fs : t) (cur : path) (name : string) : result exn path :=
  if String.eqb name EmptyString || String.eqb name "." then Return cur
  else if String.eqb name ".." then Return (removelast cur)
  else match node_at fs (cur ++ [name]) with
       | Some Dir => Return (cur ++ [name])
       | Some (File _) => Raise NotADirectoryError
       | None => Raise FileNotFoundError
       end.

(** The walk along [s]: [cur] is the directory reached, [name] the name
    read since the last separator; every name that a separator follows is
    entered. *)
Fixpoint walk (fs : t) (cur : result exn path) (name s : string)
  : result exn path * string :=
  match s with
  | EmptyString => (cur, name)
  | String c s' =>
      if Ascii.eqb c "/"
      then walk fs (p ← cur; enter fs p name) EmptyString s'
      else walk fs cur (name ++ String c EmptyString) s'
  end.

Definition start (fs : t) (s : string) : path :=
  match s with
  | String "/" _ => []
  | _ => cwd fs
  end.

(** Where a path leads: the directory that holds its last name, and that
    name.  A null character is a [ValueError], the empty path is not
    found. *)
Definition parent_of (fs : t) (s : string) : result exn (path * string) :=
  if has_char "000" s then Raise ValueError
  else match s with
       | EmptyString => Raise FileNotFoundError
       | _ => let '(cur, name) := walk fs (Return (start fs s)) EmptyString s in
              p ← cur; Return (p, name)
       end.

(** [os.stat(s)], as far as the kind of the node goes. *)
Definition stat (fs : t) (s : string) : result exn (node V) :=
  '(p, name) ← parent_of fs s;
  if special name then Return Dir
  else match node_at fs (p ++ [name]) with
       | Some n => Return n
       | None => Raise FileNotFoundError
       end.

(** [os.path.exists(s)] *)
Definition exists_ (fs : t) (s : string) : bool :=
  match stat fs s with
  | Return _ => true
  | Raise _ => false
  end.

(** [with open(s, 'wb') as pointer: pickle.dump(v, pointer)] *)
Definition write_file (fs : t) (s : string) (v : V) : result exn t :=
  '(p, name) ← parent_of fs (if ends_with_slash s
                             then match rstrip_slash s with
                                  | EmptyString => s
                                  | String a0 s0 => String a0 s0
                                  end
                             else s);
  if ends_with_slash s || special name then Raise IsADirectoryError
  else match node_at fs (p ++ [name]) with
       | Some Dir => Raise IsADirectoryError
       | _ => Return (put fs (p ++ [name]) (File v))
       end.

(** [with open(s, 'rb') as pointer: res = pickle.load(pointer)] *)
Definition read_file (fs : t) (s : string) : result exn V :=
  '(p, name) ← parent_of fs s;
  if special name then Raise IsADirectoryError
  else match node_at fs (p ++ [name]) with
       | Some (File v) => Return v
       | Some Dir => Raise IsADirectoryError
       | None => Raise FileNotFoundError
       end.

(** [os.mkdir(s)] *)
Definition mkdir (fs : t) (s : string) : result exn t :=
  '(p, name) ← parent_of fs (match rstrip_slash s with
                             | EmptyString => s
                             | String a0 s0 => String a0 s0
                             end);
  if special name then Raise FileExistsError
  else match node_at fs (p ++ [name]) with
       | Some _ => Raise FileExistsError
       | None => Return (put fs (p ++ [name]) Dir)
       end.

(** [os.makedirs(name)], as the library writes it: the head of the name is
    made first when it is missing, a [FileExistsError] of that call is
    passed over, and the name itself is made with [mkdir].  The disk is
    returned with the exception, if any: a call that fails may have made
    directories.  [fuel] bounds the depth of the calls. *)
Fixpoint makedirs_loop (fuel : nat) (fs : t) (name : string) : t * option exn :=
  match fuel with
  | O => (fs, Some RuntimeError)
  | S fuel' =>
      let '(head, tail) := psplit name in
      let '(head, tail) := if is_empty tail then psplit head else (head, tail) in
      let descend := negb (is_empty head) && negb (is_empty tail)
                     && negb (exists_ fs head) in
      let '(fs1, failed) :=
        if descend
        then match makedirs_loop fuel' fs head with
             | (fs1, Some FileExistsError) => (fs1, None)
             | r => r
             end
        else (fs, None) in
      match failed with
      | Some e => (fs1, Some e)
      | None =>
          if descend && String.eqb tail "." then (fs1, None)
          else match mkdir fs1 name with
               | Return fs2 => (fs2, None)
               | Raise e => (fs1, Some e)
               end
      end
  end.

(** The head of a name is shorter than the name: the calls are no deeper
    than the name is long. *)
Definition makedirs (fs : t) (name : string) : result exn t :=
  match makedirs_loop (S (String.length name)) fs name with
  | (fs', None) => Return fs'
  | (_, Some e) => Raise e
  end.

(** [os.remove(s)] *)
Definition unlink (fs : t) (s : string) : result exn t :=
  '(p, name) ← parent_of fs s;
  if special name then Raise IsADirectoryError
  else match node_at fs (p ++ [name]) with
       | Some (File _) => Return {| nodes := delete (p ++ [name]) (nodes fs);
                                    cwd := cwd fs |}
       | Some Dir => Raise IsADirectoryError
       | None => Raise FileNotFoundError
       end.

End WithContents.
Arguments t V : clear implicits.

(** A disk with nothing but its root, where the process works. *)
Definition empty_disk {V : Type} : t V := {| nodes := ∅; cwd := [] |}.

End FileSystem.

(** *** [FileCacheInterface] *)

Module FileCacheInterface.

(** [s.lstrip('0')] *)
Fixpoint lstrip0 (s : string) : string :=
  match s with
  | EmptyString => EmptyString
  | String c s' => if Ascii.eqb c "0"%char then lstrip0 s' else s
  end.

(** A byte that goes on with the character the bytes before it began. *)
Definition continuation (c : ascii) : bool :=
  let n := nat_of_ascii c in ((128 <=? n) && (n <? 192))%nat.

(** [s[:n]]: the bytes of the first [n] characters. *)
Fixpoint take_points (n : nat) (s : string) : string :=
  match s with
  | EmptyString => EmptyString
  | String c s' =>
      if continuation c then String c (take_points n s')
      else match n with
           | O => EmptyString
           | S n' => String c (take_points n' s')
           end
  end.

(** [s[:2]] *)
Definition take2 (s : string) : string := take_points 2 s.

(** ['.'.join(args)] *)
Fixpoint join_dot (args : list string) : string :=
  match args with
  | [] => EmptyString
  | [a] => a
  | a :: rest => (a ++ "." ++ join_dot rest)%string
  end.

(** [prefix = a[1].lstrip('0')[:2] + '/'] *)
Definition prefix (key : string) : string :=
  (take2 (lstrip0 key) ++ "/")%string.

(** [file = self.directory + prefix + '.'.join(args) + '.bin'] *)
Definition file (directory namespace key : string) : string :=
  (directory ++ prefix key ++ join_dot [namespace; key] ++ ".bin")%string.

Section WithValues.
Context {V : Type}.

(** The cache object, and the disk it works on: every file holds one
    pickled value, and unpickling gives the value back. *)
Record t : Type := {
  directory : string;
  disk : FileSystem.t V
}.

(** [if ttl:], [if cache_limit:] *)
Definition truthy (n : option Z) : bool :=
  match n with
  | Some n => negb (n =? 0)
  | None => false
  end.

(** [FileCacheInterface(directory, cache_limit=None)], on the disk [disk] *)
Definition init (disk : FileSystem.t V) (directory : string) (cache_limit : option Z)
  : result exn t :=
  disk ← (if FileSystem.exists_ disk directory then Return disk
          else FileSystem.makedirs disk directory);
  if truthy cache_limit then Raise NotImplementedError
  else Return {| directory := directory; disk := disk |}.

(** [set(self, namespace, key, value, ttl=None)] *)
Definition set (self : t) (namespace key : string) (value : V) (ttl : option Z)
  : result exn t :=
  if truthy ttl then Raise NotImplementedError
  else
    disk ← (if FileSystem.exists_ (disk self) (directory self ++ prefix key)
            then Return (disk self)
            else FileSystem.makedirs (disk self) (directory self ++ prefix key));
    disk ← FileSystem.write_file disk (file (directory self) namespace key) value;
    Return {| directory := directory self; disk := disk |}.

(** [get(self, namespace, key)]: [FileNotFoundError] becomes [None], any
    other exception of [open] goes on. *)
Definition get (self : t) (namespace key : string) : result exn (option V) :=
  match FileSystem.read_file (disk self) (file (directory self) namespace key) with
  | Return res => Return (Some res)
  | Raise FileNotFoundError => Return None
  | Raise e => Raise e
  end.

#[global] Instance file_cache : CacheInterface t V := {
  cache_get := get;
  cache_set self namespace key value := set self namespace key value None
}.

(** [remove(self, namespace, key, may_fail=True)]: an [OSError] of
    [os.remove], of whatever kind, becomes a plain [OSError]; [may_fail] is
    not read. *)
Definition remove (self : t) (namespace key : string) (may_fail : bool)
  : result exn t :=
  match FileSystem.unlink (disk self) (file (directory self) namespace key) with
  | Return disk => Return {| directory := directory self; disk := disk |}
  | Raise e => if is_OSError e then Raise OSError else Raise e
  end.

End WithValues.
Arguments t V : clear implicits.

End FileCacheInterface.

(** ** spruned/service/spruned_vo_service.py *)

Module SprunedVOService.

Definition MAX_TIME_DIVERGENCE_TOLERANCE_BETWEEN_SERVICES : Z := 10.

(** *** [_join_data] *)

(** [_dd = [x[_k] for x in data if x.get(_k) is not None]] *)
Definition collect (_k : string) (data : list dict) : list value :=
  flat_map (fun x => match dict_get x _k with
                     | Some v => if is_none v then [] else [v]
                     | None => []
                     end) data.

(** [abs(x - y) < MAX_TIME_DIVERGENCE_TOLERANCE_BETWEEN_SERVICES]; the
    subtraction is defined on integers only. *)
Definition time_close (x y : value) : result exn bool :=
  match x, y with
  | VInt a, VInt b =>
      Return (Z.abs (a - b) <? MAX_TIME_DIVERGENCE_TOLERANCE_BETWEEN_SERVICES)
  | _, _ => Raise TypeError
  end.

(** The two assertions of the loop of [_get_key], on [x] and [_dd[i+1]]. *)
Definition check_pair (_k : string) (x y : value) : result exn unit :=
  if String.eqb _k "time"
  then b ← time_close x y; assert b
  else assert (py_eq x y).

(** [for i, x in enumerate(_dd): if i < len(_dd) - 2: ...]; [n] is
    [len(_dd)] and [dd] is [_dd[i:]]. *)
Fixpoint check_loop (_k : string) (n : Z) (i : Z) (dd : list value)
  : result exn unit :=
  match dd with
  | [] => Return tt
  | x :: rest =>
      (if i <? n - 2
       then match rest with
            | y :: _ => check_pair _k x y
            | [] => Raise IndexError
            end
       else Return tt) ;;
      check_loop _k n (i + 1) rest
  end.

(** [return _dd and _dd[0] or None] *)
Definition first_or_none (dd : list value) : value :=
  match dd with
  | [] => VNone
  | x :: _ => if py_bool x then x else VNone
  end.

(** [_get_key(_k, _data)].  The body reads [data], the argument of
    [_join_data], and never its own parameter [_data]. *)
Definition _get_key (data : list dict) (_k : string) (_data : list dict)
  : result exn value :=
  let _dd := collect _k data in
  check_loop _k (Z.of_nat (length _dd)) 0 _dd ;;
  Return (first_or_none _dd).

(** [for k, v in res.items(): ...].  [res] is [data[0]] itself, so that
    what is stored in [res] is seen by the later calls of [_get_key]. *)
Fixpoint join_items (items : list (string * value)) (res : dict) (rest : list dict)
  : result exn dict :=
  match items with
  | [] => Return res
  | (k, v) :: items' =>
      if is_none v
      then g ← _get_key (res :: rest) k rest;
           join_items items' (dict_set res k g) rest
      else g ← _get_key (res :: rest) k rest;
           assert (py_eq v g) ;;
           join_items items' res rest
  end.

Definition _join_data (min_sources : Z) (data : list dict) : result exn dict :=
  assert (Z.of_nat (length data) >=? min_sources) ;;
  match data with
  | [] => Raise IndexError
  | res :: rest => join_items res res rest
  end.

(** *** The service and its sources *)

(** [RPCAPIService]: what a source answers to the two queries.  A source
    is a remote service; its answer is a mapping or an exception. *)
Record RPCAPIService : Type := {
  svc_getblock : string -> result exn dict;
  svc_getrawtransaction : string -> result exn dict
}.

(** [random.choice(seq)], with [r] the number drawn. *)
Definition random_choice {A} (seq : list A) (r : nat) : result exn A :=
  match seq !! (r mod length seq)%nat with
  | Some a => Return a
  | None => Raise IndexError
  end.

Section WithCache.
Context {C : Type} `{CacheInterface C dict}.

(** The service object.  Sources are objects, compared by identity: the
    two lists hold their addresses and [objects] maps an address to the
    source that lives there. *)
Record t : Type := {
  services : list nat;
  primary : list nat;
  cache : option C;
  min_sources : Z;
  objects : nat -> RPCAPIService
}.

Definition with_cache (self : t) (c : C) : t :=
  {| services := services self; primary := primary self; cache := Some c;
     min_sources := min_sources self; objects := objects self |}.

(** [add_cache], [add_service], [add_primary_service] *)
Definition add_cache (self : t) (c : C) : t := with_cache self c.

Definition add_service (self : t) (service : nat) : t :=
  {| services := services self ++ [service]; primary := primary self;
     cache := cache self; min_sources := min_sources self;
     objects := objects self |}.

Definition add_primary_service (self : t) (service : nat) : t :=
  {| services := services self; primary := primary self ++ [service];
     cache := cache self; min_sources := min_sources self;
     objects := objects self |}.

(** The loop of [_pick_services]: [i] is the counter of the source,
    [rnd i] the number drawn in the turn that follows, and [fuel] bounds
    the turns, which [assert i < max] bounds by 50. *)
Fixpoint pick_loop (self : t) (rnd : nat -> nat) (fuel : nat) (i : nat)
    (res : list nat) : result exn (list nat) :=
  if Z.of_nat (length res) + Z.of_nat (length (primary self)) <? min_sources self
  then match fuel with
       | O => Raise AssertionError
       | S fuel' =>
           let i := S i in
           assert (i <? 50)%nat ;;
           _c ← random_choice (services self) (rnd i);
           pick_loop self rnd fuel' i
             (if bool_decide (_c ∈ res) then res else res ++ [_c])
       end
  else Return (res ++ primary self).

Definition _pick_services (self : t) (rnd : nat -> nat) : result exn (list nat) :=
  pick_loop self rnd 50 0%nat [].

(** [for service in ...: res.append(service.<query>(...))] *)
Fixpoint call_each (self : t) (query : RPCAPIService -> result exn dict)
    (picked : list nat) : result exn (list dict) :=
  match picked with
  | [] => Return []
  | service :: picked' =>
      r ← query (objects self service);
      rs ← call_each self query picked';
      Return (r :: rs)
  end.

(** [block['confirmations'] > 3] *)
Definition confirmations_gt_3 (block : dict) : result exn bool :=
  match dict_get block "confirmations" with
  | None => Raise KeyError
  | Some (VInt n) => Return (3 <? n)
  | Some _ => Raise TypeError
  end.

(** The function [getblock] as it is written below the decorator. *)
Definition getblock_body (self : t) (rnd : nat -> nat) (blockhash : string)
  : result exn (dict * t) :=
  picked ← _pick_services self rnd;
  res ← call_each self (fun s => svc_getblock s blockhash) picked;
  block ← _join_data (min_sources self) res;
  confirmed ← confirmations_gt_3 block;
  self' ← (if (confirmed : bool)
           then match cache self with
                | Some c => c' ← cache_set c "getblock" blockhash block;
                            Return (with_cache self c')
                | None => Return self
                end
           else Return self);
  Return (block, self').

(** [self.cache and transaction['blockhash'] and
     self.cache.get('getblock', transaction['blockhash']) and
     self.cache.set('getrawtransaction', txid, transaction)] *)
Definition cache_transaction (self : t) (txid : string) (transaction : dict)
  : result exn t :=
  match cache self with
  | None => Return self
  | Some c =>
      match dict_get transaction "blockhash" with
      | None => Raise KeyError
      | Some bh =>
          if py_bool bh
          then match bh with
               | VStr blockhash =>
                   cached ← cache_get c "getblock" blockhash;
                   match cached with
                   | Some block =>
                       if py_bool block
                       then c' ← cache_set c "getrawtransaction" txid transaction;
                            Return (with_cache self c')
                       else Return self
                   | None => Return self
                   end
               | _ => Raise AttributeError
               end
          else Return self
      end
  end.

(** The function [getrawtransaction] as it is written below the
    decorator. *)
Definition getrawtransaction_body (self : t) (rnd : nat -> nat) (txid : string)
    (verbose : bool) : result exn (value * t) :=
  picked ← _pick_services self rnd;
  res ← call_each self (fun s => svc_getrawtransaction s txid) picked;
  transaction ← _join_data (min_sources self) res;
  self' ← cache_transaction self txid transaction;
  if verbose then Raise NotImplementedError
  else match dict_get transaction "rawtx" with
       | Some rawtx => Return (rawtx, self')
       | None => Raise KeyError
       end.

(** *** The decorator [maybe_cached] *)

(** [functools.update_wrapper(wrapper, wrapped)] copies the name and the
    documentation of [wrapped] onto [wrapper] and returns [wrapper]. *)
Definition update_wrapper {F W : Type} (wrapper : F) (wrapped : W) : F := wrapper.

(** [functools.wraps(wrapped)] is
    [partial(update_wrapper, wrapped=wrapped)]. *)
Definition functools_wraps {W : Type} (wrapped : W) {F : Type} : F -> F :=
  fun wrapper => update_wrapper wrapper wrapped.

(** The inner function of [maybe_cached], before [@functools.wraps]
    rebinds its name: a look-up in the cache, then a call of what the
    name [wrapper] stands for by then, which is
    [update_wrapper(args, kwargs, wrapped=...)] and a [TypeError]. *)
Definition wrapper (method : string) (self : t) (args : list string)
  : result exn dict :=
  match cache self with
  | Some c =>
      _d ← cache_get c method (String.concat EmptyString args);
      match _d with
      | Some _d => if py_bool _d then Return _d else Raise TypeError
      | None => Raise TypeError
      end
  | None => Raise TypeError
  end.

(** [maybe_cached(method)] returns what [@functools.wraps] made of the
    inner function. *)
Definition maybe_cached (method : string) {F : Type} : F -> F :=
  functools_wraps (wrapper method).

(** [@maybe_cached('getblock') def getblock(self, blockhash)] *)
Definition getblock : t -> (nat -> nat) -> string -> result exn (dict * t) :=
  maybe_cached "getblock" getblock_body.

(** [@maybe_cached('getrawtransaction')
     def getrawtransaction(self, txid, verbose=False)] *)
Definition getrawtransaction
  : t -> (nat -> nat) -> string -> bool -> result exn (value * t) :=
  maybe_cached "getrawtransaction" getrawtransaction_body.

(** [_get_from_cache(a0, a1)]: the entry of the cache when it is truthy, [None]
    otherwise. *)
Definition _get_from_cache (self : t) (a0 a1 : string) : result exn (option dict) :=
  match cache self with
  | Some c =>
      data ← cache_get c a0 a1;
      Return match data with
             | Some data => if py_bool data then Some data else None
             | None => None
             end
  | None => Return None
  end.

(** [@maybe_cached('getblockheader') def getblockheader(self, blockhash)] *)
Definition getblockheader : t -> string -> result exn dict :=
  maybe_cached "getblockheader" (fun _ _ => Raise NotImplementedError).

End WithCache.
Arguments t C : clear implicits.

End SprunedVOService.

(** ** spruned/daemon/electrod/electrod_connection.py *)

Module Electrod.

Section WithResponses.
(** [R]: what a server answers to a request, [None] apart. *)
Context {R : Type} `{PyObject R}.

(** *** [ElectrodConnection] *)

(** The methods of the pool that [_connect_servers] registers as
    callbacks of a peer. *)
Inductive callback : Type :=
| on_peer_connected
| on_peer_received_header
| on_peer_received_peers
| on_peer_error.

(** What [self.loop.create_task] is given. *)
Inductive task : Type :=
| TCallback (cb : callback)
| TOnError (error : exn)
| TDisconnect.

Record ElectrodConnection : Type := {
  hostname : string;
  _version : option string;
  _score : Z;
  _last_header : option R;
  _subscriptions : list string;
  _errors : list exn;
  client_protocol : bool;
  _on_connect_callbacks : list callback;
  _on_headers_callbacks : list callback;
  _on_peers_callbacks : list callback;
  _on_errors_callbacks : list callback
}.

(** [ElectrodConnection(hostname, ..., start_score=10)], with the
    callbacks [_connect_servers] adds. *)
Definition new_connection (host : string) (start_score : Z) : ElectrodConnection :=
  {| hostname := host; _version := None; _score := start_score;
     _last_header := None; _subscriptions := []; _errors := [];
     client_protocol := false;
     _on_connect_callbacks := [on_peer_connected];
     _on_headers_callbacks := [on_peer_received_header];
     _on_peers_callbacks := [on_peer_received_peers];
     _on_errors_callbacks := [on_peer_error] |}.

Definition set_score (self : ElectrodConnection) (score : Z) : ElectrodConnection :=
  {| hostname := hostname self; _version := _version self; _score := score;
     _last_header := _last_header self; _subscriptions := _subscriptions self;
     _errors := _errors self; client_protocol := client_protocol self;
     _on_connect_callbacks := _on_connect_callbacks self;
     _on_headers_callbacks := _on_headers_callbacks self;
     _on_peers_callbacks := _on_peers_callbacks self;
     _on_errors_callbacks := _on_errors_callbacks self |}.

Definition set_errors (self : ElectrodConnection) (errors : list exn) : ElectrodConnection :=
  {| hostname := hostname self; _version := _version self; _score := _score self;
     _last_header := _last_header self; _subscriptions := _subscriptions self;
     _errors := errors; client_protocol := client_protocol self;
     _on_connect_callbacks := _on_connect_callbacks self;
     _on_headers_callbacks := _on_headers_callbacks self;
     _on_peers_callbacks := _on_peers_callbacks self;
     _on_errors_callbacks := _on_errors_callbacks self |}.

Definition set_last_header (self : ElectrodConnection) (header : option R) : ElectrodConnection :=
  {| hostname := hostname self; _version := _version self; _score := _score self;
     _last_header := header; _subscriptions := _subscriptions self;
     _errors := _errors self; client_protocol := client_protocol self;
     _on_connect_callbacks := _on_connect_callbacks self;
     _on_headers_callbacks := _on_headers_callbacks self;
     _on_peers_callbacks := _on_peers_callbacks self;
     _on_errors_callbacks := _on_errors_callbacks self |}.

Definition set_subscriptions (self : ElectrodConnection) (subs : list string) : ElectrodConnection :=
  {| hostname := hostname self; _version := _version self; _score := _score self;
     _last_header := _last_header self; _subscriptions := subs;
     _errors := _errors self; client_protocol := client_protocol self;
     _on_connect_callbacks := _on_connect_callbacks self;
     _on_headers_callbacks := _on_headers_callbacks self;
     _on_peers_callbacks := _on_peers_callbacks self;
     _on_errors_callbacks := _on_errors_callbacks self |}.

(** The client after [client.connect] returned ([version] is what it
    returned, [protocol] is set) or after [client.close()] or
    [client.protocol = None]. *)
Definition set_client (self : ElectrodConnection) (version : option string)
    (protocol : bool) : ElectrodConnection :=
  {| hostname := hostname self; _version := version; _score := _score self;
     _last_header := _last_header self; _subscriptions := _subscriptions self;
     _errors := _errors self; client_protocol := protocol;
     _on_connect_callbacks := _on_connect_callbacks self;
     _on_headers_callbacks := _on_headers_callbacks self;
     _on_peers_callbacks := _on_peers_callbacks self;
     _on_errors_callbacks := _on_errors_callbacks self |}.

(** The properties [score] and [connected]. *)
Definition score (self : ElectrodConnection) : Z := _score self.
Definition connected (self : ElectrodConnection) : bool := client_protocol self.

(** [on_connect]: one task per callback. *)
Definition on_connect (self : ElectrodConnection) : list task :=
  map TCallback (_on_connect_callbacks self).

(** [on_error(error)] *)
Definition on_error (self : ElectrodConnection) (error : exn)
  : ElectrodConnection * list task :=
  let self := set_errors self (_errors self ++ [error]) in
  let self := set_score self (_score self - 1) in
  (self, map TCallback (_on_errors_callbacks self)).

(** [connect()]; [outcome] is what [await self.client.connect(...)]
    gives: the version, or an exception. *)
Definition connect (self : ElectrodConnection) (outcome : result exn string)
  : ElectrodConnection * list task :=
  match outcome with
  | Return version =>
      let self := set_client self (Some version) true in
      (self, on_connect self)
  | Raise e =>
      let self := set_score self (_score self - 4) in
      (self, [TOnError e])
  end.

(** [rpc_call(method, *args)]; [outcome] is what
    [await self.client.RPC(method, *args)] gives within the timeout.
    The function returns the answer, or [None] on an exception. *)
Definition rpc_call (self : ElectrodConnection) (outcome : result exn (option R))
  : option R * list task :=
  match outcome with
  | Return response => (response, [])
  | Raise e => (None, [TOnError e])
  end.

(** What happens in [subscribe]: [client.subscribe] raises, the first
    answer fails, or the first answer comes. *)
Inductive subscription : Type :=
| SubscribeRaises (e : exn)
| FutureRaises (e : exn)
| FirstAnswer (header : R).

(** [subscribe(channel, on_subscription, on_traffic)]; the task that
    polls the queue is left to the inputs of the loop. *)
Definition subscribe (self : ElectrodConnection) (channel : string)
    (on_subscription : option callback) (outcome : subscription)
  : ElectrodConnection * list task :=
  match outcome with
  | SubscribeRaises e => (self, [TOnError e])
  | FutureRaises e =>
      (set_subscriptions self (_subscriptions self ++ [channel]), [TOnError e])
  | FirstAnswer header =>
      let self := set_subscriptions self (_subscriptions self ++ [channel]) in
      let self := set_last_header self (Some header) in
      (self, match on_subscription with
             | Some cb => [TCallback cb]
             | None => []
             end)
  end.

(** [_poll_queue(queue, callback)]; [outcome] is [header[0]] for the
    [header] that [await queue.get()] gives, or the exception.  The next
    poll, which a success schedules, is left to the inputs of the loop. *)
Definition _poll_queue (self : ElectrodConnection) (callback : callback)
    (outcome : result exn R) : ElectrodConnection * list task :=
  match outcome with
  | Return header0 => (set_last_header self (Some header0), [TCallback callback])
  | Raise e =>
      let self := set_score self (_score self - 1) in
      (self, [TOnError e])
  end.

(** [disconnect()]: [client.close()] drops the protocol of the client,
    and so does the handler of its exception. *)
Definition disconnect (self : ElectrodConnection) : ElectrodConnection :=
  set_client self (_version self) false.

(** [ping(timeout=2)]: [rpc_call] comes back within the two seconds
    (with an answer, or having caught the exception of the request) and
    the latency is returned; or the two seconds pass first.  Then the block
    is cancelled, and on its way out the [async with] raises
    [asyncio.TimeoutError]: the handler for it stands inside the block, where
    the exception is not raised yet, so that [ping] raises and never returns
    [None]. *)
Inductive ping_outcome : Type :=
| PingReply (outcome : result exn (option R))
| PingTimeout.

Definition ping (self : ElectrodConnection) (po : ping_outcome)
  : result exn bool * list task :=
  match po with
  | PingReply outcome => (Return true, snd (rpc_call self outcome))
  | PingTimeout => (Raise TimeoutError, [])
  end.

(** *** [ElectrodConnectionPool] *)

Inductive pool_exn : Type :=
| Builtin (e : exn)
| NoPeersException
| ElectrodMissingResponseException
| NoQuorumOnResponsesException (responses : list R).

(** The pool.  A connection is an object: it is named by its place in
    [_connections], and two names are the same connection when they are
    the same place. *)
Record ElectrodConnectionPool : Type := {
  _connections : list ElectrodConnection;
  _required_connections : Z;
  _keepalive : bool
}.

Definition is_connected (self : ElectrodConnectionPool) (c : nat) : bool :=
  match _connections self !! c with
  | Some peer => connected peer
  | None => false
  end.

(** [connection.connected and connection.score > 0] *)
Definition usable (self : ElectrodConnectionPool) (c : nat) : bool :=
  match _connections self !! c with
  | Some peer => connected peer && (0 <? score peer)
  | None => false
  end.

(** [established_connections] *)
Definition established_connections (self : ElectrodConnectionPool) : list nat :=
  List.filter (is_connected self) (seq 0 (length (_connections self))).

Definition random_choice (l : list nat) (r : nat) : result pool_exn nat :=
  match l !! (r mod length l)%nat with
  | Some a => Return a
  | None => Raise (Builtin IndexError)
  end.

(** The loop of [_pick_connection]; [tries] is how many draws are left
    before [i > 100], and [rnd] the numbers that will be drawn.  The
    answer is [None] when [rnd] is used up before the loop ends. *)
Fixpoint pick_connection_loop (self : ElectrodConnectionPool) (tries : nat)
    (rnd : list nat) : option (result pool_exn nat * list nat) :=
  match tries with
  | O => Some (Raise NoPeersException, rnd)
  | S tries' =>
      match rnd with
      | [] => None
      | r :: rnd' =>
          match random_choice (established_connections self) r with
          | Raise e => Some (Raise e, rnd')
          | Return connection =>
              if usable self connection
              then Some (Return connection, rnd')
              else pick_connection_loop self tries' rnd'
          end
      end
  end.

Definition _pick_connection (self : ElectrodConnectionPool) (rnd : list nat)
  : option (result pool_exn nat * list nat) :=
  pick_connection_loop self 101 rnd.

(** The loop of [_pick_multiple_connections]: [continue] goes round
    without counting, hence the [fuel]. *)
Fixpoint pick_multiple_loop (self : ElectrodConnectionPool) (howmany : Z)
    (fuel : nat) (i : Z) (connections : list nat) (rnd : list nat)
  : option (result pool_exn (list nat) * list nat) :=
  match fuel with
  | O => None
  | S fuel' =>
      match _pick_connection self rnd with
      | None => None
      | Some (Raise e, rnd') => Some (Raise e, rnd')
      | Some (Return connection, rnd') =>
          if bool_decide (connection ∈ connections)
          then pick_multiple_loop self howmany fuel' i connections rnd'
          else
            let connections := connections ++ [connection] in
            if Z.of_nat (length connections) =? howmany
            then Some (Return connections, rnd')
            else if 100 <? i
                 then Some (Raise NoPeersException, rnd')
                 else pick_multiple_loop self howmany fuel' (i + 1) connections rnd'
      end
  end.

(** Every turn of the loop draws a number, so that [length rnd] turns
    are all there can be. *)
Definition _pick_multiple_connections (self : ElectrodConnectionPool)
    (howmany : Z) (rnd : list nat)
  : option (result pool_exn (list nat) * list nat) :=
  pick_multiple_loop self howmany (S (length rnd)) 0 [] rnd.

(** [responses.count(response)] *)
Definition count (responses : list R) (response : R) : nat :=
  length (List.filter (fun r => py_eq r response) responses).

Fixpoint first_unanimous (responses all : list R) : option R :=
  match responses with
  | [] => None
  | response :: rest =>
      if (count all response =? length all)%nat
      then Some response
      else first_unanimous rest all
  end.

(** [_handle_responses(responses)] *)
Definition _handle_responses (responses : list R) : result pool_exn R :=
  match responses with
  | [response] => Return response
  | _ =>
      match first_unanimous responses responses with
      | Some response => Return response
      | None => Raise (NoQuorumOnResponsesException responses)
      end
  end.

(** What [asyncio.gather] is given: a coroutine [connection.rpc_call(...)],
    here with the outcome of the request at the client, or a generator
    expression over such. *)
Inductive awaitable : Type :=
| Coroutine (outcome : result exn (option R))
| GeneratorExp (items : list (result exn (option R))).

(** What awaiting a generator object gives is left to the event loop. *)
Variable await_generator
  : list (result exn (option R)) -> result pool_exn (option R).

Definition await (a : awaitable) : result pool_exn (option R) :=
  match a with
  | Coroutine outcome =>
      match outcome with
      | Return response => Return response
      | Raise _ => Return None
      end
  | GeneratorExp items => await_generator items
  end.

(** [await asyncio.gather(aws...)]: the results of the arguments, one for
    each, in their order. *)
Fixpoint asyncio_gather (aws : list awaitable) : result pool_exn (list (option R)) :=
  match aws with
  | [] => Return []
  | a :: aws' =>
      r ← await a;
      rs ← asyncio_gather aws';
      Return (r :: rs)
  end.

(** [[r for r in responses if r is not None]] *)
Definition not_none (responses : list (option R)) : list R :=
  omap id responses.

(** [not response] *)
Definition falsy (response : option R) : bool :=
  match response with
  | None => true
  | Some r => negb (py_bool r)
  end.

(** What [call] returns: [response], or [(connection, response)]. *)
Inductive answer : Type :=
| Response (response : option R)
| PeerResponse (connection : nat) (response : option R).

(** [call(method, params, agreement=1, get_peer=False)]; [rpc c] is the
    outcome of the request at the client of connection [c]. *)
Definition call (self : ElectrodConnectionPool) (agreement : Z) (get_peer : bool)
    (rnd : list nat) (rpc : nat -> result exn (option R))
  : option (result pool_exn answer) :=
  if get_peer && (1 <? agreement) then Some (Raise (Builtin ValueError))
  else if _required_connections self <? agreement then Some (Raise (Builtin ValueError))
  else if Z.of_nat (length (established_connections self)) <? agreement
  then Some (Raise NoPeersException)
  else if 1 <? agreement
  then
    match _pick_multiple_connections self agreement rnd with
    | None => None
    | Some (Raise e, _) => Some (Raise e)
    | Some (Return servers, _) =>
        Some (responses ← asyncio_gather
                            [GeneratorExp (map rpc servers)];
              let responses := not_none responses in
              if Z.of_nat (length responses) <? agreement
              then Raise ElectrodMissingResponseException
              else r ← _handle_responses responses; Return (Response (Some r)))
    end
  else
    match _pick_connection self rnd with
    | None => None
    | Some (Raise e, _) => Some (Raise e)
    | Some (Return connection, _) =>
        match _connections self !! connection with
        | None => Some (Raise (Builtin IndexError))
        | Some peer =>
            let response := fst (rpc_call peer (rpc connection)) in
            Some (if falsy response
                  then Raise ElectrodMissingResponseException
                  else Return (if get_peer then PeerResponse connection response
                               else Response response))
        end
    end.

(** [_handle_peer_error(peer)]; [po] is how the ping goes.  The tasks
    are those the handler has scheduled when it returns, or when the
    exception of the ping ends it. *)
Definition _handle_peer_error (peer : ElectrodConnection) (po : ping_outcome)
  : list task :=
  if negb (connected peer) then []
  else
    (if score peer =? 0 then [TDisconnect] else []) ++
    (match ping peer po with
     | (Return alive, spawned) => spawned ++ (if alive then [] else [TDisconnect])
     | (Raise _, spawned) => spawned
     end).

(** *** The event loop, seen from one peer *)

(** What makes the peer move: a coroutine of the peer is run with the
    outcome of its request, or the loop runs the oldest task it was
    given. *)
Inductive input : Type :=
| IConnect (outcome : result exn string)
| IRpcCall (outcome : result exn (option R))
| ISubscribe (outcome : subscription)
| IPollQueue (outcome : result exn R)
| IRun (po : ping_outcome).

Definition run_task (peer : ElectrodConnection) (t : task) (po : ping_outcome)
  : ElectrodConnection * list task :=
  match t with
  | TOnError e => on_error peer e
  | TDisconnect => (disconnect peer, [])
  | TCallback on_peer_error => (peer, _handle_peer_error peer po)
  | TCallback _ => (peer, [])
  end.

Definition step (cfg : ElectrodConnection * list task) (i : input)
  : ElectrodConnection * list task :=
  let '(peer, queue) := cfg in
  match i with
  | IConnect outcome =>
      let '(peer, spawned) := connect peer outcome in (peer, queue ++ spawned)
  | IRpcCall outcome => (peer, queue ++ snd (rpc_call peer outcome))
  | ISubscribe outcome =>
      let '(peer, spawned) :=
        subscribe peer "blockchain.headers.subscribe"
                  (Some on_peer_received_header) outcome in
      (peer, queue ++ spawned)
  | IPollQueue outcome =>
      let '(peer, spawned) := _poll_queue peer on_peer_received_header outcome in
      (peer, queue ++ spawned)
  | IRun po =>
      match queue with
      | [] => cfg
      | t :: queue' =>
          let '(peer, spawned) := run_task peer t po in (peer, queue' ++ spawned)
      end
  end.

Definition run (inputs : list input) (cfg : ElectrodConnection * list task)
  : ElectrodConnection * list task :=
  fold_left step inputs cfg.

(** *** The servers of the pool *)

(** An entry of [_servers]: the hostname and the protocol. *)
Definition server : Type := (string * string)%type.

(** [[connection.hostname for connection in self.connections]] *)
Definition hostnames (self : ElectrodConnectionPool) : list string :=
  map hostname (_connections self).

(** [random.choice(self._servers)] *)
Definition choose_server (_servers : list server) (r : nat) : result pool_exn server :=
  match _servers !! (r mod length _servers)%nat with
  | Some a => Return a
  | None => Raise (Builtin IndexError)
  end.

(** The loop of [_pick_server]; [_servers] is the attribute of the pool of
    that name, [tries] and [rnd] are as in [pick_connection_loop]. *)
Fixpoint pick_server_loop (self : ElectrodConnectionPool) (_servers : list server)
    (tries : nat) (rnd : list nat) : option (result pool_exn server * list nat) :=
  match tries with
  | O => Some (Raise NoPeersException, rnd)
  | S tries' =>
      match rnd with
      | [] => None
      | r :: rnd' =>
          match choose_server _servers r with
          | Raise e => Some (Raise e, rnd')
          | Return server =>
              if bool_decide (server.1 ∈ hostnames self)
              then pick_server_loop self _servers tries' rnd'
              else Some (Return server, rnd')
          end
      end
  end.

Definition _pick_server (self : ElectrodConnectionPool) (_servers : list server)
    (rnd : list nat) : option (result pool_exn server * list nat) :=
  pick_server_loop self _servers 101 rnd.

(** The loop of [_pick_multiple_servers], which is written as the loop of
    [_pick_multiple_connections] is. *)
Fixpoint pick_servers_loop (self : ElectrodConnectionPool) (_servers : list server)
    (howmany : Z) (fuel : nat) (i : Z) (servers : list server) (rnd : list nat)
  : option (result pool_exn (list server) * list nat) :=
  match fuel with
  | O => None
  | S fuel' =>
      match _pick_server self _servers rnd with
      | None => None
      | Some (Raise e, rnd') => Some (Raise e, rnd')
      | Some (Return server, rnd') =>
          if bool_decide (server ∈ servers)
          then pick_servers_loop self _servers howmany fuel' i servers rnd'
          else
            let servers := servers ++ [server] in
            if Z.of_nat (length servers) =? howmany
            then Some (Return servers, rnd')
            else if 100 <? i
                 then Some (Raise NoPeersException, rnd')
                 else pick_servers_loop self _servers howmany fuel' (i + 1) servers rnd'
      end
  end.

Definition _pick_multiple_servers (self : ElectrodConnectionPool)
    (_servers : list server) (howmany : Z) (rnd : list nat)
  : option (result pool_exn (list server) * list nat) :=
  pick_servers_loop self _servers howmany (S (length rnd)) 0 [] rnd.

(** [_connect_servers(howmany)]: a new connection for each server picked,
    with the callbacks of the pool, put at the end of [_connections]; the
    [connect()] of each is handed to the loop. *)
Definition _connect_servers (self : ElectrodConnectionPool) (_servers : list server)
    (howmany : Z) (rnd : list nat)
  : option (result pool_exn ElectrodConnectionPool * list nat) :=
  match _pick_multiple_servers self _servers howmany rnd with
  | None => None
  | Some (Raise e, rnd') => Some (Raise e, rnd')
  | Some (Return servers, rnd') =>
      Some (Return {| _connections :=
                        _connections self
                        ++ map (fun server : server => new_connection server.1 10) servers;
                      _required_connections := _required_connections self;
                      _keepalive := _keepalive self |},
            rnd')
  end.

(** One turn of the loop of [connect()]:
    [missings = self._required_connections - len(self.established_connections)]
    and the task [_connect_servers(missings)]. *)
Definition keepalive_turn (self : ElectrodConnectionPool) (_servers : list server)
    (rnd : list nat) : option (result pool_exn ElectrodConnectionPool * list nat) :=
  _connect_servers self _servers
    (_required_connections self - Z.of_nat (length (established_connections self)))
    rnd.

End WithResponses.
Arguments ElectrodConnection R : clear implicits.
Arguments ping_outcome R : clear implicits.
Arguments subscription R : clear implicits.
Arguments ElectrodConnectionPool R : clear implicits.
Arguments pool_exn R : clear implicits.
Arguments awaitable R : clear implicits.
Arguments answer R : clear implicits.
Arguments input R : clear implicits.

End Electrod.

(** ** spruned/third_party/blockcypher_service.py *)

Module BlockCypherService.

(** Modelled from the spec: [settings.Network], the two networks of the
    configuration ([network: mainnet|testnet]). *)
Inductive Network : Type :=
| BITCOIN
| BITCOIN_TESTNET.

Record t : Type := {
  BASE : string;
  coin : string
}.

(** [BlockCypherService(coin)] *)
Definition init (network : Network) : t :=
  {| BASE := "https://api.blockcypher.com/v1/";
     coin := match network with
             | BITCOIN => "btc/main/"
             | BITCOIN_TESTNET => "btc/testnet/"
             end |}.

(** [d[k]] *)
Definition item (d : dict) (k : string) : result exn value :=
  match dict_get d k with
  | Some v => Return v
  | None => Raise KeyError
  end.

(** [s.split('.')[0]] *)
Fixpoint before_dot (s : string) : string :=
  match s with
  | EmptyString => EmptyString
  | String c s' => if Ascii.eqb c "."%char then EmptyString
                   else String c (before_dot s')
  end.

(** The characters of a string, as iterating over it gives them. *)
Fixpoint chars (s : string) : list string :=
  match s with
  | EmptyString => []
  | String c s' => String c EmptyString :: chars s'
  end.

(** [len(x)] *)
Definition len (x : value) : result exn Z :=
  match x with
  | VList l => Return (Z.of_nat (length l))
  | VStr s => Return (Z.of_nat (String.length s))
  | _ => Raise TypeError
  end.

(** [d['txids'].extend(res['txids'])]: the list of [d] with the items of
    the other value after it. *)
Definition extend_txids (d res : dict) : result exn dict :=
  x ← item d "txids";
  match x with
  | VList l =>
      y ← item res "txids";
      match y with
      | VList l' => Return (dict_set d "txids" (VList (l ++ l')))
      | VStr s => Return (dict_set d "txids" (VList (l ++ chars s)))
      | _ => Raise TypeError
      end
  | _ => Raise AttributeError
  end.

Section WithWorld.

(** What is outside: [http_get url] is the decoded body of the response to
    a GET of [url], or the exception of the request, of
    [raise_for_status()] or of [json()]; [epoch_seconds format text] is
    [int((datetime.strptime(text, format) - datetime(1970, 1, 1)).total_seconds())],
    or the exception of [strptime]. *)
Variable http_get : string -> result exn dict.
Variable epoch_seconds : string -> string -> result exn Z.

(** [getrawtransaction(txid)] *)
Definition getrawtransaction (self : t) (txid : string) : result exn dict :=
  data ← http_get (BASE self ++ coin self ++ "txs/" ++ txid
                     ++ "?includeHex=1&limit=1")%string;
  confirmed ← item data "confirmed";
  _c ← match confirmed with
       | VStr s => Return (before_dot s)
       | _ => Raise AttributeError
       end;
  epoch_time ← epoch_seconds "%Y-%m-%dT%H:%M:%S" _c;
  hex ← item data "hex";
  block_hash ← item data "block_hash";
  block_height ← item data "block_height";
  confirmations ← item data "confirmations";
  size ← item data "size";
  Return [("rawtx"%string, hex);
          ("blockhash"%string, block_hash);
          ("blockheight"%string, block_height);
          ("confirmations"%string, confirmations);
          ("time"%string, VInt epoch_time);
          ("size"%string, size)].

(** The address of a page of the block. *)
Definition page_url (self : t) (blockhash : string) (_s _l : Z) : string :=
  (BASE self ++ coin self ++ "blocks/" ++ blockhash
     ++ "?txstart=" ++ pretty _s ++ "&limit=" ++ pretty _l)%string.

(** The loop of [getblock]; the answer is [None] when [fuel] pages were
    fetched and each held 500 ids or more. *)
Fixpoint fetch_pages (self : t) (blockhash : string) (fuel : nat)
    (d : option dict) (_s _l : Z) : option (result exn dict) :=
  match fuel with
  | O => None
  | S fuel' =>
      match http_get (page_url self blockhash _s _l) with
      | Raise e => Some (Raise e)
      | Return res =>
          match (d' ← match d with
                      | None => Return res
                      | Some d => extend_txids d res
                      end;
                 txids ← item res "txids";
                 n ← len txids;
                 Return (d', n)) with
          | Raise e => Some (Raise e)
          | Return (d', n) =>
              if n <? 500 then Some (Return d')
              else fetch_pages self blockhash fuel' (Some d') (_s + 500) (_l + 500)
          end
      end
  end.

(** What [getblock] returns for the block [d] it has put together. *)
Definition block_answer (d : dict) : result exn dict :=
  time ← item d "time";
  text ← match time with
         | VStr s => Return s
         | _ => Raise TypeError
         end;
  epoch_time ← epoch_seconds "%Y-%m-%dT%H:%M:%SZ" text;
  hash ← item d "hash";
  size ← item d "size";
  height ← item d "height";
  ver ← item d "ver";
  mrkl_root ← item d "mrkl_root";
  txids ← item d "txids";
  nonce ← item d "nonce";
  bits ← item d "bits";
  prev_block ← item d "prev_block";
  Return [("hash"%string, hash);
          ("confirmations"%string, VNone);
          ("strippedsize"%string, VNone);
          ("size"%string, size);
          ("weight"%string, VNone);
          ("height"%string, height);
          ("version"%string, ver);
          ("versionHex"%string, VNone);
          ("merkleroot"%string, mrkl_root);
          ("tx"%string, txids);
          ("time"%string, VInt epoch_time);
          ("mediantime"%string, VNone);
          ("nonce"%string, nonce);
          ("bits"%string, bits);
          ("difficulty"%string, VNone);
          ("chainwork"%string, VNone);
          ("previousblockhash"%string, prev_block);
          ("nextblockhash"%string, VNone)].

(** [getblock(blockhash)] *)
Definition getblock (self : t) (fuel : nat) (blockhash : string)
  : option (result exn dict) :=
  match fetch_pages self blockhash fuel None 0 500 with
  | None => None
  | Some (Raise e) => Some (Raise e)
  | Some (Return d) => Some (block_answer d)
  end.

(** [getblockheader(blockhash)] *)
Definition getblockheader (self : t) (blockhash : string) : result exn dict :=
  Raise NotImplementedError.

End WithWorld.

End BlockCypherService.

(** * Names of the specification, and the objects of the examples *)

(** A peer of the pool, connected, that meets eleven failing requests. *)
Definition eleven_timeouts : list (Electrod.input value) :=
  Electrod.IConnect (Return "1.2"%string)
  :: Electrod.IRun (Electrod.PingReply (Return None))
  :: repeat (Electrod.IRpcCall (Raise TimeoutError)) 11
  ++ repeat (Electrod.IRun (Electrod.PingReply (Return None))) 11.

(** What a server answers: a plain value or a mapping. *)
Inductive json : Type :=
| JValue (v : value)
| JObject (d : dict).

#[global] Instance json_PyObject : PyObject json := {
  py_eq a b := match a, b with
               | JValue x, JValue y => py_eq x y
               | JObject x, JObject y => py_eq x y
               | _, _ => false
               end;
  py_bool a := match a with
               | JValue x => py_bool x
               | JObject x => py_bool x
               end
}.

(** A pool of three connected peers with the score they start with. *)
Definition three_peers : Electrod.ElectrodConnectionPool json :=
  let peer host :=
    fst (Electrod.connect (Electrod.new_connection host 10) (Return "1.2"%string)) in
  {| Electrod._connections :=
       [peer "a.example"%string; peer "b.example"%string; peer "c.example"%string];
     Electrod._required_connections := 3;
     Electrod._keepalive := true |}.

(** The peers all answer the same header. *)
Definition same_header (connection : nat) : result exn (option json) :=
  Return (Some (JValue (VStr "0100000000000000"))).

(** The first peer answers an empty mapping, the second an empty string,
    the third does not answer in time. *)
Definition empty_answers (connection : nat) : result exn (option json) :=
  match connection with
  | O => Return (Some (JObject []))
  | S O => Return (Some (JValue (VStr EmptyString)))
  | _ => Raise TimeoutError
  end.

(** Awaiting the generator object: the task that wraps it fails on the
    first coroutine the generator yields. *)
Definition bad_yield (items : list (result exn (option json)))
  : result (Electrod.pool_exn json) (option json) :=
  match items with
  | [] => Return None
  | _ :: _ => Raise (Electrod.Builtin RuntimeError)
  end.

(** Were awaiting the generator to give the answer of its first coroutine. *)
Definition first_item (items : list (result exn (option json)))
  : result (Electrod.pool_exn json) (option json) :=
  match items with
  | Return response :: _ => Return response
  | _ => Return None
  end.

(** A letter of the English alphabet or a digit. *)
Definition alnum (c : ascii) : bool :=
  let n := nat_of_ascii c in
  ((48 <=? n) && (n <=? 57) || (65 <=? n) && (n <=? 90)
   || (97 <=? n) && (n <=? 122))%nat.

Fixpoint alnum_string (s : string) : bool :=
  match s with
  | EmptyString => true
  | String c s' => alnum c && alnum_string s'
  end.

(** Names as the service uses them: a namespace and a key (the hash of a
    block or of a transaction) made of letters and digits. *)
Definition well_named (namespace key : string) : Prop :=
  alnum_string namespace = true /\ alnum_string key = true.

(** The name of the file of an entry. *)
Definition entry_name (namespace key : string) : string :=
  namespace +:+ "." +:+ key +:+ ".bin".

(** A disk is a tree: what holds a node is a directory, and so is the
    working directory. *)
Definition wf {V : Type} (fs : FileSystem.t V) : Prop :=
  (forall (p : FileSystem.path) (x : string) n,
      FileSystem.nodes fs !! (p ++ [x]) = Some n ->
      FileSystem.node_at fs p = Some FileSystem.Dir)
  /\ FileSystem.node_at fs (FileSystem.cwd fs) = Some FileSystem.Dir.

(** The same, as a test. *)
Definition is_dir {V : Type} (n : option (FileSystem.node V)) : bool :=
  match n with
  | Some FileSystem.Dir => true
  | _ => false
  end.

Definition is_tree {V : Type} (fs : FileSystem.t V) : bool :=
  forallb (fun kv => is_dir (FileSystem.node_at fs (removelast kv.1)))
          (map_to_list (FileSystem.nodes fs))
  && is_dir (FileSystem.node_at fs (FileSystem.cwd fs)).

(** A cache in working order: its disk is a tree, and its directory is a
    directory of that disk ([os.path.isdir(self.directory)]). *)
Definition cache_ok {V : Type} (self : FileCacheInterface.t V) : Prop :=
  wf (FileCacheInterface.disk self)
  /\ FileSystem.stat (FileCacheInterface.disk self) (FileCacheInterface.directory self)
     = Return FileSystem.Dir.

(** The path of an entry in the words of the specification:
    [<dir>/<prefix>/<namespace>.<key>.bin]. *)
Definition spec_path (dir namespace key : string) : string :=
  (dir ++ "/" ++ FileCacheInterface.take2 (FileCacheInterface.lstrip0 key)
       ++ "/" ++ namespace ++ "." ++ key ++ ".bin")%string.

(** The entries of a list are set, one after the other. *)
Fixpoint set_all {V : Type} (self : FileCacheInterface.t V)
    (entries : list (string * string * V)) : result exn (FileCacheInterface.t V) :=
  match entries with
  | [] => Return self
  | e :: entries' =>
      self' ← FileCacheInterface.set self e.1.1 e.1.2 e.2 None;
      set_all self' entries'
  end.

(** What a computation returns, [default] standing for what it does not
    return when it raises. *)
Definition returned {A : Type} (default : A) (m : result exn A) : A :=
  match m with
  | Return a => a
  | Raise _ => default
  end.

(** A block as the sources report it. *)
Definition block_00ab (confirmations : Z) (merkleroot : string) (time : Z) : dict :=
  [("hash"%string, VStr "00ab"); ("confirmations"%string, VInt confirmations);
   ("merkleroot"%string, VStr merkleroot); ("time"%string, VInt time)].

(** [FileCacheInterface(dir)] on an empty disk. *)
Definition empty_cache (dir : string) : FileCacheInterface.t dict :=
  returned {| FileCacheInterface.directory := dir;
              FileCacheInterface.disk := FileSystem.empty_disk |}
           (FileCacheInterface.init FileSystem.empty_disk dir None).

(** A source that answers one block and one transaction, whatever it is
    asked. *)
Definition source (block transaction : dict) : SprunedVOService.RPCAPIService :=
  {| SprunedVOService.svc_getblock := fun _ => Return block;
     SprunedVOService.svc_getrawtransaction := fun _ => Return transaction |}.

Definition transaction_7f3c (blockhash : value) : dict :=
  [("rawtx"%string, VStr "0100007f3c"); ("blockhash"%string, blockhash);
   ("confirmations"%string, VInt 10); ("time"%string, VInt 1700000000)].

(** A service with three secondary sources that agree, and a file cache. *)
Definition three_sources (cache : FileCacheInterface.t dict) (block transaction : dict)
  : SprunedVOService.t (FileCacheInterface.t dict) :=
  {| SprunedVOService.services := [0; 1; 2]%nat;
     SprunedVOService.primary := [];
     SprunedVOService.cache := Some cache;
     SprunedVOService.min_sources := 3;
     SprunedVOService.objects := fun _ => source block transaction |}.

(** A cache that holds a block for ["00ab"]. *)
Definition cache_with_00ab : FileCacheInterface.t dict :=
  returned (empty_cache "/tmp/cache/")
           (FileCacheInterface.set (empty_cache "/tmp/cache/") "getblock" "00ab"
              (block_00ab 10 "A" 1700000000) None).

(** A source that cannot be reached. *)
Definition unreachable_source : SprunedVOService.RPCAPIService :=
  {| SprunedVOService.svc_getblock := fun _ => Raise OSError;
     SprunedVOService.svc_getrawtransaction := fun _ => Raise OSError |}.

Definition three_unreachable_sources (cache : FileCacheInterface.t dict)
  : SprunedVOService.t (FileCacheInterface.t dict) :=
  {| SprunedVOService.services := [0; 1; 2]%nat;
     SprunedVOService.primary := [];
     SprunedVOService.cache := Some cache;
     SprunedVOService.min_sources := 3;
     SprunedVOService.objects := fun _ => unreachable_source |}.

(** When two values collected one after the other for a key agree, for the
    code: under the key ["time"] they are integers less than 10 apart, under
    any other key they are equal. *)
Definition code_agree (k : string) (x y : value) : bool :=
  if String.eqb k "time"
  then match x, y with
       | VInt a, VInt b => Z.abs (a - b) <? 10
       | _, _ => false
       end
  else bool_decide (x = y).

(** When the values collected for a key agree, in the words of the
    specification: under ["time"] and ["mediantime"] any two of them are at
    most 10 apart, under any other key they are all equal. *)
Definition spec_agree (k : string) (vs : list value) : Prop :=
  if String.eqb k "time" || String.eqb k "mediantime"
  then forall x y, In x vs -> In y vs ->
                   exists a b, x = VInt a /\ y = VInt b /\ Z.abs (a - b) <= 10
  else forall x y, In x vs -> In y vs -> x = y.

(** The values collected for [k], given the value [v] of the first answer. *)
Definition collected (k : string) (v : value) (rest : list dict) : list value :=
  (if is_none v then [] else [v]) ++ SprunedVOService.collect k rest.

(** What one turn of the loop over the items asks of the key. *)
Definition key_ok (rest : list dict) (kv : string * value) : Prop :=
  let dd := collected kv.1 kv.2 rest in
  returns (SprunedVOService.check_loop kv.1 (Z.of_nat (length dd)) 0 dd)
  /\ (is_none kv.2 = false -> py_bool kv.2 = true).

(** Three answers for the block ["00ab"] that differ in one field. *)
Definition answers (field : string) (v1 v2 v3 : value) : list dict :=
  [ [("hash"%string, VStr "00ab"); (field, v1)];
    [("hash"%string, VStr "00ab"); (field, v2)];
    [("hash"%string, VStr "00ab"); (field, v3)] ].

(** * Properties *)

(** ** The score of a peer *)

Section PeerScore.
Context {R : Type} `{PyObject R}.
Import Electrod.

Implicit Types (peer : ElectrodConnection R) (queue : list task).

Lemma on_error_score peer e :
  score (fst (on_error peer e)) = score peer - 1.
Proof. reflexivity. Qed.

Lemma on_error_connected peer e :
  connected (fst (on_error peer e)) = connected peer.
Proof. reflexivity. Qed.

Lemma run_task_score peer t po :
  score (fst (run_task peer t po)) = score peer
  ∨ score (fst (run_task peer t po)) = score peer - 1.
Proof. destruct t as [[]| |]; simpl; auto. Qed.

(** One move of the loop lowers the score by 0, 1 or 4. *)
Lemma step_score peer queue i :
  let s := score (fst (step (peer, queue) i)) in
  s = score peer ∨ s = score peer - 1 ∨ s = score peer - 4.
Proof.
  destruct i as [[v|e]|o|[e|e|h]|[h|e]|po]; simpl; auto.
  destruct queue as [|t queue]; simpl; auto.
  destruct (run_task peer t po) as [peer' spawned] eqn:E.
  pose proof (run_task_score peer t po) as Hs. rewrite E in Hs.
  simpl in *. destruct Hs; auto.
Qed.

Lemma run_score_le (inputs : list (input R)) :
  forall cfg : ElectrodConnection R * list task,
    score (fst (run inputs cfg)) <= score (fst cfg).
Proof.
  unfold run.
  induction inputs as [|i inputs IH]; intros [peer queue]; cbn [fold_left].
  - lia.
  - pose proof (step_score peer queue i) as Hs. cbv zeta in Hs.
    specialize (IH (step (peer, queue) i)). cbn [fst] in *. lia.
Qed.

Lemma handler_disconnects_at_zero peer po :
  connected peer = true -> score peer = 0 ->
  In TDisconnect (_handle_peer_error peer po).
Proof.
  intros Hc Hs. unfold _handle_peer_error. rewrite Hc, Hs. simpl. auto.
Qed.

End PeerScore.

Section PeerClaims.
Context {R : Type} `{PyObject R}.
Import Electrod.

Implicit Types (peer : ElectrodConnection R).

(** C4, as amended.  From a new peer the score never exceeds the score
    it started with, and no move of the loop raises it: a move takes 0, 1
    or 4 from it (a failed connect takes 4, an error event 1, a failed poll
    of the queue 1).  Nothing holds it at 0.  When the error handler of the
    pool runs on a connected peer whose score is 0, it schedules the
    disconnection of that peer. *)
Theorem score_bounded_above_and_zero_disconnects :
  (forall (host : string) (start_score : Z) (inputs : list (input R)),
      score (fst (run inputs (new_connection host start_score, [])))
      <= start_score)
  /\ (forall peer (queue : list task) (i : input R),
         let s := score (fst (step (peer, queue) i)) in
         s = score peer \/ s = score peer - 1 \/ s = score peer - 4)
  /\ (forall peer (e : exn) (cb : callback),
         score (fst (connect peer (Raise e))) = score peer - 4
         /\ score (fst (on_error peer e)) = score peer - 1
         /\ score (fst (_poll_queue peer cb (Raise e))) = score peer - 1)
  /\ (forall peer (po : ping_outcome R),
         connected peer = true -> score peer = 0 ->
         In TDisconnect (_handle_peer_error peer po)).
Proof.
  split; [|split; [|split]].
  - intros host start_score inputs.
    apply (run_score_le inputs (new_connection host start_score, [])).
  - intros peer queue i. apply step_score.
  - intros peer e cb. repeat split.
  - intros peer po. apply handler_disconnects_at_zero.
Qed.

(** C6.  A [connect()] that fails takes exactly 4 from the score of the
    peer (a new peer goes from 10 to 6), schedules the error event
    [on_error(e)] and changes nothing else: no error is recorded yet, the
    peer is connected or not as it was.  The event itself, once the loop
    delivers it, records the error and takes 1 more, 5 in all.  A
    [connect()] that succeeds records the version the client negotiated,
    leaves the score as it was and schedules the callbacks of the
    connection. *)
Theorem connect_failure_minus_4_success_records_version :
  (forall peer (e : exn) (po : ping_outcome R),
      score (fst (connect peer (Raise e))) = score peer - 4
      /\ snd (connect peer (Raise e)) = [TOnError e]
      /\ _errors (fst (connect peer (Raise e))) = _errors peer
      /\ connected (fst (connect peer (Raise e))) = connected peer
      /\ _version (fst (connect peer (Raise e))) = _version peer
      /\ score (fst (run [IConnect (Raise e); IRun po] (peer, []))) = score peer - 5
      /\ _errors (fst (run [IConnect (Raise e); IRun po] (peer, [])))
         = _errors peer ++ [e])
  /\ (forall (host : string) (e : exn),
         score (fst (connect (new_connection (R := R) host 10) (Raise e))) = 6)
  /\ (forall peer (version : string),
         _version (fst (connect peer (Return version))) = Some version
         /\ score (fst (connect peer (Return version))) = score peer
         /\ connected (fst (connect peer (Return version))) = true
         /\ snd (connect peer (Return version))
            = map TCallback (_on_connect_callbacks peer)).
Proof.
  split; [|split].
  - intros peer e po. unfold score, connected. simpl.
    split; [reflexivity|]. split; [reflexivity|]. split; [reflexivity|].
    split; [reflexivity|]. split; [reflexivity|]. split; [lia|reflexivity].
  - intros host e. reflexivity.
  - intros peer version.
    split; [reflexivity|]. split; [reflexivity|]. split; reflexivity.
Qed.

Lemma failed_connect_then_event peer (e : exn) (po : ping_outcome R) :
  score (fst (run [IConnect (Raise e); IRun po] (peer, []))) = score peer - 5.
Proof. unfold score. simpl. lia. Qed.

(** C10.  When the poll of the queue of a subscription fails, the score
    loses 1 in [_poll_queue] itself and 1 more when the error event it
    scheduled is delivered, 2 in all; a failed [rpc_call] loses the 1 of
    its error event only. *)
Theorem poll_failure_decrements_twice :
  forall peer (e : exn) (po : ping_outcome R),
    score (fst (_poll_queue peer on_peer_received_header (Raise e)))
    = score peer - 1
    /\ snd (_poll_queue peer on_peer_received_header (Raise e)) = [TOnError e]
    /\ score (fst (run [IPollQueue (Raise e); IRun po] (peer, [])))
       = score peer - 2
    /\ score (fst (run [IRpcCall (Raise e); IRun po] (peer, [])))
       = score peer - 1.
Proof. intros. unfold score. simpl. repeat split; lia. Qed.

(** C7.  An [rpc_call] that times out or meets a transport error returns
    [None], leaves the peer as it is and schedules the error event; the
    event, once delivered, takes exactly 1 from the score, records the
    error, hands the peer to the error callbacks, and leaves the client and
    its protocol alone.  Hence two such calls in a row take a connected
    peer from 10 to 8, and the peer is still connected with a positive
    score, which is what the pool asks of a peer it selects; the error
    handler of the pool, whose ping is answered, schedules nothing. *)
Theorem rpc_error_decrements_once_keeps_connection :
  forall peer (e1 e2 : exn) (po1 po2 : ping_outcome R) (r1 r2 : option R),
    rpc_call peer (Raise e1) = (None, [TOnError e1])
    /\ run [IRpcCall (Raise e1); IRun po1] (peer, [])
       = (set_score (set_errors peer (_errors peer ++ [e1])) (score peer - 1),
          map TCallback (_on_errors_callbacks peer))
    /\ connected (fst (run [IRpcCall (Raise e1); IRun po1] (peer, [])))
       = connected peer
    /\ _version (fst (run [IRpcCall (Raise e1); IRun po1] (peer, [])))
       = _version peer
    /\ (score peer = 10 -> connected peer = true ->
        _on_errors_callbacks peer = [on_peer_error] ->
        let peer1 := fst (on_error peer e1) in
        let peer2 := fst (on_error peer1 e2) in
        run [IRpcCall (Raise e1); IRun po1; IRun (PingReply (Return r1));
             IRpcCall (Raise e2); IRun po2; IRun (PingReply (Return r2))]
            (peer, []) = (peer2, [])
        /\ score peer2 = 8
        /\ connected peer2 && (0 <? score peer2) = true).
Proof.
  intros. do 4 (split; [reflexivity|]).
  intros Hs Hc Hcb peer1 peer2. subst peer1 peer2.
  destruct peer; unfold score, connected in *; cbn in Hs, Hc, Hcb; subst.
  repeat split.
Qed.

End PeerClaims.

(** C4, the claim as it stands, fails: a new peer with the default score 10
    that connects and then sees eleven requests time out, each error event
    delivered, is left connected with the score -1, below the interval
    [0, 10]. *)
Lemma score_goes_negative :
  let peer := fst (Electrod.run eleven_timeouts
                     (Electrod.new_connection "electrum.example"%string 10, [])) in
  Electrod.score peer = -1
  /\ Electrod.connected peer = true
  /\ ~ (0 <= Electrod.score peer <= 10).
Proof. vm_compute. repeat split; intros [Hlo _]; apply Hlo; reflexivity. Qed.

Lemma score_bounded_above_and_zero_disconnects_witness :
  let peer := Electrod.set_score
                (fst (Electrod.connect
                        (Electrod.new_connection "electrum.example"%string 10)
                        (Return "1.2"%string))) 0 in
  Electrod.connected peer = true
  /\ Electrod.score peer = 0
  /\ In Electrod.TDisconnect
        (Electrod._handle_peer_error (R := value) peer Electrod.PingTimeout).
Proof.
  intros peer. split; [reflexivity|]. split; [reflexivity|].
  apply (proj2 (proj2 (proj2 score_bounded_above_and_zero_disconnects)));
    reflexivity.
Defined.

Lemma rpc_error_decrements_once_keeps_connection_witness :
  let peer := fst (Electrod.connect
                     (Electrod.new_connection (R := value) "electrum.example"%string 10)
                     (Return "1.2"%string)) in
  Electrod.score peer = 10
  /\ Electrod.connected peer = true
  /\ Electrod.score
       (fst (Electrod.on_error (fst (Electrod.on_error peer TimeoutError))
               TimeoutError)) = 8.
Proof.
  intros peer. split; [reflexivity|]. split; [reflexivity|].
  pose proof (rpc_error_decrements_once_keeps_connection peer
                TimeoutError TimeoutError Electrod.PingTimeout Electrod.PingTimeout
                None None) as (_ & _ & _ & _ & Htwo).
  exact (proj1 (proj2 (Htwo eq_refl eq_refl eq_refl))).
Defined.

(** ** The calls of the pool *)

Section PoolCalls.
Context {R : Type} `{PyObject R}.
Import Electrod.

Implicit Types (self : ElectrodConnectionPool R) (rnd : list nat).

Lemma established_lookup self c :
  c ∈ established_connections self ->
  exists peer, _connections self !! c = Some peer /\ connected peer = true.
Proof.
  unfold established_connections. rewrite list_elem_of_In, filter_In.
  intros [_ Hc]. unfold is_connected in Hc.
  destruct (_connections self !! c) as [peer|]; [eauto | discriminate].
Qed.

Lemma random_choice_elem (l : list nat) r c :
  random_choice (R := R) l r = Return c -> c ∈ l.
Proof.
  unfold random_choice. destruct (l !! _) as [a|] eqn:E; [|discriminate].
  intros [= <-]. eapply list_elem_of_lookup_2, E.
Qed.

Lemma pick_connection_loop_spec self tries : forall rnd rnd' c,
  pick_connection_loop self tries rnd = Some (Return c, rnd') ->
  c ∈ established_connections self /\ usable self c = true.
Proof.
  induction tries as [|tries IH]; intros rnd rnd' c; simpl; [discriminate|].
  destruct rnd as [|r rnd0]; [discriminate|].
  destruct (random_choice _ r) as [a|e] eqn:E; [|discriminate].
  destruct (usable self a) eqn:U.
  - intros [= <- <-]. split; [eapply random_choice_elem, E | exact U].
  - apply IH.
Qed.

Lemma pick_connection_spec self rnd rnd' c :
  _pick_connection self rnd = Some (Return c, rnd') ->
  c ∈ established_connections self /\ usable self c = true.
Proof. apply pick_connection_loop_spec. Qed.

(** What [_pick_multiple_connections] returns: as many connections as
    asked for, no one twice, every one connected with a positive score. *)
Lemma pick_multiple_loop_spec self howmany fuel :
  forall i connections rnd rnd' servers,
    NoDup connections ->
    Forall (fun c => usable self c = true) connections ->
    pick_multiple_loop self howmany fuel i connections rnd
    = Some (Return servers, rnd') ->
    NoDup servers
    /\ Forall (fun c => usable self c = true) servers
    /\ Z.of_nat (length servers) = howmany.
Proof.
  induction fuel as [|fuel IH]; intros i connections rnd rnd' servers Hnd Hus;
    simpl; [discriminate|].
  destruct (_pick_connection self rnd) as [[[c|e] rnd0]|] eqn:E;
    [|discriminate..].
  apply pick_connection_spec in E as [_ Hc].
  case_bool_decide as Hin; [apply IH; assumption|].
  assert (NoDup (connections ++ [c])) as Hnd'.
  { apply NoDup_app. split; [assumption|]. split.
    - intros x Hx Hx'. apply list_elem_of_singleton in Hx'. congruence.
    - apply NoDup_singleton. }
  assert (Forall (fun c => usable self c = true) (connections ++ [c])) as Hus'.
  { apply Forall_app. split; [assumption|]. constructor; [assumption|constructor]. }
  destruct (Z.of_nat (length (connections ++ [c])) =? howmany) eqn:Hlen.
  - intros [= <- <-]. apply Z.eqb_eq in Hlen. auto.
  - destruct (100 <? i); [discriminate|]. apply IH; assumption.
Qed.

Lemma pick_multiple_connections_spec self howmany rnd rnd' servers :
  _pick_multiple_connections self howmany rnd = Some (Return servers, rnd') ->
  NoDup servers
  /\ Forall (fun c => usable self c = true) servers
  /\ Z.of_nat (length servers) = howmany.
Proof.
  apply pick_multiple_loop_spec; [apply NoDup_nil_2 | constructor].
Qed.

(** The agreement rule of [_handle_responses], on two responses or more:
    the response returned is one of the responses, equal to all of them;
    with no such response the exception carries the responses. *)
Lemma first_unanimous_spec (all : list R) : forall responses r,
  first_unanimous responses all = Some r ->
  In r responses /\ count all r = length all.
Proof.
  induction responses as [|x responses IH]; intros r; simpl; [discriminate|].
  destruct (count all x =? length all)%nat eqn:E.
  - intros [= <-]. apply Nat.eqb_eq in E. auto.
  - intros Hr. apply IH in Hr as [? ?]. auto.
Qed.

Lemma first_unanimous_none (all : list R) : forall responses,
  first_unanimous responses all = None ->
  forall r, In r responses -> count all r <> length all.
Proof.
  induction responses as [|x responses IH]; simpl; [tauto|].
  destruct (count all x =? length all)%nat eqn:E; [discriminate|].
  intros Hn r [<-|Hr]; [apply Nat.eqb_neq, E | apply IH; assumption].
Qed.

Lemma handle_responses_rule (responses : list R) :
  (1 < length responses)%nat ->
  (forall r, _handle_responses responses = Return r ->
             In r responses /\ count responses r = length responses)
  /\ ((forall r, In r responses -> count responses r <> length responses) ->
      _handle_responses responses
      = Raise (NoQuorumOnResponsesException responses))
  /\ (forall r, In r responses -> count responses r = length responses ->
                exists r', _handle_responses responses = Return r').
Proof.
  intros Hlen. unfold _handle_responses.
  destruct responses as [|a [|b rest]]; simpl in Hlen; try lia.
  set (all := a :: b :: rest) in *.
  destruct (first_unanimous all all) as [r0|] eqn:E.
  - split; [|split].
    + intros r [= <-]. eapply first_unanimous_spec, E.
    + intros Hno. apply first_unanimous_spec in E as [Hin Hc].
      exfalso. eapply Hno; eassumption.
    + eauto.
  - split; [|split].
    + discriminate.
    + reflexivity.
    + intros r Hin Hc. exfalso.
      eapply first_unanimous_none; eassumption.
Qed.

End PoolCalls.

Section PoolClaims.
Context {R : Type} `{PyObject R}.
Import Electrod.

Variable await_generator
  : list (result exn (option R)) -> result (pool_exn R) (option R).

Implicit Types (self : ElectrodConnectionPool R) (rnd : list nat).

(** C9.  With [agreement=1], whenever a connection is picked, the call
    raises the missing-response exception for every falsy response: when
    [rpc_call] swallowed its exception and returned [None], when the server
    answered [None], and when it answered a value such as an empty mapping
    or an empty string.  The exception is the same in all these cases. *)
Theorem single_call_raises_on_every_falsy_response :
  forall self (get_peer : bool) rnd rnd' (rpc : nat -> result exn (option R))
         (connection : nat),
    1 <= _required_connections self ->
    _pick_connection self rnd = Some (Return connection, rnd') ->
    match rpc connection with
    | Raise _ => True
    | Return None => True
    | Return (Some response) => py_bool response = false
    end ->
    call await_generator self 1 get_peer rnd rpc
    = Some (Raise ElectrodMissingResponseException).
Proof.
  intros self get_peer rnd rnd' rpc connection Hreq Hpick Hfalsy.
  pose proof (pick_connection_spec _ _ _ _ Hpick) as [Hest _].
  destruct (established_lookup _ _ Hest) as (peer & Hpeer & _).
  assert (0 < length (established_connections self))%nat as Hlen.
  { apply list_elem_of_In in Hest.
    destruct (established_connections self); [destruct Hest | simpl; lia]. }
  unfold call. rewrite andb_false_r.
  destruct (Z.ltb_spec (_required_connections self) 1); [lia|].
  destruct (Z.ltb_spec (Z.of_nat (length (established_connections self))) 1);
    [lia|].
  change (1 <? 1) with false. cbv iota. rewrite Hpick, Hpeer.
  destruct (rpc connection) as [[response|]|e]; simpl in *;
    rewrite ?Hfalsy; reflexivity.
Qed.

(** C2, what the code does.  With [agreement > 1] the call never returns a
    response.  [asyncio.gather] is given one argument, the generator
    expression, and answers with one result for it, so that at most one
    response is collected, fewer than [agreement]: the call raises, either
    from awaiting the generator or with the missing-response exception. *)
Theorem quorum_call_never_returns :
  forall self (agreement : Z) (get_peer : bool) rnd
         (rpc : nat -> result exn (option R)) out,
    1 < agreement ->
    call await_generator self agreement get_peer rnd rpc = Some out ->
    exists e, out = Raise e.
Proof.
  intros self agreement get_peer rnd rpc out Hk. unfold call.
  destruct (get_peer && (1 <? agreement)); [intros [= <-]; eauto|].
  destruct (_required_connections self <? agreement); [intros [= <-]; eauto|].
  destruct (Z.of_nat (length (established_connections self)) <? agreement);
    [intros [= <-]; eauto|].
  destruct (Z.ltb_spec 1 agreement); [|lia].
  destruct (_pick_multiple_connections self agreement rnd)
    as [[[servers|e] rnd']|]; [|intros [= <-]; eauto|discriminate].
  intros [= <-]. simpl.
  destruct (await_generator (map rpc servers)) as [r|e]; simpl; [|eauto].
  destruct r as [r|]; cbn [not_none omap id option_bind mbind app length];
    match goal with
    | |- context [?a <? agreement] =>
        destruct (Z.ltb_spec a agreement) as [_|Hge]
    end; eauto; exfalso; simpl in Hge; lia.
Qed.

End PoolClaims.

Lemma single_call_raises_on_every_falsy_response_witness :
  Electrod.call bad_yield three_peers 1 false [0%nat] empty_answers
  = Some (Raise Electrod.ElectrodMissingResponseException)
  /\ Electrod.call bad_yield three_peers 1 false [1%nat] empty_answers
     = Some (Raise Electrod.ElectrodMissingResponseException)
  /\ Electrod.call bad_yield three_peers 1 false [2%nat] empty_answers
     = Some (Raise Electrod.ElectrodMissingResponseException).
Proof.
  split; [|split].
  - apply (single_call_raises_on_every_falsy_response bad_yield
             three_peers false [0%nat] [] empty_answers 0%nat);
      [vm_compute; discriminate | reflexivity | reflexivity].
  - apply (single_call_raises_on_every_falsy_response bad_yield
             three_peers false [1%nat] [] empty_answers 1%nat);
      [vm_compute; discriminate | reflexivity | reflexivity].
  - apply (single_call_raises_on_every_falsy_response bad_yield
             three_peers false [2%nat] [] empty_answers 2%nat);
      [vm_compute; discriminate | reflexivity | exact I].
Defined.

(** C2 at a pool of three usable peers that all answer the same header, for
    [agreement=2]: two peers are picked, their answers would pass
    [_handle_responses], and the call raises, where the claim has the header
    returned. *)
Lemma quorum_call_never_returns_witness :
  Electrod._pick_multiple_connections three_peers 2 [0%nat; 1%nat]
  = Some (Return [0%nat; 1%nat], [])
  /\ Electrod._handle_responses
       [JValue (VStr "0100000000000000"); JValue (VStr "0100000000000000")]
     = Return (JValue (VStr "0100000000000000"))
  /\ (exists e, Electrod.call bad_yield three_peers 2 false [0%nat; 1%nat] same_header
                = Some (Raise e))
  /\ (exists e, Electrod.call first_item three_peers 2 false [0%nat; 1%nat] same_header
                = Some (Raise e)).
Proof.
  split; [reflexivity|]. split; [reflexivity|]. split.
  - destruct (quorum_call_never_returns bad_yield three_peers 2 false
                [0%nat; 1%nat] same_header _ ltac:(lia) eq_refl) as [e He].
    exists e. rewrite <- He. reflexivity.
  - destruct (quorum_call_never_returns first_item three_peers 2 false
                [0%nat; 1%nat] same_header _ ltac:(lia) eq_refl) as [e He].
    exists e. rewrite <- He. reflexivity.
Defined.

(** The same calls, evaluated. *)
Example quorum_call_on_three_peers :
  Electrod.call bad_yield three_peers 2 false [0%nat; 1%nat] same_header
  = Some (Raise (Electrod.Builtin RuntimeError))
  /\ Electrod.call first_item three_peers 2 false [0%nat; 1%nat] same_header
     = Some (Raise Electrod.ElectrodMissingResponseException).
Proof. split; reflexivity. Qed.

(** ** The file cache *)

Section Strings.
Local Open Scope string_scope.

Lemma string_app_cons (x : ascii) (a b : string) :
  String x a ++ b = String x (a ++ b).
Proof. reflexivity. Qed.

Lemma string_app_nil (b : string) : EmptyString ++ b = b.
Proof. reflexivity. Qed.

Lemma string_app_assoc (a b c : string) : (a ++ b) ++ c = a ++ (b ++ c).
Proof.
  induction a as [|x a IH]; [reflexivity|].
  rewrite !string_app_cons. f_equal. exact IH.
Qed.

Lemma string_length_app (a b : string) :
  String.length (a ++ b) = (String.length a + String.length b)%nat.
Proof.
  induction a as [|x a IH]; [reflexivity|].
  rewrite string_app_cons. simpl. f_equal. exact IH.
Qed.

Lemma string_app_inv_tail (t : string) : forall a b, a ++ t = b ++ t -> a = b.
Proof.
  induction a as [|x a IH]; intros [|y b] Heq;
    rewrite ?string_app_cons, ?string_app_nil in Heq.
  - reflexivity.
  - exfalso. apply (f_equal String.length) in Heq.
    simpl in Heq. rewrite string_length_app in Heq. lia.
  - exfalso. apply (f_equal String.length) in Heq.
    simpl in Heq. rewrite string_length_app in Heq. lia.
  - injection Heq as -> Heq. f_equal. apply IH, Heq.
Qed.

(** Two strings cut at the first occurrence of [c] are cut alike. *)
Lemma string_split_at (c : ascii) : forall a a' b b',
  has_char c a = false -> has_char c a' = false ->
  a ++ String c b = a' ++ String c b' -> a = a' /\ b = b'.
Proof.
  induction a as [|x a IH]; intros [|y a'] b b' Ha Ha' Heq;
    rewrite ?string_app_cons, ?string_app_nil in Heq; simpl in Ha, Ha'.
  - injection Heq as <-. auto.
  - injection Heq as <- _. rewrite Ascii.eqb_refl in Ha'. discriminate.
  - injection Heq as -> _. rewrite Ascii.eqb_refl in Ha. discriminate.
  - injection Heq as -> Heq.
    apply orb_false_elim in Ha as [_ Ha]. apply orb_false_elim in Ha' as [_ Ha'].
    destruct (IH a' b b' Ha Ha' Heq) as [-> ->]. auto.
Qed.

End Strings.


Section StringFacts.

Lemma string_app_nil_r (a : string) : a +:+ EmptyString = a.
Proof. induction a as [|x a IH]; [reflexivity|]. rewrite string_app_cons, IH. reflexivity. Qed.

Lemma has_char_app c (a b : string) :
  has_char c (a +:+ b) = has_char c a || has_char c b.
Proof.
  induction a as [|x a IH]; [reflexivity|].
  rewrite string_app_cons. simpl. rewrite IH, orb_assoc. reflexivity.
Qed.

Lemma snoc_cases (s : string) :
  s = EmptyString \/ exists a c, s = a +:+ String c EmptyString.
Proof.
  induction s as [|x s IH]; [auto|]. right.
  destruct IH as [->|(a & c & ->)].
  - exists EmptyString, x. reflexivity.
  - exists (String x a), c. reflexivity.
Qed.

Lemma has_char_snoc c (a : string) x :
  has_char c (a +:+ String x EmptyString) = false ->
  has_char c a = false /\ Ascii.eqb x c = false.
Proof.
  rewrite has_char_app. simpl. rewrite orb_false_r.
  intros Hc. apply orb_false_elim in Hc. exact Hc.
Qed.

End StringFacts.

Section PathFacts.
Import FileSystem.

Lemma rstrip_slash_snoc (a : string) c :
  Ascii.eqb c "/" = false ->
  rstrip_slash (a +:+ String c EmptyString) = a +:+ String c EmptyString.
Proof.
  intros Hc. induction a as [|x a IH].
  - simpl. rewrite Hc. reflexivity.
  - rewrite string_app_cons. simpl. rewrite IH.
    destruct a; reflexivity.
Qed.

Lemma rstrip_slash_slash (s : string) :
  rstrip_slash (s +:+ "/") = rstrip_slash s.
Proof.
  induction s as [|x s IH]; [reflexivity|].
  rewrite string_app_cons. simpl. rewrite IH. reflexivity.
Qed.

Lemma all_slashes_app (a b : string) :
  all_slashes (a +:+ b) = all_slashes a && all_slashes b.
Proof.
  induction a as [|x a IH]; [reflexivity|].
  rewrite string_app_cons. simpl. rewrite IH, andb_assoc. reflexivity.
Qed.

Lemma all_slashes_has_char (s : string) x :
  Ascii.eqb x "/" = false -> has_char x s = true -> all_slashes s = false.
Proof.
  intros Hx. induction s as [|c s IH]; simpl; [discriminate|].
  destruct (Ascii.eqb_spec c x) as [->|_]; simpl.
  - rewrite Hx. reflexivity.
  - intros Hs. rewrite (IH Hs). apply andb_false_r.
Qed.

Lemma all_slashes_rstrip (s : string) :
  all_slashes s = true -> rstrip_slash s = EmptyString.
Proof.
  induction s as [|c s IH]; [reflexivity|]. simpl.
  intros Hs. apply andb_prop in Hs as [Hc Hs]. rewrite (IH Hs), Hc. reflexivity.
Qed.

Lemma ends_with_slash_snoc (a : string) c :
  ends_with_slash (a +:+ String c EmptyString) = Ascii.eqb c "/".
Proof.
  induction a as [|x a IH]; [reflexivity|].
  rewrite string_app_cons. simpl. rewrite IH.
  destruct a; reflexivity.
Qed.

(** A string that is not made of separators only: what [rstrip('/')] leaves
    of it ends with another character, and separators follow. *)
Lemma rstrip_slash_spec (s : string) :
  all_slashes s = false ->
  exists x c r,
    s = (x +:+ String c EmptyString) +:+ r
    /\ Ascii.eqb c "/" = false
    /\ all_slashes r = true
    /\ rstrip_slash s = x +:+ String c EmptyString.
Proof.
  induction s as [|a s IH]; [discriminate|]. simpl.
  destruct (all_slashes s) eqn:Hs.
  - rewrite andb_true_r. intros Ha.
    exists EmptyString, a, s. rewrite (all_slashes_rstrip s Hs), Ha. auto.
  - intros _. destruct (IH eq_refl) as (x & c & r & -> & Hc & Hr & Hrs).
    exists (String a x), c, r. rewrite Hrs.
    split; [reflexivity|]. split; [exact Hc|]. split; [exact Hr|].
    destruct x; reflexivity.
Qed.

Section WithDisk.
Context {V : Type}.
Implicit Types (fs : FileSystem.t V) (cur : result exn path).

Lemma walk_app fs cur n (a b : string) :
  walk fs cur n (a +:+ b)
  = walk fs (fst (walk fs cur n a)) (snd (walk fs cur n a)) b.
Proof.
  revert cur n. induction a as [|x a IH]; intros cur n; [reflexivity|].
  rewrite string_app_cons. simpl. destruct (Ascii.eqb x "/"); apply IH.
Qed.

Lemma walk_plain fs cur n (b : string) :
  has_char "/" b = false -> walk fs cur n b = (cur, n +:+ b).
Proof.
  revert n. induction b as [|x b IH]; intros n; simpl.
  - rewrite string_app_nil_r. reflexivity.
  - intros Hb. apply orb_false_elim in Hb as [Hx Hb]. rewrite Hx, (IH _ Hb).
    rewrite string_app_assoc. reflexivity.
Qed.

Lemma walk_slash fs cur n :
  walk fs cur n "/" = (p ← cur; enter fs p n, EmptyString).
Proof. reflexivity. Qed.

Lemma walk_raise fs e n (s : string) : fst (walk fs (Raise e) n s) = Raise e.
Proof.
  revert n. induction s as [|x s IH]; intros n; [reflexivity|]. simpl.
  destruct (Ascii.eqb x "/"); apply IH.
Qed.

Lemma walk_all_slashes fs p (r : string) :
  all_slashes r = true ->
  walk fs (Return p) EmptyString r = (Return p, EmptyString).
Proof.
  induction r as [|x r IH]; [reflexivity|]. simpl.
  intros Hr. apply andb_prop in Hr as [-> Hr]. simpl. apply IH, Hr.
Qed.

(** A walk that arrives finds the same way on a disk that has the
    directories of the first. *)
Definition keeps_dirs fs fs' : Prop :=
  forall p, node_at fs p = Some Dir -> node_at fs' p = Some Dir.

Lemma enter_keeps fs fs' p n q :
  keeps_dirs fs fs' -> enter fs p n = Return q -> enter fs' p n = Return q.
Proof.
  intros Hk. unfold enter.
  destruct (_ || _); [auto|]. destruct (String.eqb n ".."); [auto|].
  destruct (node_at fs (p ++ [n])) as [[|v]|] eqn:E; try discriminate.
  rewrite (Hk _ E). auto.
Qed.

Lemma walk_keeps fs fs' (s : string) :
  keeps_dirs fs fs' ->
  forall p n q,
    fst (walk fs (Return p) n s) = Return q ->
    walk fs' (Return p) n s = walk fs (Return p) n s.
Proof.
  intros Hk. induction s as [|x s IH]; intros p n q; [reflexivity|]. simpl.
  destruct (Ascii.eqb x "/"); [|apply IH].
  destruct (enter fs p n) as [p'|e] eqn:E.
  - rewrite (enter_keeps fs fs' p n p' Hk E). apply IH.
  - rewrite walk_raise. discriminate.
Qed.

Lemma start_app fs (a b : string) :
  a <> EmptyString -> start fs (a +:+ b) = start fs a.
Proof. destruct a as [|x a]; [contradiction|]. reflexivity. Qed.

(** [cut] and [walk] read a path alike. *)
Lemma cut_walk fs cur0 (s : string) :
  forall (h n : string) cur,
    has_char "/" n = false ->
    walk fs cur0 EmptyString h = (cur, EmptyString) ->
    has_char "/" (snd (cut h n s)) = false
    /\ fst (cut h n s) +:+ snd (cut h n s) = h +:+ n +:+ s
    /\ walk fs cur n s
       = (fst (walk fs cur0 EmptyString (fst (cut h n s))), snd (cut h n s))
    /\ snd (walk fs cur0 EmptyString (fst (cut h n s))) = EmptyString.
Proof.
  induction s as [|x s IH]; intros h n cur Hn Hh.
  - simpl. rewrite Hh, string_app_nil_r. auto.
  - simpl. destruct (Ascii.eqb_spec x "/") as [->|Hx].
    + destruct (IH (h +:+ n +:+ "/") EmptyString (p ← cur; enter fs p n))
        as (H1 & H2 & H3 & H4); [reflexivity| |].
      { rewrite walk_app, Hh. cbn [fst snd].
        rewrite walk_app, (walk_plain _ _ _ _ Hn). cbn [fst snd]. reflexivity. }
      split; [exact H1|]. split; [|split; [exact H3|exact H4]].
      rewrite H2. rewrite !string_app_assoc. reflexivity.
    + destruct (IH h (n +:+ String x EmptyString) cur) as (H1 & H2 & H3 & H4).
      { rewrite has_char_app, Hn. simpl. rewrite orb_false_r.
        apply Ascii.eqb_neq, Hx. }
      { exact Hh. }
      split; [exact H1|]. split; [|split; [exact H3|exact H4]].
      rewrite H2. rewrite !string_app_assoc. reflexivity.
Qed.

Lemma cut_app (a b : string) h n :
  cut h n (a +:+ b) = cut (fst (cut h n a)) (snd (cut h n a)) b.
Proof.
  revert h n. induction a as [|x a IH]; intros h n; [reflexivity|].
  rewrite string_app_cons. simpl. destruct (Ascii.eqb x "/"); apply IH.
Qed.

Lemma cut_plain (b : string) h n :
  has_char "/" b = false -> cut h n b = (h, n +:+ b).
Proof.
  revert n. induction b as [|x b IH]; intros n; simpl.
  - rewrite string_app_nil_r. reflexivity.
  - intros Hb. apply orb_false_elim in Hb as [Hx Hb]. rewrite Hx, (IH _ Hb).
    rewrite string_app_assoc. reflexivity.
Qed.

End WithDisk.
End PathFacts.

Section Resolve.
Import FileSystem.
Context {V : Type}.
Implicit Types (fs : FileSystem.t V).

Lemma keeps_dirs_refl fs : keeps_dirs fs fs.
Proof. intros p Hp. exact Hp. Qed.

Lemma keeps_dirs_trans fs1 fs2 fs3 :
  keeps_dirs fs1 fs2 -> keeps_dirs fs2 fs3 -> keeps_dirs fs1 fs3.
Proof. intros H12 H23 p Hp. apply H23, H12, Hp. Qed.

Lemma snoc_not_nil {A} (l : list A) (a : A) : l ++ [a] <> [].
Proof. destruct l; discriminate. Qed.

Lemma node_at_snoc fs (p : path) (x : string) :
  node_at fs (p ++ [x]) = nodes fs !! (p ++ [x]).
Proof. unfold node_at. destruct (p ++ [x]) eqn:E; [|reflexivity]. destruct p; discriminate. Qed.

Lemma node_at_put fs (P : path) (n : node V) (q : path) :
  P <> [] ->
  node_at (put fs P n) q = if decide (q = P) then Some n else node_at fs q.
Proof.
  intros HP. destruct (decide (q = P)) as [->|Hne].
  - unfold node_at, put. destruct P; [contradiction|]. cbn [nodes].
    apply lookup_insert_eq.
  - unfold node_at, put. destruct q; [reflexivity|]. cbn [nodes].
    apply lookup_insert_ne. congruence.
Qed.

Lemma put_keeps_dirs fs (P : path) (n : node V) :
  P <> [] -> node_at fs P <> Some Dir -> keeps_dirs fs (put fs P n).
Proof.
  intros HP Hn q Hq. rewrite node_at_put by exact HP.
  destruct (decide (q = P)) as [->|_]; [contradiction | exact Hq].
Qed.

(** What [os.stat] finds at the end of a path whose parent is found. *)
Definition found fs (cur : path) (name : string) : result exn (node V) :=
  if special name then Return Dir
  else match node_at fs (cur ++ [name]) with
       | Some n => Return n
       | None => Raise FileNotFoundError
       end.

Lemma parent_of_keeps fs fs' (s : string) r :
  keeps_dirs fs fs' -> cwd fs' = cwd fs ->
  parent_of fs s = Return r -> parent_of fs' s = Return r.
Proof.
  intros Hk Hcwd. unfold parent_of.
  destruct (has_char "000" s); [discriminate|].
  destruct s as [|x s]; [discriminate|].
  assert (start fs' (String x s) = start fs (String x s)) as ->.
  { unfold start. rewrite Hcwd. reflexivity. }
  destruct (walk fs (Return (start fs (String x s))) EmptyString (String x s))
    as [c n] eqn:E.
  destruct c as [p|e]; [|discriminate].
  rewrite (walk_keeps fs fs' _ Hk _ _ p) by (rewrite E; reflexivity).
  rewrite E. auto.
Qed.

(** The path [d] is found up to its last name: the walk arrives in [cur]
    with the name [t] in hand. *)
Definition leads fs (d : string) (cur : path) (t : string) : Prop :=
  d <> EmptyString
  /\ has_char "000" d = false
  /\ walk fs (Return (start fs d)) EmptyString d = (Return cur, t).

Lemma stat_leads fs (d : string) n :
  stat fs d = Return n ->
  exists cur t, leads fs d cur t /\ found fs cur t = Return n.
Proof.
  unfold stat, parent_of, leads, found.
  destruct (has_char "000" d) eqn:Hnul; [discriminate|].
  destruct d as [|x d]; [discriminate|].
  destruct (walk fs _ _ _) as [[p|e] t] eqn:E; [|discriminate].
  simpl. intros Hn. exists p, t. repeat split; [discriminate|exact Hn].
Qed.

Lemma leads_keeps fs fs' d cur t :
  keeps_dirs fs fs' -> cwd fs' = cwd fs -> leads fs d cur t -> leads fs' d cur t.
Proof.
  intros Hk Hcwd (Hd & Hnul & Hw). repeat split; [exact Hd|exact Hnul|].
  assert (start fs' d = start fs d) as ->.
  { unfold start. rewrite Hcwd. reflexivity. }
  rewrite (walk_keeps fs fs' _ Hk _ _ cur) by (rewrite Hw; reflexivity).
  exact Hw.
Qed.

Lemma parent_of_below fs d cur t (b : string) :
  leads fs d cur t ->
  has_char "000" b = false ->
  parent_of fs (d +:+ b)
  = (p ← fst (walk fs (Return cur) t b); Return (p, snd (walk fs (Return cur) t b))).
Proof.
  intros (Hd & Hnul & Hw) Hb. unfold parent_of.
  rewrite has_char_app, Hnul, Hb. cbn [orb].
  rewrite start_app by exact Hd.
  destruct d as [|x d]; [contradiction|]. rewrite string_app_cons.
  rewrite <- string_app_cons, walk_app, Hw. cbn [fst snd].
  destruct (walk fs (Return cur) t b) as [c n]. reflexivity.
Qed.

Lemma walk_entry fs cur t (k2 name : string) :
  has_char "/" k2 = false -> has_char "/" name = false ->
  walk fs (Return cur) t (k2 +:+ "/" +:+ name)
  = (enter fs cur (t +:+ k2), name).
Proof.
  intros Hk Hn. rewrite walk_app, (walk_plain _ _ _ _ Hk). cbn [fst snd].
  rewrite walk_app, walk_slash. cbn [fst snd].
  rewrite (walk_plain _ _ _ _ Hn). reflexivity.
Qed.

Lemma walk_prefix_dir fs cur t (k2 : string) :
  has_char "/" k2 = false ->
  walk fs (Return cur) t (k2 +:+ "/") = (enter fs cur (t +:+ k2), EmptyString).
Proof.
  intros Hk. rewrite walk_app, (walk_plain _ _ _ _ Hk). reflexivity.
Qed.

End Resolve.

Section MakeDirs.
Import FileSystem.
Context {V : Type}.
Implicit Types (fs : FileSystem.t V).

Lemma makedirs_loop_unfold fuel fs (name : string) :
  makedirs_loop (S fuel) fs name =
  (let '(head, tail) := psplit name in
   let '(head, tail) := if is_empty tail then psplit head else (head, tail) in
   let descend := negb (is_empty head) && negb (is_empty tail)
                  && negb (exists_ fs head) in
   let '(fs1, failed) :=
     if descend
     then match makedirs_loop fuel fs head with
          | (fs1, Some FileExistsError) => (fs1, None)
          | r => r
          end
     else (fs, None) in
   match failed with
   | Some e => (fs1, Some e)
   | None =>
       if descend && String.eqb tail "." then (fs1, None)
       else match mkdir fs1 name with
            | Return fs2 => (fs2, None)
            | Raise e => (fs1, Some e)
            end
   end).
Proof. reflexivity. Qed.

Lemma or_else_nonempty (s x : string) :
  s <> EmptyString ->
  match s with
  | EmptyString => x
  | String a0 s0 => String a0 s0
  end = s.
Proof. destruct s; [contradiction|reflexivity]. Qed.

Lemma is_empty_app_snoc (a b : string) c :
  is_empty (a +:+ b +:+ String c EmptyString) = false.
Proof. destruct a; [destruct b|]; reflexivity. Qed.

Lemma walk_slashes_return fs c (r : string) p :
  all_slashes r = true ->
  fst (walk fs c EmptyString r) = Return p -> c = Return p.
Proof.
  intros Hr. destruct c as [q|e].
  - rewrite (walk_all_slashes fs q r Hr). auto.
  - rewrite walk_raise. discriminate.
Qed.

(** The head of a path that is found is found. *)
Lemma head_exists fs (d h t : string) cur :
  leads fs d cur t ->
  d = h +:+ t ->
  fst (walk fs (Return (start fs d)) EmptyString h) = Return cur ->
  snd (walk fs (Return (start fs d)) EmptyString h) = EmptyString ->
  h <> EmptyString ->
  exists_ fs (if all_slashes h then h else rstrip_slash h) = true.
Proof.
  intros (Hd & Hnul & Hw) Hdh Hh1 Hh2 Hne.
  assert (has_char "000" h = false) as Hnulh.
  { rewrite Hdh, has_char_app in Hnul. apply orb_false_elim in Hnul. tauto. }
  assert (start fs h = start fs d) as Hst.
  { rewrite Hdh. symmetry. apply start_app, Hne. }
  destruct (all_slashes h) eqn:Hall.
  - unfold exists_, stat, parent_of. rewrite Hnulh, Hst.
    destruct h as [|x h]; [contradiction|].
    destruct (walk fs _ _ (String x h)) as [c n]. cbn [fst snd] in *. subst.
    reflexivity.
  - destruct (rstrip_slash_spec h Hall) as (x & c & r & Hh & Hc & Hr & ->).
    rewrite Hh, walk_app in Hh1, Hh2.
    destruct (walk fs (Return (start fs d)) EmptyString (x +:+ String c EmptyString))
      as [c0 n0] eqn:E0.
    cbn [fst snd] in Hh1, Hh2.
    assert (exists n', n0 = n' +:+ String c EmptyString) as [n' ->].
    { rewrite walk_app in E0.
      destruct (walk fs (Return (start fs d)) EmptyString x) as [c1 n1].
      cbn [fst snd walk] in E0. rewrite Hc in E0. injection E0 as _ <-. eauto. }
    destruct r as [|y r].
    { cbn in Hh2. destruct n'; discriminate. }
    cbn [all_slashes] in Hr. apply andb_prop in Hr as [Hy Hr].
    cbn [walk] in Hh1. rewrite Hy in Hh1.
    apply walk_slashes_return in Hh1; [|exact Hr].
    destruct c0 as [p0|e]; [|discriminate]. cbn in Hh1.
    assert (has_char "000" (x +:+ String c EmptyString) = false) as Hnulx.
    { rewrite Hh, has_char_app in Hnulh. apply orb_false_elim in Hnulh. tauto. }
    assert (start fs (x +:+ String c EmptyString) = start fs d) as Hstx.
    { rewrite <- Hst, Hh. symmetry. apply start_app. destruct x; discriminate. }
    unfold exists_, stat, parent_of. rewrite Hnulx, Hstx.
    destruct (x +:+ String c EmptyString) as [|z s] eqn:Ex.
    { destruct x; discriminate. }
    rewrite E0. cbn [mbind result_bind bind mret result_ret].
    unfold enter in Hh1. unfold special.
    destruct (String.eqb (n' +:+ String c EmptyString) EmptyString
              || String.eqb (n' +:+ String c EmptyString) ".") eqn:E1.
    + cbn [orb]. reflexivity.
    + destruct (String.eqb (n' +:+ String c EmptyString) "..") eqn:E2.
      * rewrite orb_true_r. reflexivity.
      * cbn [orb].
        destruct (node_at fs (p0 ++ [n' +:+ String c EmptyString])) as [[|v]|];
          try discriminate; reflexivity.
Qed.

(** [os.makedirs] of a name right below a path that is found makes that
    one directory. *)
Lemma makedirs_leaf fs (d : string) cur t (a : string) c :
  leads fs d cur t ->
  has_char "/" (a +:+ String c EmptyString) = false ->
  has_char "000" (a +:+ String c EmptyString) = false ->
  special (t +:+ a +:+ String c EmptyString) = false ->
  makedirs fs (d +:+ (a +:+ String c EmptyString) +:+ "/")
  = match node_at fs (cur ++ [t +:+ a +:+ String c EmptyString]) with
    | Some _ => Raise FileExistsError
    | None => Return (put fs (cur ++ [t +:+ a +:+ String c EmptyString]) Dir)
    end.
Proof.
  intros Hl Hk Hknul Hsp. set (k2 := a +:+ String c EmptyString) in *.
  pose proof Hl as (Hd & Hnul & Hw).
  pose proof (has_char_snoc _ _ _ Hk) as [_ Hc].
  destruct (cut_walk fs (Return (start fs d)) d EmptyString EmptyString
              (Return (start fs d)) eq_refl eq_refl) as (Ht & Hht & Hwc & Hwh).
  destruct (cut EmptyString EmptyString d) as [h t'] eqn:Ecut.
  cbn [fst snd] in Ht, Hht, Hwc, Hwh. rewrite !string_app_nil in Hht.
  rewrite Hw in Hwc. injection Hwc as Hcur <-. symmetry in Hcur.
  assert (cut EmptyString EmptyString (d +:+ k2) = (h, t +:+ k2)) as Ecut2.
  { rewrite cut_app, Ecut. cbn [fst snd]. apply cut_plain, Hk. }
  assert (cut EmptyString EmptyString (d +:+ k2 +:+ "/")
          = ((d +:+ k2) +:+ "/", EmptyString)) as Ecut3.
  { rewrite <- string_app_assoc, cut_app, Ecut2. cbn [fst snd cut].
    change (Ascii.eqb "/" "/") with true. cbn iota.
    rewrite <- Hht. rewrite !string_app_assoc. reflexivity. }
  assert (psplit (d +:+ k2 +:+ "/") = (d +:+ k2, EmptyString)) as Esplit1.
  { unfold psplit. rewrite Ecut3.
    assert (all_slashes ((d +:+ k2) +:+ "/") = false) as ->.
    { apply (all_slashes_has_char _ c Hc).
      rewrite !has_char_app. subst k2. rewrite has_char_app. simpl.
      rewrite Ascii.eqb_refl. rewrite !orb_true_r. reflexivity. }
    rewrite rstrip_slash_slash. subst k2. rewrite <- string_app_assoc.
    rewrite rstrip_slash_snoc by exact Hc. reflexivity. }
  assert (psplit (d +:+ k2)
          = (if all_slashes h then h else rstrip_slash h, t +:+ k2)) as Esplit2.
  { unfold psplit. rewrite Ecut2. reflexivity. }
  assert (parent_of fs (d +:+ k2) = Return (cur, t +:+ k2)) as Eparent.
  { rewrite (parent_of_below fs d cur t k2 Hl Hknul).
    rewrite (walk_plain _ _ _ _ Hk). reflexivity. }
  unfold makedirs. rewrite makedirs_loop_unfold.
  rewrite Esplit1. cbn [is_empty]. rewrite Esplit2.
  assert (is_empty (t +:+ k2) = false) as ->.
  { subst k2. apply is_empty_app_snoc. }
  assert (negb (is_empty (if all_slashes h then h else rstrip_slash h))
          && negb false
          && negb (exists_ fs (if all_slashes h then h else rstrip_slash h))
          = false) as ->.
  { destruct h as [|x h'] eqn:Eh; [reflexivity|].
    assert (exists_ fs (if all_slashes (String x h') then String x h'
                        else rstrip_slash (String x h')) = true) as Hex.
    { apply (head_exists fs d (String x h') t cur Hl);
        [symmetry; exact Hht | exact Hcur | exact Hwh | discriminate]. }
    rewrite Hex. apply andb_false_r. }
  cbn [andb]. unfold mkdir.
  rewrite <- (string_app_assoc d k2), rstrip_slash_slash. subst k2. rewrite <- (string_app_assoc d a).
  rewrite rstrip_slash_snoc by exact Hc. rewrite (string_app_assoc d a).
  rewrite or_else_nonempty by (destruct d; [contradiction|discriminate]).
  rewrite Eparent. cbn [mbind result_bind bind mret result_ret].
  rewrite Hsp.
  destruct (node_at fs (cur ++ [t +:+ a +:+ String c EmptyString])); reflexivity.
Qed.

End MakeDirs.

Section Names.
Import FileSystem FileCacheInterface.

Lemma alnum_char (c : ascii) :
  alnum c = true ->
  Ascii.eqb c "/" = false /\ Ascii.eqb c "." = false
  /\ Ascii.eqb c "000" = false /\ continuation c = false.
Proof.
  destruct c as [[] [] [] [] [] [] [] []]; vm_compute; intros Hc;
    try discriminate Hc; repeat split.
Qed.

Lemma alnum_string_app (a b : string) :
  alnum_string (a +:+ b) = alnum_string a && alnum_string b.
Proof.
  induction a as [|x a IH]; [reflexivity|].
  rewrite string_app_cons. simpl. rewrite IH, andb_assoc. reflexivity.
Qed.

Lemma alnum_no_slash (s : string) : alnum_string s = true -> has_char "/" s = false.
Proof.
  induction s as [|x s IH]; [reflexivity|]. simpl.
  intros Hs. apply andb_prop in Hs as [Hx Hs].
  destruct (alnum_char x Hx) as (-> & _). simpl. apply IH, Hs.
Qed.

Lemma alnum_no_dot (s : string) : alnum_string s = true -> has_char "." s = false.
Proof.
  induction s as [|x s IH]; [reflexivity|]. simpl.
  intros Hs. apply andb_prop in Hs as [Hx Hs].
  destruct (alnum_char x Hx) as (_ & -> & _). simpl. apply IH, Hs.
Qed.

Lemma alnum_no_nul (s : string) : alnum_string s = true -> has_char "000" s = false.
Proof.
  induction s as [|x s IH]; [reflexivity|]. simpl.
  intros Hs. apply andb_prop in Hs as [Hx Hs].
  destruct (alnum_char x Hx) as (_ & _ & -> & _). simpl. apply IH, Hs.
Qed.

Lemma alnum_lstrip0 (s : string) :
  alnum_string s = true -> alnum_string (lstrip0 s) = true.
Proof.
  induction s as [|x s IH]; [reflexivity|]. intros Hs. simpl.
  destruct (Ascii.eqb x "0"); [|exact Hs].
  simpl in Hs. apply andb_prop in Hs as [_ Hs]. apply IH, Hs.
Qed.

Lemma alnum_take_points (n : nat) : forall s : string,
  alnum_string s = true ->
  alnum_string (take_points n s) = true
  /\ (String.length (take_points n s) <= n)%nat.
Proof.
  induction n as [|n IH]; intros [|x s]; simpl; try (split; [reflexivity|lia]);
    intros Hs; apply andb_prop in Hs as [Hx Hs];
    destruct (alnum_char x Hx) as (_ & _ & _ & ->).
  - split; [reflexivity|simpl; lia].
  - destruct (IH s Hs) as [H1 H2]. simpl. rewrite Hx, H1. split; [reflexivity|lia].
Qed.

Lemma alnum_prefix (key : string) :
  alnum_string key = true ->
  alnum_string (take2 (lstrip0 key)) = true
  /\ (String.length (take2 (lstrip0 key)) <= 2)%nat.
Proof. intros Hk. apply alnum_take_points, alnum_lstrip0, Hk. Qed.

Lemma special_length (n : string) : special n = true -> (String.length n <= 2)%nat.
Proof.
  unfold special. intros Hn.
  apply orb_prop in Hn as [Hn|Hn]; [apply orb_prop in Hn as [Hn|Hn]|];
    apply String.eqb_eq in Hn; subst; simpl; lia.
Qed.

Lemma special_alnum_snoc (t a : string) c :
  alnum c = true -> special (t +:+ a +:+ String c EmptyString) = false.
Proof.
  intros Hc. destruct (alnum_char c Hc) as (_ & Hdot & _).
  destruct (special _) eqn:Hsp; [|reflexivity]. exfalso.
  rewrite <- string_app_assoc in Hsp. set (x := t +:+ a) in *.
  unfold special in Hsp.
  apply orb_prop in Hsp as [Hsp|Hsp]; [apply orb_prop in Hsp as [Hsp|Hsp]|];
    apply String.eqb_eq in Hsp.
  - destruct x; discriminate.
  - destruct x as [|y [|z x]]; simpl in Hsp; try discriminate.
    injection Hsp as ->. discriminate.
  - destruct x as [|y [|z [|w x]]]; simpl in Hsp; try discriminate.
    injection Hsp as _ ->. discriminate.
Qed.

Lemma file_unfold (d ns key : string) :
  file d ns key = d +:+ take2 (lstrip0 key) +:+ "/" +:+ entry_name ns key.
Proof.
  unfold file, prefix, entry_name. cbn [join_dot].
  rewrite !string_app_assoc. reflexivity.
Qed.

Lemma entry_name_length (ns key : string) :
  (5 <= String.length (entry_name ns key))%nat.
Proof. unfold entry_name. rewrite !string_length_app. simpl. lia. Qed.

Lemma entry_name_not_special (ns key : string) : special (entry_name ns key) = false.
Proof.
  destruct (special _) eqn:E; [|reflexivity].
  apply special_length in E. pose proof (entry_name_length ns key). lia.
Qed.

Lemma entry_name_no_slash (ns key : string) :
  well_named ns key -> has_char "/" (entry_name ns key) = false.
Proof.
  intros [Hns Hkey]. unfold entry_name. rewrite !has_char_app.
  rewrite (alnum_no_slash _ Hns), (alnum_no_slash _ Hkey). reflexivity.
Qed.

Lemma entry_name_no_nul (ns key : string) :
  well_named ns key -> has_char "000" (entry_name ns key) = false.
Proof.
  intros [Hns Hkey]. unfold entry_name. rewrite !has_char_app.
  rewrite (alnum_no_nul _ Hns), (alnum_no_nul _ Hkey). reflexivity.
Qed.

Lemma entry_name_inj (ns key ns' key' : string) :
  well_named ns key -> well_named ns' key' ->
  entry_name ns key = entry_name ns' key' -> ns = ns' /\ key = key'.
Proof.
  intros [Hns _] [Hns' _] Heq. unfold entry_name in Heq.
  apply string_split_at in Heq as [-> Heq]; [|now apply alnum_no_dot..].
  apply string_app_inv_tail in Heq. auto.
Qed.

Lemma file_not_dir_like (d ns key : string) :
  ends_with_slash (file d ns key) = false.
Proof.
  unfold file.
  change ".bin"%string with (".bi" +:+ String "n" EmptyString).
  rewrite <- !string_app_assoc. apply ends_with_slash_snoc.
Qed.

End Names.

Section DiskFacts.
Import FileSystem.
Context {V : Type}.
Implicit Types (fs : FileSystem.t V).

Lemma wf_empty : wf (empty_disk (V := V)).
Proof.
  split; [|reflexivity]. intros p x n Hn. simpl in Hn.
  rewrite lookup_empty in Hn. discriminate.
Qed.

Lemma parent_dir fs (p : path) :
  wf fs -> node_at fs p = Some Dir -> node_at fs (removelast p) = Some Dir.
Proof.
  intros [Hwf _] Hp. destruct p as [|x q _] using rev_ind; [reflexivity|].
  rewrite removelast_last. rewrite node_at_snoc in Hp. eapply Hwf, Hp.
Qed.

Lemma enter_dir fs (p : path) (n : string) q :
  wf fs -> node_at fs p = Some Dir -> enter fs p n = Return q ->
  node_at fs q = Some Dir.
Proof.
  intros Hwf Hp. unfold enter.
  destruct (_ || _); [intros [= <-]; exact Hp|].
  destruct (String.eqb n ".."); [intros [= <-]; apply parent_dir; assumption|].
  destruct (node_at fs (p ++ [n])) as [[|v]|] eqn:E; try discriminate.
  intros [= <-]. exact E.
Qed.

Lemma walk_dir fs (s : string) :
  wf fs ->
  forall (p : path) (n : string) q,
    node_at fs p = Some Dir ->
    fst (walk fs (Return p) n s) = Return q -> node_at fs q = Some Dir.
Proof.
  intros Hwf. induction s as [|x s IH]; intros p n q Hp; simpl.
  - intros [= <-]. exact Hp.
  - destruct (Ascii.eqb x "/"); [|apply IH, Hp].
    destruct (enter fs p n) as [p'|e] eqn:E.
    + apply IH. eapply enter_dir; eauto.
    + rewrite walk_raise. discriminate.
Qed.

Lemma start_dir fs (s : string) : wf fs -> node_at fs (start fs s) = Some Dir.
Proof.
  intros [_ Hcwd]. unfold start.
  destruct s as [|c s]; [exact Hcwd|].
  destruct (Ascii.ascii_dec c "/") as [->|Hc]; [reflexivity|].
  destruct c as [[] [] [] [] [] [] [] []]; try exact Hcwd. contradiction.
Qed.

Lemma leads_dir fs (d : string) cur t :
  wf fs -> leads fs d cur t -> node_at fs cur = Some Dir.
Proof.
  intros Hwf (_ & _ & Hw).
  apply (walk_dir fs d Hwf (start fs d) EmptyString cur (start_dir fs d Hwf)).
  rewrite Hw. reflexivity.
Qed.

(** Putting a node below a directory, where no directory stands, leaves a
    tree. *)
Lemma put_wf fs (p : path) (x : string) (n : node V) :
  wf fs -> node_at fs p = Some Dir -> node_at fs (p ++ [x]) <> Some Dir ->
  wf (put fs (p ++ [x]) n).
Proof.
  intros [Hwf Hcwd] Hp Hn.
  pose proof (put_keeps_dirs fs (p ++ [x]) n (snoc_not_nil _ _) Hn) as Hk.
  split.
  - intros q y m Hm. cbn [put nodes] in Hm.
    destruct (decide (q ++ [y] = p ++ [x])) as [Heq|Hne].
    + apply app_inj_tail in Heq as [-> _]. apply Hk, Hp.
    + rewrite lookup_insert_ne in Hm by congruence. apply Hk. eapply Hwf, Hm.
  - cbn [put cwd]. apply Hk, Hcwd.
Qed.

Lemma write_file_spec fs (s : string) v fs' :
  write_file fs s v = Return fs' ->
  exists (p : path) (name : string),
    parent_of fs s = Return (p, name)
    /\ special name = false
    /\ node_at fs (p ++ [name]) <> Some Dir
    /\ fs' = put fs (p ++ [name]) (File v).
Proof.
  unfold write_file. destruct (ends_with_slash s) eqn:Hs.
  - destruct (parent_of fs _) as [[p name]|e]; discriminate.
  - destruct (parent_of fs s) as [[p name]|e] eqn:E; [|discriminate].
    cbn [mbind result_bind bind orb].
    destruct (special name) eqn:Hsp; [discriminate|].
    destruct (node_at fs (p ++ [name])) as [[|w]|] eqn:En; try discriminate;
      intros [= <-]; exists p, name; repeat split; congruence.
Qed.

Lemma read_put fs (s : string) (p : path) (name : string) v :
  parent_of fs s = Return (p, name) ->
  special name = false ->
  node_at fs (p ++ [name]) <> Some Dir ->
  read_file (put fs (p ++ [name]) (File v)) s = Return v.
Proof.
  intros Hp Hsp Hn. unfold read_file.
  rewrite (parent_of_keeps fs _ s (p, name)); [| |reflexivity|exact Hp].
  - cbn [mbind result_bind bind]. rewrite Hsp.
    rewrite node_at_put by apply snoc_not_nil.
    rewrite decide_True by reflexivity. reflexivity.
  - apply put_keeps_dirs; [apply snoc_not_nil | exact Hn].
Qed.

(** What is written is what is read at the same path. *)
Lemma read_after_write fs (s : string) v fs' :
  write_file fs s v = Return fs' -> read_file fs' s = Return v.
Proof.
  intros Hw. apply write_file_spec in Hw as (p & name & Hp & Hsp & Hn & ->).
  apply read_put; assumption.
Qed.

End DiskFacts.

Section CacheFacts.
Import FileSystem FileCacheInterface.
Context {V : Type}.
Implicit Types (self : FileCacheInterface.t V) (fs : FileSystem.t V).

Lemma set_inv self (ns key : string) (v : V) self' :
  set self ns key v None = Return self' ->
  exists fs1,
    (if exists_ (disk self) (directory self +:+ prefix key)
     then Return (disk self)
     else makedirs (disk self) (directory self +:+ prefix key)) = Return fs1
    /\ write_file fs1 (file (directory self) ns key) v = Return (disk self')
    /\ directory self' = directory self.
Proof.
  unfold set. cbn [truthy].
  destruct (if exists_ _ _ then _ else _) as [fs1|e] eqn:E1; [|discriminate].
  cbn [mbind result_bind bind].
  destruct (write_file fs1 _ v) as [fs2|e] eqn:E2; [|discriminate].
  cbn [mbind result_bind bind mret result_ret].
  intros [= <-]. exists fs1. split; [reflexivity|]. split; [exact E2|reflexivity].
Qed.

Lemma get_after_set self (ns key : string) (v : V) self' :
  set self ns key v None = Return self' ->
  read_file (disk self') (file (directory self) ns key) = Return v
  /\ get self' ns key = Return (Some v).
Proof.
  intros Hset. apply set_inv in Hset as (fs1 & _ & Hw & Hd).
  apply read_after_write in Hw. split; [exact Hw|].
  unfold get. rewrite Hd, Hw. reflexivity.
Qed.

(** Reading the file of an entry, once the directory of the cache is
    found: the prefix is entered, the name looked up. *)
Definition read_at fs (cur : path) (x name : string) : result exn V :=
  p ← enter fs cur x;
  match node_at fs (p ++ [name]) with
  | Some (File v) => Return v
  | Some Dir => Raise IsADirectoryError
  | None => Raise FileNotFoundError
  end.

Lemma entry_path_no_nul (ns key : string) :
  well_named ns key ->
  has_char "000" (take2 (lstrip0 key) +:+ "/" +:+ entry_name ns key) = false.
Proof.
  intros Hwn. rewrite !has_char_app, (entry_name_no_nul _ _ Hwn).
  destruct Hwn as [_ Hkey]. destruct (alnum_prefix key Hkey) as [Hk _].
  rewrite (alnum_no_nul _ Hk). reflexivity.
Qed.

Lemma parent_of_entry fs (d : string) cur t (ns key : string) :
  leads fs d cur t -> well_named ns key ->
  parent_of fs (file d ns key)
  = (p ← enter fs cur (t +:+ take2 (lstrip0 key)); Return (p, entry_name ns key)).
Proof.
  intros Hl Hwn. rewrite file_unfold.
  rewrite (parent_of_below fs d cur t _ Hl (entry_path_no_nul ns key Hwn)).
  rewrite walk_entry; [reflexivity| |apply entry_name_no_slash, Hwn].
  apply alnum_no_slash, alnum_prefix, Hwn.
Qed.

Lemma read_file_entry fs (d : string) cur t (ns key : string) :
  leads fs d cur t -> well_named ns key ->
  read_file fs (file d ns key)
  = read_at fs cur (t +:+ take2 (lstrip0 key)) (entry_name ns key).
Proof.
  intros Hl Hwn. unfold read_file, read_at.
  rewrite (parent_of_entry fs d cur t ns key Hl Hwn).
  destruct (enter fs cur _) as [p|e]; [|reflexivity].
  cbn [mbind result_bind bind mret result_ret].
  rewrite entry_name_not_special. reflexivity.
Qed.

Lemma exists_prefix_dir fs (d : string) cur t (key : string) :
  leads fs d cur t -> alnum_string key = true ->
  exists_ fs (d +:+ prefix key)
  = match enter fs cur (t +:+ take2 (lstrip0 key)) with
    | Return _ => true
    | Raise _ => false
    end.
Proof.
  intros Hl Hkey. destruct (alnum_prefix key Hkey) as [Hk _].
  unfold exists_, stat, prefix.
  rewrite (parent_of_below fs d cur t _ Hl).
  - rewrite walk_prefix_dir by apply alnum_no_slash, Hk. cbn [fst snd].
    destruct (enter fs cur _); reflexivity.
  - rewrite has_char_app, (alnum_no_nul _ Hk). reflexivity.
Qed.

Lemma found_enter fs (cur : path) (t : string) :
  found fs cur t = Return Dir -> exists q, enter fs cur t = Return q.
Proof.
  unfold found, enter, special.
  destruct (String.eqb t EmptyString || String.eqb t ".") eqn:E1; [eauto|].
  destruct (String.eqb t ".."); [eauto|]. cbn [orb].
  destruct (node_at fs (cur ++ [t])) as [[|v]|]; try discriminate; eauto.
Qed.

Lemma enter_stays fs (cur : path) (x : string) :
  enter fs cur x = Return cur -> special x = true.
Proof.
  unfold enter, special.
  destruct (String.eqb x EmptyString || String.eqb x ".") eqn:E1; [reflexivity|].
  destruct (String.eqb x ".."); [intros _; apply orb_true_r|].
  destruct (node_at fs (cur ++ [x])) as [[|v]|]; try discriminate.
  intros [= Heq]. apply (f_equal length) in Heq. rewrite length_app in Heq.
  simpl in Heq. lia.
Qed.

Lemma enter_cases fs (cur : path) (x : string) q :
  enter fs cur x = Return q ->
  (special x = true /\ (length q <= length cur)%nat)
  \/ (special x = false /\ q = cur ++ [x] /\ node_at fs (cur ++ [x]) = Some Dir).
Proof.
  unfold enter, special.
  destruct (String.eqb x EmptyString || String.eqb x ".") eqn:E1.
  { intros [= <-]. left. split; [reflexivity|lia]. }
  destruct (String.eqb x "..").
  { intros [= <-]. left. split; [apply orb_true_r|].
    destruct cur as [|y cur _] using rev_ind; [simpl; lia|].
    rewrite removelast_last, length_app. lia. }
  destruct (node_at fs (cur ++ [x])) as [[|v]|] eqn:E; try discriminate.
  intros [= <-]. right. auto.
Qed.

(** What [set] does to the disk, for names made of letters and digits, in a
    cache whose directory is there: it makes the directory of the prefix
    when it is missing, and writes the file of the entry in it. *)
Lemma set_spec self (ns key : string) (v : V) self' cur t :
  leads (disk self) (directory self) cur t ->
  found (disk self) cur t = Return Dir ->
  well_named ns key ->
  set self ns key v None = Return self' ->
  exists (Dk : path) fs1,
    (fs1 = disk self
     \/ (node_at (disk self) (cur ++ [t +:+ take2 (lstrip0 key)]) = None
         /\ special (t +:+ take2 (lstrip0 key)) = false
         /\ Dk = cur ++ [t +:+ take2 (lstrip0 key)]
         /\ fs1 = put (disk self) (cur ++ [t +:+ take2 (lstrip0 key)]) Dir))
    /\ enter fs1 cur (t +:+ take2 (lstrip0 key)) = Return Dk
    /\ node_at fs1 (Dk ++ [entry_name ns key]) <> Some Dir
    /\ disk self' = put fs1 (Dk ++ [entry_name ns key]) (File v)
    /\ directory self' = directory self.
Proof.
  intros Hl Hf Hwn Hset. pose proof Hwn as [Hns Hkey].
  destruct (alnum_prefix key Hkey) as [Hk _].
  apply set_inv in Hset as (fs1 & Hmk & Hw & Hd).
  set (k2 := take2 (lstrip0 key)) in *.
  rewrite (exists_prefix_dir _ _ cur t key Hl Hkey) in Hmk. fold k2 in Hmk.
  assert (exists Dk,
             (fs1 = disk self
              \/ (node_at (disk self) (cur ++ [t +:+ k2]) = None
                  /\ special (t +:+ k2) = false
                  /\ Dk = cur ++ [t +:+ k2]
                  /\ fs1 = put (disk self) (cur ++ [t +:+ k2]) Dir))
             /\ enter fs1 cur (t +:+ k2) = Return Dk
             /\ leads fs1 (directory self) cur t) as (Dk & Hcase & Hent & Hl1).
  { destruct (enter (disk self) cur (t +:+ k2)) as [Dk|e] eqn:E.
    - injection Hmk as <-. exists Dk. auto.
    - destruct (snoc_cases k2) as [Hk2|(a & c & Hk2)].
      { rewrite Hk2, string_app_nil_r in E.
        destruct (found_enter _ _ _ Hf) as [q Hq]. congruence. }
      assert (alnum c = true) as Hc.
      { rewrite Hk2, alnum_string_app in Hk. apply andb_prop in Hk as [_ Hk].
        simpl in Hk. rewrite andb_true_r in Hk. exact Hk. }
      assert (special (t +:+ k2) = false) as Hsp.
      { rewrite Hk2. apply special_alnum_snoc, Hc. }
      unfold prefix in Hmk. fold k2 in Hmk. rewrite Hk2 in Hmk.
      rewrite (makedirs_leaf (disk self) (directory self) cur t a c Hl) in Hmk.
      + rewrite <- Hk2 in Hmk.
        destruct (node_at (disk self) (cur ++ [t +:+ k2])) as [n|] eqn:En;
          [discriminate|].
        injection Hmk as <-. exists (cur ++ [t +:+ k2]).
        assert (keeps_dirs (disk self) (put (disk self) (cur ++ [t +:+ k2]) Dir))
          as Hkeep.
        { apply put_keeps_dirs; [apply snoc_not_nil | congruence]. }
        split; [right; auto|]. split.
        * unfold enter. unfold special in Hsp.
          apply orb_false_elim in Hsp as [Hsp1 Hsp2]. rewrite Hsp1, Hsp2.
          rewrite node_at_put by apply snoc_not_nil.
          rewrite decide_True by reflexivity. reflexivity.
        * apply (leads_keeps _ _ _ _ _ Hkeep eq_refl Hl).
      + rewrite <- Hk2. apply alnum_no_slash, Hk.
      + rewrite <- Hk2. apply alnum_no_nul, Hk.
      + rewrite <- Hk2. exact Hsp. }
  apply write_file_spec in Hw as (p & name & Hp & Hsp & Hn & Hfs2).
  rewrite (parent_of_entry fs1 _ cur t ns key Hl1 Hwn) in Hp. fold k2 in Hp.
  rewrite Hent in Hp. injection Hp as <- <-.
  exists Dk, fs1. auto.
Qed.

Lemma leads_stat fs (d : string) cur t n :
  leads fs d cur t -> found fs cur t = Return n -> stat fs d = Return n.
Proof.
  intros (Hd & Hnul & Hw) Hf. unfold stat, parent_of. rewrite Hnul.
  destruct d as [|x d]; [contradiction|]. rewrite Hw. exact Hf.
Qed.

Lemma found_keeps fs fs' (cur : path) (t : string) :
  keeps_dirs fs fs' -> found fs cur t = Return Dir -> found fs' cur t = Return Dir.
Proof.
  intros Hk. unfold found. destruct (special t); [auto|].
  destruct (node_at fs (cur ++ [t])) as [[|v]|] eqn:E; try discriminate.
  rewrite (Hk _ E). auto.
Qed.

Lemma enter_ext fs fs' (cur : path) (x : string) :
  node_at fs' (cur ++ [x]) = node_at fs (cur ++ [x]) ->
  enter fs' cur x = enter fs cur x.
Proof. intros Hn. unfold enter. rewrite Hn. reflexivity. Qed.

Lemma enter_special fs fs' (cur : path) (x : string) :
  special x = true -> enter fs' cur x = enter fs cur x.
Proof.
  unfold special, enter. intros Hx.
  destruct (String.eqb x EmptyString || String.eqb x "."); [reflexivity|].
  cbn [orb] in Hx. rewrite Hx. reflexivity.
Qed.

(** [set] leaves the other entries as they are. *)
Lemma set_frame self (ns key : string) (v : V) self' (ns' key' : string) :
  cache_ok self ->
  well_named ns key -> well_named ns' key' ->
  (ns, key) <> (ns', key') ->
  set self ns key v None = Return self' ->
  get self' ns' key' = get self ns' key' /\ cache_ok self'.
Proof.
  intros [Hwf Hstat] Hwn Hwn' Hne Hset.
  apply stat_leads in Hstat as (cur & t & Hl & Hf).
  destruct (set_spec self ns key v self' cur t Hl Hf Hwn Hset)
    as (Dk & fs1 & Hcase & Hent & Hnd & Hfs2 & Hd).
  set (fs := disk self) in *. set (d := directory self) in *.
  set (k2 := take2 (lstrip0 key)) in *. set (name := entry_name ns key) in *.
  set (k2' := take2 (lstrip0 key')). set (name' := entry_name ns' key').
  set (A := cur ++ [t +:+ k2]) in *. set (P := Dk ++ [name]) in *.
  assert (node_at fs cur = Some Dir) as Hcur by (eapply leads_dir; eauto).
  assert (keeps_dirs fs fs1 /\ wf fs1 /\ cwd fs1 = cwd fs) as (Hk1 & Hwf1 & Hcwd1).
  { destruct Hcase as [->|(HA & _ & _ & ->)].
    - split; [apply keeps_dirs_refl|]. auto.
    - split; [apply put_keeps_dirs; [apply snoc_not_nil|fold A; congruence]|].
      split; [|reflexivity]. apply put_wf; auto. fold A. congruence. }
  assert (leads fs1 d cur t) as Hl1 by (eapply leads_keeps; eauto).
  assert (node_at fs1 Dk = Some Dir) as HDk.
  { eapply enter_dir; [exact Hwf1| |exact Hent]. apply Hk1, Hcur. }
  assert (keeps_dirs fs1 (disk self')) as Hk2.
  { rewrite Hfs2. apply put_keeps_dirs; [apply snoc_not_nil|exact Hnd]. }
  assert (wf (disk self')) as Hwf2.
  { rewrite Hfs2. apply put_wf; assumption. }
  assert (leads (disk self') d cur t) as Hl2.
  { eapply leads_keeps; [exact Hk2| |exact Hl1]. rewrite Hfs2. reflexivity. }
  split.
  2:{ split; [exact Hwf2|]. rewrite Hd. fold d.
      apply (leads_stat _ _ cur t _ Hl2).
      eapply found_keeps; [|exact Hf]. eapply keeps_dirs_trans; eauto. }
  assert (name' <> name) as Hname.
  { intros Heq. apply entry_name_inj in Heq as [-> ->]; auto. }
  pose proof (entry_name_length ns' key') as Hlen'. fold name' in Hlen'.
  pose proof (entry_name_length ns key) as Hlen. fold name in Hlen.
  destruct (alnum_prefix key (proj2 Hwn)) as [_ Hk2len]. fold k2 in Hk2len.
  destruct (alnum_prefix key' (proj2 Hwn')) as [_ Hk2len']. fold k2' in Hk2len'.
  (* the nodes of the new disk *)
  assert (forall q : path,
             q <> P -> (fs1 = fs \/ q <> A) ->
             node_at (disk self') q = node_at fs q) as Hsame.
  { intros q HqP HqA. rewrite Hfs2, node_at_put by apply snoc_not_nil.
    rewrite decide_False by exact HqP.
    destruct Hcase as [Hc|(Hnone & _ & _ & Hfs1)]; [rewrite Hc; reflexivity|].
    rewrite Hfs1, node_at_put by apply snoc_not_nil.
    rewrite decide_False; [reflexivity|].
    destruct HqA as [HqA|HqA]; [|exact HqA].
    exfalso. apply (f_equal (fun f => node_at f A)) in HqA.
    rewrite Hfs1, node_at_put in HqA by apply snoc_not_nil.
    rewrite decide_True in HqA by reflexivity. fold A in Hnone. congruence. }
  unfold get. rewrite Hd. fold d fs.
  rewrite (read_file_entry _ d cur t ns' key' Hl2 Hwn').
  rewrite (read_file_entry fs d cur t ns' key' Hl Hwn').
  fold k2' name'.
  assert (read_at (disk self') cur (t +:+ k2') name'
          = read_at fs cur (t +:+ k2') name') as ->; [|reflexivity].
  unfold read_at.
  destruct (special (t +:+ k2')) eqn:Hsp.
  - (* the prefix is not looked up *)
    rewrite (enter_special fs (disk self') cur _ Hsp).
    destruct (enter fs cur (t +:+ k2')) as [q|e] eqn:Eq; [|reflexivity].
    cbn [mbind result_bind bind].
    rewrite Hsame; [reflexivity| |].
    + unfold P. intros Heq. apply app_inj_tail in Heq as [_ Heq]. auto.
    + right. unfold A. intros Heq. apply app_inj_tail in Heq as [_ Heq].
      apply special_length in Hsp. rewrite string_length_app in Hsp.
      rewrite Heq, string_length_app in Hlen'. lia.
  - assert (fs1 = fs \/ t +:+ k2' <> t +:+ k2 ->
            (p ← enter (disk self') cur (t +:+ k2');
             match node_at (disk self') (p ++ [name']) with
             | Some (File v0) => Return v0
             | Some Dir => Raise IsADirectoryError
             | None => Raise FileNotFoundError
             end) =
            (p ← enter fs cur (t +:+ k2');
             match node_at fs (p ++ [name']) with
             | Some (File v0) => Return v0
             | Some Dir => Raise IsADirectoryError
             | None => Raise FileNotFoundError
             end)) as Hold.
    { (* the directory of the prefix was there, or is another *)
      intros Hwhich.
      assert (node_at (disk self') (cur ++ [t +:+ k2'])
              = node_at fs (cur ++ [t +:+ k2'])) as Hnode.
      { apply Hsame.
        - unfold P. intros HH. apply app_inj_tail in HH as [<- HH].
          apply enter_stays in Hent. apply special_length in Hent.
          rewrite string_length_app in Hent.
          rewrite <- HH, string_length_app in Hlen. lia.
        - destruct Hwhich as [Hw|Hw]; [left; exact Hw|].
          right. unfold A. intros HH. apply app_inj_tail in HH as [_ HH].
          apply Hw, HH. }
      rewrite (enter_ext fs (disk self') cur _ Hnode).
      destruct (enter fs cur (t +:+ k2')) as [q|e] eqn:Eq; [|reflexivity].
      cbn [mbind result_bind bind].
      apply enter_cases in Eq as [[Hsp' _]|(_ & -> & _)]; [congruence|].
      rewrite Hsame; [reflexivity| |].
      * unfold P. intros HH. apply app_inj_tail in HH as [_ HH]. auto.
      * right. unfold A. intros HH. apply (f_equal length) in HH.
        rewrite !length_app in HH. simpl in HH. lia. }
    destruct Hcase as [Hc|(HA & HspA & HDk' & Hfs1)]; [apply Hold; auto|].
    destruct (decide (t +:+ k2' = t +:+ k2)) as [Heq|Hneq]; [|apply Hold; auto].
    (* the directory of the prefix is the one [set] made *)
    fold A in HA, Hfs1, HDk'. rewrite Heq. fold A.
    assert (enter fs cur (t +:+ k2) = Raise FileNotFoundError) as ->.
    { unfold enter. unfold special in HspA.
      apply orb_false_elim in HspA as [-> ->]. fold A. rewrite HA. reflexivity. }
    rewrite (enter_ext fs1 (disk self') cur (t +:+ k2)), Hent.
    2:{ fold A. rewrite Hfs2, node_at_put by apply snoc_not_nil.
        rewrite decide_False; [reflexivity|].
        unfold P. rewrite HDk'. intros HH. apply (f_equal length) in HH.
        rewrite length_app in HH. simpl in HH. lia. }
    cbn [mbind result_bind bind]. rewrite HDk'.
    rewrite Hsame.
    + destruct (node_at fs (A ++ [name'])) as [n|] eqn:En; [|reflexivity].
      rewrite node_at_snoc in En. apply (proj1 Hwf) in En. congruence.
    + unfold P. intros HH. apply app_inj_tail in HH as [_ HH]. auto.
    + right. intros HH. apply (f_equal length) in HH.
      rewrite length_app in HH. simpl in HH. lia.
Qed.

End CacheFacts.

Section CacheMore.
Import FileSystem FileCacheInterface.
Context {V : Type}.
Implicit Types (self : FileCacheInterface.t V) (fs : FileSystem.t V).

Lemma set_all_frame (entries : list (string * string * V)) :
  forall self self' (ns' key' : string),
    cache_ok self ->
    Forall (fun e => well_named e.1.1 e.1.2) entries ->
    well_named ns' key' ->
    (ns', key') ∉ map fst entries ->
    set_all self entries = Return self' ->
    get self' ns' key' = get self ns' key' /\ cache_ok self'.
Proof.
  induction entries as [|[[ns key] v] entries IH];
    intros self self' ns' key' Hok Hall Hwn' Hnotin; simpl.
  - intros [= <-]. auto.
  - destruct (set self ns key v None) as [self1|e] eqn:Hset; [|discriminate].
    cbn [mbind result_bind bind]. intros Hrest.
    inversion Hall as [|? ? Hwn Hall']; subst. simpl in Hwn.
    destruct (set_frame self ns key v self1 ns' key' Hok Hwn Hwn') as [Hget Hok1];
      [|exact Hset|].
    { intros Heq. apply Hnotin. simpl. rewrite Heq. apply list_elem_of_here. }
    destruct (IH self1 self' ns' key' Hok1 Hall' Hwn') as [Hget' Hok'];
      [|exact Hrest|].
    { intros Hin. apply Hnotin. simpl. apply list_elem_of_further, Hin. }
    split; [congruence|exact Hok'].
Qed.

Lemma parent_of_leads fs (d b : string) r :
  d <> EmptyString -> parent_of fs (d +:+ b) = Return r ->
  exists cur t, leads fs d cur t.
Proof.
  intros Hd. unfold parent_of, leads.
  destruct (has_char "000" (d +:+ b)) eqn:Hnul; [discriminate|].
  rewrite has_char_app in Hnul. apply orb_false_elim in Hnul as [Hnul _].
  destruct (d +:+ b) as [|x s] eqn:E; [discriminate|]. rewrite <- E.
  rewrite start_app by exact Hd. rewrite walk_app.
  destruct (walk fs (Return (start fs d)) EmptyString d) as [[cur|e] t].
  - intros _. exists cur, t. auto.
  - cbn [fst snd]. pose proof (walk_raise fs e t b) as Hr.
    destruct (walk fs (Raise e) t b) as [c n]. cbn [fst] in Hr. subst c.
    discriminate.
Qed.

Lemma node_at_delete fs (P q : path) :
  P <> [] ->
  node_at {| nodes := delete P (nodes fs); cwd := cwd fs |} q
  = if decide (q = P) then None else node_at fs q.
Proof.
  intros HP. unfold node_at. cbn [nodes].
  destruct (decide (q = P)) as [->|Hne].
  - destruct P; [contradiction|]. apply lookup_delete_eq.
  - destruct q; [reflexivity|]. apply lookup_delete_ne. congruence.
Qed.

Lemma unlink_spec fs (s : string) fs' :
  unlink fs s = Return fs' ->
  exists (p : path) (name : string) v,
    parent_of fs s = Return (p, name)
    /\ special name = false
    /\ node_at fs (p ++ [name]) = Some (File v)
    /\ fs' = {| nodes := delete (p ++ [name]) (nodes fs); cwd := cwd fs |}.
Proof.
  unfold unlink. destruct (parent_of fs s) as [[p name]|e] eqn:Ep; [|discriminate].
  cbn [mbind result_bind bind]. destruct (special name) eqn:Hsp; [discriminate|].
  destruct (node_at fs (p ++ [name])) as [[|v]|] eqn:E; try discriminate.
  intros [= <-]. exists p, name, v.
  split; [reflexivity|]. split; [exact Hsp|]. split; [exact E|reflexivity].
Qed.

Lemma delete_keeps_dirs fs (P : path) v :
  P <> [] -> node_at fs P = Some (File v) ->
  keeps_dirs fs {| nodes := delete P (nodes fs); cwd := cwd fs |}.
Proof.
  intros HP Hn q Hq. rewrite node_at_delete by exact HP.
  rewrite decide_False; [exact Hq|]. intros ->. congruence.
Qed.

(** [remove] takes the entry away, and raises [OSError] when there is none. *)
Lemma remove_returns self (ns key : string) (may_fail : bool) self' :
  remove self ns key may_fail = Return self' ->
  (exists v, get self ns key = Return (Some v))
  /\ get self' ns key = Return None
  /\ directory self' = directory self.
Proof.
  unfold remove.
  destruct (unlink (disk self) _) as [fs'|e] eqn:Hun;
    [|destruct (is_OSError e); discriminate].
  intros [= <-]. cbn [directory disk].
  apply unlink_spec in Hun as (p & name & v & Hp & Hsp & Hn & ->).
  split; [|split; [|reflexivity]].
  - exists v. unfold get, read_file. rewrite Hp.
    cbn [mbind result_bind bind]. rewrite Hsp, Hn. reflexivity.
  - unfold get, read_file. cbn [directory disk].
    rewrite (parent_of_keeps (disk self) _ _ (p, name)); [| |reflexivity|exact Hp].
    + cbn [mbind result_bind bind]. rewrite Hsp.
      rewrite node_at_delete by apply snoc_not_nil.
      rewrite decide_True by reflexivity. reflexivity.
    + eapply delete_keeps_dirs; [apply snoc_not_nil|exact Hn].
Qed.

Lemma remove_missing self (ns key : string) (may_fail : bool) :
  get self ns key = Return None ->
  remove self ns key may_fail = Raise OSError.
Proof.
  unfold get, remove, read_file, unlink.
  destruct (parent_of (disk self) _) as [[p name]|e].
  - cbn [mbind result_bind bind]. destruct (special name); [discriminate|].
    destruct (node_at (disk self) (p ++ [name])) as [[|v]|]; try discriminate.
    reflexivity.
  - cbn [mbind result_bind bind]. destruct e; try discriminate. reflexivity.
Qed.

Lemma remove_frame self (ns key : string) (may_fail : bool) self' (ns' key' : string) :
  directory self <> EmptyString ->
  well_named ns key -> well_named ns' key' ->
  (ns', key') <> (ns, key) ->
  remove self ns key may_fail = Return self' ->
  get self' ns' key' = get self ns' key'.
Proof.
  intros Hd Hwn Hwn' Hne. unfold remove.
  destruct (unlink (disk self) _) as [fs'|e] eqn:Hun;
    [|destruct (is_OSError e); discriminate].
  intros [= <-].
  apply unlink_spec in Hun as (p & name & v & Hp & Hsp & Hn & ->).
  set (fs := disk self) in *. set (d := directory self) in *.
  pose proof Hp as Hp'. rewrite file_unfold in Hp'.
  apply parent_of_leads in Hp' as (cur & t & Hl); [|exact Hd].
  rewrite (parent_of_entry fs d cur t ns key Hl Hwn) in Hp.
  destruct (enter fs cur (t +:+ take2 (lstrip0 key))) as [Dk|e] eqn:Hent;
    [|discriminate].
  injection Hp as <- <-.
  set (fs' := {| nodes := delete (Dk ++ [entry_name ns key]) (nodes fs);
                 cwd := cwd fs |}) in *.
  assert (keeps_dirs fs fs') as Hk.
  { eapply delete_keeps_dirs; [apply snoc_not_nil|exact Hn]. }
  assert (leads fs' d cur t) as Hl' by (eapply leads_keeps; eauto).
  assert (entry_name ns' key' <> entry_name ns key) as Hname.
  { intros Heq. apply entry_name_inj in Heq as [-> ->]; auto. }
  pose proof (entry_name_length ns key) as Hlen.
  destruct (alnum_prefix key' (proj2 Hwn')) as [_ Hk2len'].
  unfold get. cbn [directory disk]. fold d fs.
  rewrite (read_file_entry fs' d cur t ns' key' Hl' Hwn').
  rewrite (read_file_entry fs d cur t ns' key' Hl Hwn').
  assert (read_at fs' cur (t +:+ take2 (lstrip0 key')) (entry_name ns' key')
          = read_at fs cur (t +:+ take2 (lstrip0 key')) (entry_name ns' key'))
    as ->; [|reflexivity].
  unfold read_at.
  assert (enter fs' cur (t +:+ take2 (lstrip0 key'))
          = enter fs cur (t +:+ take2 (lstrip0 key'))) as ->.
  { apply enter_ext. subst fs'. rewrite node_at_delete by apply snoc_not_nil.
    rewrite decide_False; [reflexivity|].
    intros HH. apply app_inj_tail in HH as [<- HH].
    apply enter_stays in Hent. apply special_length in Hent.
    rewrite string_length_app in Hent. rewrite <- HH, string_length_app in Hlen. lia. }
  destruct (enter fs cur (t +:+ take2 (lstrip0 key'))) as [q|e]; [|reflexivity].
  cbn [mbind result_bind bind].
  subst fs'. rewrite node_at_delete by apply snoc_not_nil.
  rewrite decide_False; [reflexivity|].
  intros HH. apply app_inj_tail in HH as [_ HH]. auto.
Qed.

End CacheMore.

Lemma is_dir_spec {V : Type} (n : option (FileSystem.node V)) :
  is_dir n = true -> n = Some FileSystem.Dir.
Proof. destruct n as [[|v]|]; try discriminate; reflexivity. Qed.

Lemma is_tree_wf {V : Type} (fs : FileSystem.t V) : is_tree fs = true -> wf fs.
Proof.
  unfold is_tree. intros Ht. apply andb_prop in Ht as [Hall Hcwd].
  split; [|apply is_dir_spec, Hcwd].
  intros p x n Hn. rewrite forallb_forall in Hall.
  apply elem_of_map_to_list, list_elem_of_In in Hn.
  specialize (Hall _ Hn). cbn [fst] in Hall. rewrite removelast_last in Hall.
  apply is_dir_spec, Hall.
Qed.


Section FileCacheClaims.
Context {V : Type}.
Import FileCacheInterface.

Implicit Types (self : FileCacheInterface.t V).

(** C8, as amended.  When [set(namespace, key, value)] returns, the entry
    is in the file [<dir><prefix>/<namespace>.<key>.bin], with [<dir>] the
    directory string as it was given (no separator is put after it) and
    [<prefix>] the first two characters of the key once its leading ['0']
    are stripped, and a [get(namespace, key)] that follows returns the
    value.  In a cache whose directory is there, setting entries whose
    names are made of letters and digits leaves [get] as it was for every
    other such name: a pair that was never set reads [None] if it did
    before. *)
Theorem file_cache_set_then_get :
  (forall self (namespace key : string) (v : V) self',
      set self namespace key v None = Return self' ->
      directory self' = directory self
      /\ FileSystem.read_file (disk self')
           (directory self ++ take2 (lstrip0 key) ++ "/"
              ++ namespace ++ "." ++ key ++ ".bin")%string = Return v
      /\ get self' namespace key = Return (Some v))
  /\ (forall self (entries : list (string * string * V)) self' (ns' key' : string),
         cache_ok self ->
         Forall (fun e => well_named e.1.1 e.1.2) entries ->
         well_named ns' key' ->
         (ns', key') ∉ map fst entries ->
         set_all self entries = Return self' ->
         get self' ns' key' = get self ns' key' /\ cache_ok self').
Proof.
  split.
  - intros self namespace key v self' Hset.
    destruct (get_after_set self namespace key v self' Hset) as [Hread Hget].
    apply set_inv in Hset as (_ & _ & _ & Hd).
    split; [exact Hd|]. split; [|exact Hget].
    rewrite file_unfold in Hread. exact Hread.
  - intros self entries self' ns' key'. apply set_all_frame.
Qed.

End FileCacheClaims.

(** C8, the claim as it stands, fails.  With the directory ["/tmp/cache"],
    the entry [("getblock", "00ab")] is not stored at
    ["/tmp/cache/ab/getblock.00ab.bin"] but at
    ["/tmp/cacheab/getblock.00ab.bin"].  [set("ns", "x/y", v)] stores
    nothing: it raises [FileNotFoundError].  And a pair that was never set
    is read: after [set("n.ab", "ab", v)] alone, [get("n", "ab.ab")] returns
    [v], and so does [get("ns", "xy")] after [set("/ns", "xy", v)] alone. *)
Lemma file_cache_path_and_collision :
  let v := block_00ab 10 "A" 1700000000 in
  let set_in dir ns key :=
    FileCacheInterface.set (empty_cache dir) ns key v None in
  let c1 := returned (empty_cache "/tmp/cache") (set_in "/tmp/cache" "getblock" "00ab") in
  let c2 := returned (empty_cache "/tmp/cache/") (set_in "/tmp/cache/" "n.ab" "ab") in
  let c3 := returned (empty_cache "/tmp/cache/") (set_in "/tmp/cache/" "/ns" "xy") in
  spec_path "/tmp/cache" "getblock" "00ab" = "/tmp/cache/ab/getblock.00ab.bin"%string
  /\ set_in "/tmp/cache" "getblock" "00ab" = Return c1
  /\ FileSystem.read_file (FileCacheInterface.disk c1)
       (spec_path "/tmp/cache" "getblock" "00ab") = Raise FileNotFoundError
  /\ FileSystem.read_file (FileCacheInterface.disk c1)
       "/tmp/cacheab/getblock.00ab.bin" = Return v
  /\ set_in "/tmp/cache/" "ns" "x/y" = Raise FileNotFoundError
  /\ set_in "/tmp/cache/" "n.ab" "ab" = Return c2
  /\ ("n"%string, "ab.ab"%string) <> ("n.ab"%string, "ab"%string)
  /\ FileCacheInterface.get c2 "n" "ab.ab" = Return (Some v)
  /\ set_in "/tmp/cache/" "/ns" "xy" = Return c3
  /\ ("ns"%string, "xy"%string) <> ("/ns"%string, "xy"%string)
  /\ FileCacheInterface.get c3 "ns" "xy" = Return (Some v).
Proof.
  intros v set_in c1 c2 c3.
  split; [reflexivity|]. split; [vm_compute; reflexivity|].
  split; [vm_compute; reflexivity|]. split; [vm_compute; reflexivity|].
  split; [vm_compute; reflexivity|]. split; [vm_compute; reflexivity|].
  split; [discriminate|]. split; [vm_compute; reflexivity|].
  split; [vm_compute; reflexivity|]. split; [discriminate|].
  vm_compute; reflexivity.
Qed.

(** The cache of the examples is in working order. *)
Lemma empty_cache_ok : cache_ok (empty_cache "/tmp/cache/").
Proof.
  split; [apply is_tree_wf|]; vm_compute; reflexivity.
Qed.

Lemma file_cache_set_then_get_witness :
  let v := block_00ab 10 "A" 1700000000 in
  let c := empty_cache "/tmp/cache/" in
  let entries := [("getblock"%string, "00ab"%string, v);
                  ("getrawtransaction"%string, "7f3c"%string, v)] in
  let c' := returned c (set_all c entries) in
  set_all c entries = Return c'
  /\ FileCacheInterface.get c "getblock" "00ac" = Return None
  /\ FileCacheInterface.get c' "getblock" "00ac" = Return None
  /\ FileCacheInterface.get c' "getblock" "00ab" = Return (Some v).
Proof.
  intros v c entries c'.
  assert (set_all c entries = Return c') as Hset by (vm_compute; reflexivity).
  split; [exact Hset|]. split; [vm_compute; reflexivity|]. split.
  - destruct (proj2 file_cache_set_then_get c entries c' "getblock"%string
                "00ac"%string empty_cache_ok) as [Hget _].
    + repeat constructor.
    + split; reflexivity.
    + intros Hin. apply list_elem_of_In in Hin. simpl in Hin.
      destruct Hin as [Heq|[Heq|[]]]; discriminate.
    + exact Hset.
    + rewrite Hget. vm_compute. reflexivity.
  - destruct (proj1 file_cache_set_then_get
                (returned c (FileCacheInterface.set c "getblock" "00ab" v None))
                "getrawtransaction"%string "7f3c"%string v c') as (_ & _ & _).
    + vm_compute. reflexivity.
    + vm_compute. reflexivity.
Defined.

(** ** The aggregation service *)

Section ServiceLemmas.
Context {C : Type} `{CacheInterface C dict}.
Import SprunedVOService.

Implicit Types (self : SprunedVOService.t C) (rnd : nat -> nat).

(** [@functools.wraps], applied to the inner function itself, makes of
    [maybe_cached(method)] a decorator that hands the decorated function
    back: the inner function and its look-up in the cache are never run. *)
Lemma maybe_cached_returns_the_function (method : string) {F : Type} (f : F) :
  maybe_cached (C := C) method f = f.
Proof. reflexivity. Qed.

Lemma random_choice_in {A} (l : list A) r a :
  SprunedVOService.random_choice l r = Return a -> a ∈ l.
Proof.
  unfold SprunedVOService.random_choice.
  destruct (l !! _) as [x|] eqn:E; [|discriminate].
  intros [= <-]. eapply list_elem_of_lookup_2, E.
Qed.

(** What [_pick_services] returns: sources picked among the secondary ones,
    no one twice, followed by all the primary ones, [min_sources] at least
    in all. *)
Lemma pick_loop_spec self rnd fuel : forall i res picked,
  NoDup res -> res ⊆ services self ->
  pick_loop self rnd fuel i res = Return picked ->
  exists res', picked = res' ++ primary self
               /\ NoDup res' /\ res' ⊆ services self
               /\ min_sources self <= Z.of_nat (length picked).
Proof.
  induction fuel as [|fuel IH]; intros i res picked Hnd Hsub; simpl.
  - destruct (Z.ltb_spec (Z.of_nat (length res) + Z.of_nat (length (primary self)))
                         (min_sources self)) as [Hlt|Hge]; [discriminate|].
    intros [= <-]. exists res. rewrite length_app. repeat split; auto; lia.
  - destruct (Z.ltb_spec (Z.of_nat (length res) + Z.of_nat (length (primary self)))
                         (min_sources self)) as [Hlt|Hge].
    + destruct (S i <? 50)%nat; simpl; [|discriminate].
      destruct (SprunedVOService.random_choice (services self) (rnd (S i)))
        as [_c|e] eqn:E; simpl; [|discriminate].
      apply random_choice_in in E.
      case_bool_decide as Hin; apply IH; auto.
      * apply NoDup_app. repeat split; auto.
        -- intros x Hx Hx'. apply list_elem_of_singleton in Hx'. congruence.
        -- apply NoDup_singleton.
      * intros x Hx. apply elem_of_app in Hx as [Hx|Hx]; auto.
        apply list_elem_of_singleton in Hx. congruence.
    + intros [= <-]. exists res. rewrite length_app. repeat split; auto; lia.
Qed.

Lemma pick_services_spec self rnd picked :
  _pick_services self rnd = Return picked ->
  exists res, picked = res ++ primary self
              /\ NoDup res /\ res ⊆ services self
              /\ min_sources self <= Z.of_nat (length picked).
Proof.
  apply pick_loop_spec; [apply NoDup_nil_2 | intros x Hx; inversion Hx].
Qed.

End ServiceLemmas.

Section ServiceClaims.
Context {C : Type} `{CacheInterface C dict}.
Import SprunedVOService.

Implicit Types (self : SprunedVOService.t C) (rnd : nat -> nat).


End ServiceClaims.

(** A block none of the sources knows the confirmations of. *)
Definition unconfirmed_00ab : dict :=
  [("hash"%string, VStr "00ab"); ("confirmations"%string, VNone);
   ("merkleroot"%string, VStr "A"); ("time"%string, VInt 1700000000)].



(** C5, what the code does on a hit.  The cache holds a block for
    [("getblock", "00ab")], with 10 confirmations.  [getblock("00ab")] does
    not return it: it asks the three sources, returns what they answer (the
    block with 11 confirmations) and stores that; and it raises when the
    sources cannot be reached.  [getblock] is [getblock_body], whatever the
    service: the decorator adds no look-up. *)
Theorem getblock_on_a_hit_asks_the_sources :
  let cached := block_00ab 10 "A" 1700000000 in
  let fresh := block_00ab 11 "A" 1700000000 in
  let c' := returned cache_with_00ab
              (cache_set cache_with_00ab "getblock" "00ab" fresh) in
  cache_get cache_with_00ab "getblock" "00ab" = Return (Some cached)
  /\ cache_set cache_with_00ab "getblock" "00ab" fresh = Return c'
  /\ cache_get c' "getblock" "00ab" = Return (Some fresh)
  /\ SprunedVOService.getblock (three_sources cache_with_00ab fresh []) id "00ab"
     = Return (fresh, three_sources c' fresh [])
  /\ fresh <> cached
  /\ SprunedVOService.getblock (three_unreachable_sources cache_with_00ab) id "00ab"
     = Raise OSError
  /\ (forall (self : SprunedVOService.t (FileCacheInterface.t dict)) rnd blockhash,
         SprunedVOService.getblock self rnd blockhash
         = SprunedVOService.getblock_body self rnd blockhash).
Proof.
  intros cached fresh c'.
  split; [vm_compute; reflexivity|]. split; [vm_compute; reflexivity|].
  split; [vm_compute; reflexivity|]. split; [vm_compute; reflexivity|].
  split; [discriminate|]. split; [vm_compute; reflexivity|].
  intros self rnd blockhash. reflexivity.
Qed.

(** ** The join of the answers *)

Section JoinData.
Import SprunedVOService.

Lemma returns_bind {E A B} (m : result E A) (f : A -> result E B) :
  returns (m ≫= f) <-> exists a, m = Return a /\ returns (f a).
Proof.
  destruct m as [a|e]; simpl.
  - split; [eauto | intros (a' & [= <-] & Hf); exact Hf].
  - split; [tauto | intros (a' & Hm & _); discriminate].
Qed.

Lemma returns_assert (b : bool) : returns (assert b) <-> b = true.
Proof. destruct b; simpl; split; auto; discriminate. Qed.

Lemma check_pair_agree k x y :
  returns (check_pair k x y) <-> code_agree k x y = true.
Proof.
  unfold check_pair, code_agree. destruct (String.eqb k "time").
  - destruct x, y; simpl; try (split; [tauto | discriminate]).
    apply returns_assert.
  - apply returns_assert.
Qed.

(** The loop of [_get_key] passes exactly when every value agrees with the
    next one, the last two values apart, which the bound [len(_dd) - 2]
    leaves out. *)
Lemma check_loop_spec k n : forall dd i,
  n = i + Z.of_nat (length dd) ->
  returns (check_loop k n i dd)
  <-> (forall (j : nat) x y,
          dd !! j = Some x -> dd !! S j = Some y ->
          (j + 2 < length dd)%nat -> code_agree k x y = true).
Proof.
  induction dd as [|x rest IH]; intros i Hn.
  - simpl. split; [intros _ j x y Hx; discriminate | tauto].
  - cbn [check_loop]. rewrite returns_bind. simpl length in Hn.
    specialize (IH (i + 1) ltac:(lia)). split.
    + intros ([] & Hhead & Htail) j a b Ha Hb Hj.
      destruct j as [|j].
      * simpl in Ha, Hb, Hj. injection Ha as <-.
        destruct (Z.ltb_spec i (n - 2)) as [_|Hge]; [|lia].
        destruct rest as [|y rest']; [discriminate|]. injection Hb as <-.
        apply check_pair_agree. rewrite Hhead. exact I.
      * simpl in Ha, Hb, Hj. apply (proj1 IH Htail j a b Ha Hb). lia.
    + intros Hall. exists tt. split.
      * destruct (Z.ltb_spec i (n - 2)) as [Hlt|_]; [|reflexivity].
        destruct rest as [|y rest']; [simpl in Hn; lia|].
        assert (code_agree k x y = true) as Hxy.
        { apply (Hall 0%nat x y); [reflexivity..|]. simpl in *. lia. }
        apply check_pair_agree in Hxy.
        destruct (check_pair k x y) as [[]|]; [reflexivity | destruct Hxy].
      * apply IH. intros j a b Ha Hb Hj.
        apply (Hall (S j) a b Ha Hb). simpl. lia.
Qed.

End JoinData.

Section JoinItems.
Import SprunedVOService.

Lemma dict_get_set_ne (d : dict) k k' v :
  k' <> k -> dict_get (dict_set d k v) k' = dict_get d k'.
Proof.
  intros Hne. induction d as [|[k0 v0] d IH]; simpl.
  - destruct (String.eqb_spec k k'); [congruence | reflexivity].
  - destruct (String.eqb_spec k0 k) as [->|Hk0]; simpl.
    + destruct (String.eqb_spec k k'); [congruence | reflexivity].
    + destruct (String.eqb_spec k0 k'); [reflexivity | exact IH].
Qed.

Lemma dict_get_in (d : dict) k v :
  NoDup (dict_keys d) -> In (k, v) d -> dict_get d k = Some v.
Proof.
  unfold dict_keys. induction d as [|[k0 v0] d IH]; simpl; [tauto|].
  intros Hnd [[= -> ->]|Hin].
  - rewrite String.eqb_refl. reflexivity.
  - apply NoDup_cons in Hnd as [Hk0 Hnd].
    destruct (String.eqb_spec k0 k) as [->|_]; [|auto].
    exfalso. apply Hk0. apply list_elem_of_In, in_map_iff. exists (k, v). auto.
Qed.

Lemma collect_first k (res : dict) v rest :
  dict_get res k = Some v -> collect k (res :: rest) = collected k v rest.
Proof. intros Hv. unfold collect, collected. simpl. rewrite Hv. reflexivity. Qed.

Lemma get_key_returns (data : list dict) k _data :
  returns (_get_key data k _data)
  <-> returns (check_loop k (Z.of_nat (length (collect k data))) 0 (collect k data)).
Proof.
  unfold _get_key. cbv zeta. rewrite returns_bind. split.
  - intros (a & -> & _). exact I.
  - intros Hr. destruct (check_loop _ _ _ _) as [a|]; [|destruct Hr].
    exists a. split; [reflexivity | exact I].
Qed.

Lemma join_items_returns rest : forall items (res : dict),
  NoDup (map fst items) ->
  (forall k v, In (k, v) items -> dict_get res k = Some v) ->
  returns (join_items items res rest) <-> Forall (key_ok rest) items.
Proof.
  induction items as [|[k v] items IH]; intros res Hnd Hres.
  - simpl. split; [constructor | tauto].
  - simpl in Hnd. apply NoDup_cons in Hnd as [Hk Hnd].
    assert (dict_get res k = Some v) as Hv by (apply Hres; left; reflexivity).
    assert (forall g k' v', In (k', v') items ->
                            dict_get (dict_set res k g) k' = Some v') as Hres'.
    { intros g k' v' Hin. rewrite dict_get_set_ne; [apply Hres; right; exact Hin|].
      intros ->. apply Hk. apply list_elem_of_In, in_map_iff. exists (k, v'). auto. }
    rewrite Forall_cons. unfold key_ok at 1. cbn [fst snd join_items].
    rewrite <- (collect_first k res v rest Hv).
    rewrite <- (get_key_returns (res :: rest) k rest).
    destruct (is_none v) eqn:Hnone.
    + rewrite returns_bind. split.
      * intros (g & Hg & Hrec). split; [split|].
        -- rewrite Hg. exact I.
        -- discriminate.
        -- eapply IH; [exact Hnd | apply Hres' | exact Hrec].
      * intros [[Hg _] Hrec].
        destruct (_get_key (res :: rest) k rest) as [g|]; [|destruct Hg].
        exists g. split; [reflexivity|]. apply IH; auto.
    + rewrite returns_bind. split.
      * intros (g & Hg & Hrec). apply returns_bind in Hrec as ([] & Ha & Hrec).
        assert (returns (assert (py_eq v g))) as Hassert by (rewrite Ha; exact I).
        apply returns_assert in Hassert. simpl in Hassert.
        apply bool_decide_eq_true in Hassert. subst g.
        split; [split|].
        -- rewrite Hg. exact I.
        -- intros _. unfold _get_key in Hg. cbv zeta in Hg.
           rewrite (collect_first k res v rest Hv) in Hg.
           unfold collected in Hg. rewrite Hnone in Hg. cbn [app] in Hg.
           destruct (check_loop _ _ _ _); simpl in Hg; [|discriminate].
           injection Hg as Hg. change (value_bool v = true).
           destruct (value_bool v); [reflexivity|].
           subst v. discriminate.
        -- eapply IH; [exact Hnd | | exact Hrec].
           intros k' v' Hin. apply Hres. right. exact Hin.
      * intros [[Hg Htruthy] Hrec]. specialize (Htruthy eq_refl).
        unfold _get_key in *. cbv zeta in *.
        rewrite (collect_first k res v rest Hv) in *.
        unfold collected in *. rewrite Hnone in *. cbn [app] in *.
        destruct (check_loop _ _ _ _) as [[]|]; [|destruct Hg].
        exists (first_or_none (v :: collect k rest)). split; [reflexivity|].
        apply returns_bind. exists tt. split.
        -- simpl in *. rewrite Htruthy. rewrite bool_decide_true by reflexivity.
           reflexivity.
        -- apply IH; auto. intros k' v' Hin. apply Hres. right. exact Hin.
Qed.

End JoinItems.

Section JoinClaims.
Import SprunedVOService.

Lemma code_agree_time x y :
  code_agree "time" x y = true
  <-> exists a b, x = VInt a /\ y = VInt b /\ Z.abs (a - b) < 10.
Proof.
  unfold code_agree. simpl. split.
  - destruct x as [|a| |], y as [|b| |]; try discriminate.
    intros Hlt. apply Z.ltb_lt in Hlt. eauto.
  - intros (a & b & -> & -> & Hlt). apply Z.ltb_lt, Hlt.
Qed.

Lemma code_agree_other k x y :
  k <> "time"%string -> code_agree k x y = true <-> x = y.
Proof.
  intros Hk. unfold code_agree.
  destruct (String.eqb_spec k "time"); [contradiction|].
  apply bool_decide_eq_true.
Qed.

Lemma returns_or_raises {E A} (m : result E A) : returns m \/ raises m.
Proof. destruct m; simpl; auto. Qed.

Lemma join_data_returns min_sources (res : dict) rest :
  min_sources <= Z.of_nat (length (res :: rest)) ->
  NoDup (dict_keys res) ->
  returns (_join_data min_sources (res :: rest)) <-> Forall (key_ok rest) res.
Proof.
  intros Hlen Hnd. unfold _join_data. rewrite returns_bind.
  rewrite <- (join_items_returns rest res res Hnd
                (fun k v Hin => dict_get_in res k v Hnd Hin)).
  split.
  - intros (a & _ & Hr). exact Hr.
  - intros Hr. exists tt. split; [|exact Hr].
    destruct (Z.geb_spec (Z.of_nat (length (res :: rest))) min_sources);
      [reflexivity | lia].
Qed.

(** C1, as amended.  For a list of at least [min_sources] answers whose
    first answer has each key once: only the key ["time"] is compared with a
    tolerance, two values collected one after the other agreeing when they
    are integers strictly less than 10 apart; under every other key,
    ["mediantime"] among them, they agree when they are equal.  If, for
    every key of the first answer, each collected value agrees with the next
    one, and the values of the first answer that are not [None] are truthy,
    the join returns.  If the join returns, then under every key of the
    first answer each collected value that has two values after it agrees
    with the next one.  The join either returns or raises. *)
Theorem join_data_agreement :
  forall (min_sources : Z) (res : dict) (rest : list dict),
    min_sources <= Z.of_nat (length (res :: rest)) ->
    NoDup (dict_keys res) ->
    ((forall k v, In (k, v) res -> is_none v = false -> py_bool v = true) ->
     (forall k, In k (dict_keys res) ->
                forall (j : nat) x y,
                  collect k (res :: rest) !! j = Some x ->
                  collect k (res :: rest) !! S j = Some y ->
                  code_agree k x y = true) ->
     returns (_join_data min_sources (res :: rest)))
    /\ (returns (_join_data min_sources (res :: rest)) ->
        forall k, In k (dict_keys res) ->
                  forall (j : nat) x y,
                    collect k (res :: rest) !! j = Some x ->
                    collect k (res :: rest) !! S j = Some y ->
                    (j + 2 < length (collect k (res :: rest)))%nat ->
                    code_agree k x y = true)
    /\ (returns (_join_data min_sources (res :: rest))
        \/ raises (_join_data min_sources (res :: rest)))
    /\ (forall x y, code_agree "time" x y = true
                    <-> exists a b, x = VInt a /\ y = VInt b /\ Z.abs (a - b) < 10)
    /\ (forall k x y, k <> "time"%string -> code_agree k x y = true <-> x = y).
Proof.
  intros min_sources res rest Hlen Hnd.
  pose proof (join_data_returns min_sources res rest Hlen Hnd) as Hiff.
  split; [|split; [|split; [|split]]].
  - intros Htruthy Hagree. apply Hiff, Forall_forall. intros [k v] Hin.
    apply list_elem_of_In in Hin. unfold key_ok. cbn [fst snd]. split; [|apply (Htruthy k v Hin)].
    rewrite <- (collect_first k res v rest (dict_get_in res k v Hnd Hin)).
    apply (proj2 (check_loop_spec k (Z.of_nat (length (collect k (res :: rest))))
                    (collect k (res :: rest)) 0 ltac:(lia))).
    intros j x y Hx Hy _.
    apply (fun Hk => Hagree k Hk j x y Hx Hy).
    unfold dict_keys. apply in_map_iff. exists (k, v). auto.
  - intros Hret k Hk j x y Hx Hy Hj.
    unfold dict_keys in Hk. apply in_map_iff in Hk as ([k' v] & <- & Hin).
    apply Hiff in Hret. rewrite Forall_forall in Hret.
    destruct (Hret (k', v) (proj2 (list_elem_of_In _ _) Hin)) as [Hloop _].
    cbn [fst snd] in *.
    rewrite <- (collect_first k' res v rest (dict_get_in res k' v Hnd Hin)) in Hloop.
    exact (proj1 (check_loop_spec k' (Z.of_nat (length (collect k' (res :: rest))))
                    (collect k' (res :: rest)) 0 ltac:(lia)) Hloop j x y Hx Hy Hj).
  - apply returns_or_raises.
  - apply code_agree_time.
  - apply code_agree_other.
Qed.

End JoinClaims.

(** C1, the claim as it stands, fails.  Three answers whose [time] are
    1700000000, 1700000010 and 1700000010 are within 10 seconds of each
    other, and the join raises; so it does for three answers whose
    [mediantime] are 1700000000, 1700000005 and 1700000003. *)
Lemma join_rejects_what_the_rule_accepts :
  let late := answers "time" (VInt 1700000000) (VInt 1700000010) (VInt 1700000010) in
  let median :=
    answers "mediantime" (VInt 1700000000) (VInt 1700000005) (VInt 1700000003) in
  (forall k, spec_agree k (SprunedVOService.collect k late))
  /\ SprunedVOService._join_data 3 late = Raise AssertionError
  /\ (forall k, spec_agree k (SprunedVOService.collect k median))
  /\ SprunedVOService._join_data 3 median = Raise AssertionError.
Proof.
  intros late median.
  assert (forall field a b c k,
             (String.eqb field "time" || String.eqb field "mediantime") = true ->
             Z.abs (a - b) <= 10 -> Z.abs (a - c) <= 10 -> Z.abs (b - c) <= 10 ->
             spec_agree k (SprunedVOService.collect k
                             (answers field (VInt a) (VInt b) (VInt c)))) as Hspec.
  { intros field a b c k Hfield Hab Hac Hbc.
    unfold spec_agree, answers, SprunedVOService.collect.
    cbn [flat_map dict_get].
    destruct (String.eqb_spec "hash" k) as [<-|Hhash].
    - cbn [is_none app]. change (orb _ _) with false. cbv iota.
      intros x y [<-|[<-|[<-|[]]]] [<-|[<-|[<-|[]]]]; reflexivity.
    - destruct (String.eqb_spec field k) as [<-|Hne].
      + cbn [is_none app]. rewrite Hfield.
        intros x y [<-|[<-|[<-|[]]]] [<-|[<-|[<-|[]]]];
          do 2 eexists; (split; [reflexivity|]); (split; [reflexivity|]); lia.
      + cbn [app]. case_match; intros x y Hx; destruct Hx. }
  split; [|split; [|split]].
  - intros k. apply Hspec; [reflexivity | lia..].
  - reflexivity.
  - intros k. apply Hspec; [reflexivity | lia..].
  - reflexivity.
Qed.

(** Beside C1: the bound [len(_dd) - 2] leaves the last two collected
    values uncompared, so that two answers with the merkle root ["A"]
    followed by one with ["B"] are joined, where the same answers in another
    order are refused. *)
Example join_accepts_a_divergent_last_answer :
  SprunedVOService._join_data 3 (answers "merkleroot" (VStr "A") (VStr "A") (VStr "B"))
  = Return [("hash"%string, VStr "00ab"); ("merkleroot"%string, VStr "A")]
  /\ SprunedVOService._join_data 3
       (answers "merkleroot" (VStr "A") (VStr "B") (VStr "A"))
     = Raise AssertionError.
Proof. split; reflexivity. Qed.

Lemma two_keys_nodup (k1 k2 : string) (v1 v2 : value) :
  k1 <> k2 -> NoDup (dict_keys [(k1, v1); (k2, v2)]).
Proof.
  intros Hne. unfold dict_keys. simpl. apply NoDup_cons. split.
  - intros Hin. apply list_elem_of_singleton in Hin. contradiction.
  - apply NoDup_singleton.
Qed.

Lemma join_data_agreement_witness :
  let data := answers "time" (VInt 1700000000) (VInt 1700000003) (VInt 1700000007) in
  returns (SprunedVOService._join_data 3 data)
  /\ SprunedVOService._join_data 3 data
     = Return [("hash"%string, VStr "00ab"); ("time"%string, VInt 1700000000)].
Proof.
  intros data. split; [|reflexivity].
  apply (proj1 (join_data_agreement 3
                  [("hash"%string, VStr "00ab"); ("time"%string, VInt 1700000000)]
                  [[("hash"%string, VStr "00ab"); ("time"%string, VInt 1700000003)];
                   [("hash"%string, VStr "00ab"); ("time"%string, VInt 1700000007)]]
                  ltac:(simpl; lia)
                  (two_keys_nodup "hash" "time" _ _ ltac:(discriminate)))).
  - intros k v [[= <- <-]|[[= <- <-]|[]]] _; reflexivity.
  - intros k [<-|[<-|[]]] j x y Hx Hy;
      destruct j as [|[|[|j]]]; simpl in Hx, Hy; try discriminate;
      injection Hx as <-; injection Hy as <-; reflexivity.
Defined.

(** * Further properties of the code *)

(** ** The file cache: removing an entry *)

Section FileCacheMore.
Context {V : Type}.
Import FileCacheInterface.

Implicit Types (self : FileCacheInterface.t V).


End FileCacheMore.


(** ** The join: what it returns, what it never looks at *)

(** The value the join gives to a field of the first answer. *)
Definition joined_field (rest : list dict) (kv : string * value) : string * value :=
  (kv.1, if is_none kv.2
         then SprunedVOService.first_or_none (SprunedVOService.collect kv.1 rest)
         else kv.2).

Section JoinMore.
Import SprunedVOService.

Lemma dict_get_app_notin (l1 l2 : dict) k :
  ~ In k (dict_keys l1) -> dict_get (l1 ++ l2) k = dict_get l2 k.
Proof.
  unfold dict_keys. induction l1 as [|[k0 v0] l1 IH]; simpl; [reflexivity|].
  intros Hk. destruct (String.eqb_spec k0 k) as [->|_]; [tauto|].
  apply IH. tauto.
Qed.

Lemma dict_set_app_notin (l1 l2 : dict) k v g :
  ~ In k (dict_keys l1) ->
  dict_set (l1 ++ (k, v) :: l2) k g = l1 ++ (k, g) :: l2.
Proof.
  unfold dict_keys. induction l1 as [|[k0 v0] l1 IH]; simpl.
  - rewrite String.eqb_refl. reflexivity.
  - intros Hk. destruct (String.eqb_spec k0 k) as [->|_]; [tauto|].
    f_equal. apply IH. tauto.
Qed.

Lemma joined_keys rest (l : dict) :
  dict_keys (map (joined_field rest) l) = dict_keys l.
Proof. unfold dict_keys. rewrite map_map. reflexivity. Qed.

Lemma get_key_value (cur : dict) rest k v g :
  dict_get cur k = Some v ->
  _get_key (cur :: rest) k rest = Return g ->
  g = first_or_none (collected k v rest).
Proof.
  intros Hv. unfold _get_key. cbv zeta. rewrite (collect_first k cur v rest Hv).
  destruct (check_loop _ _ _ _); simpl; intros Hg; inversion Hg; reflexivity.
Qed.

(** The loop over the items, with the items already seen in [seen]. *)
Lemma join_items_value rest : forall items seen out,
  NoDup (dict_keys (seen ++ items)) ->
  join_items items (map (joined_field rest) seen ++ items) rest = Return out ->
  out = map (joined_field rest) (seen ++ items).
Proof.
  induction items as [|[k v] items IH]; intros seen out Hnd.
  - simpl. rewrite !app_nil_r. congruence.
  - assert (~ In k (dict_keys seen)) as Hk.
    { unfold dict_keys in *. rewrite map_app in Hnd.
      apply NoDup_app in Hnd as (_ & Hdisj & _). intros Hin.
      apply (Hdisj k); [apply list_elem_of_In, Hin | simpl; left]. }
    assert (dict_get (map (joined_field rest) seen ++ (k, v) :: items) k = Some v)
      as Hv.
    { rewrite dict_get_app_notin by (rewrite joined_keys; exact Hk).
      simpl. rewrite String.eqb_refl. reflexivity. }
    replace (seen ++ (k, v) :: items) with ((seen ++ [(k, v)]) ++ items) in *
      by (rewrite <- app_assoc; reflexivity).
    cbn [join_items]. destruct (is_none v) eqn:Hnone.
    + destruct (_get_key _ k rest) as [g|] eqn:Hg; simpl; [|discriminate].
      apply (get_key_value _ rest k v g Hv) in Hg.
      unfold collected in Hg. rewrite Hnone in Hg. simpl in Hg. subst g.
      rewrite dict_set_app_notin by (rewrite joined_keys; exact Hk).
      intros Hout. apply (IH (seen ++ [(k, v)]) out Hnd).
      rewrite map_app, <- app_assoc. simpl. unfold joined_field at 2.
      simpl. rewrite Hnone. exact Hout.
    + destruct (_get_key _ k rest) as [g|] eqn:Hg; simpl; [|discriminate].
      destruct (bool_decide (v = g)); simpl; [|discriminate].
      intros Hout. apply (IH (seen ++ [(k, v)]) out Hnd).
      rewrite map_app, <- app_assoc. simpl. unfold joined_field at 2.
      simpl. rewrite Hnone. exact Hout.
Qed.

Lemma join_data_returns_filled (min_sources : Z) (res : dict) (rest : list dict)
    (out : dict) :
  NoDup (dict_keys res) ->
  _join_data min_sources (res :: rest) = Return out ->
  out = map (joined_field rest) res.
Proof.
  intros Hnd. unfold _join_data.
  destruct (assert _); simpl; [|discriminate].
  apply (join_items_value rest res [] out Hnd).
Qed.

(** X5.  When the join returns, it returns the first answer with its
    fields in their order: a field that is not [None] keeps its value, a
    field that is [None] takes the first value that is not [None] among the
    other answers when that value is truthy, and stays [None] otherwise. *)
Theorem join_data_value :
  forall (min_sources : Z) (res : dict) (rest : list dict) (out : dict),
    NoDup (dict_keys res) ->
    _join_data min_sources (res :: rest) = Return out ->
    out = map (joined_field rest) res.
Proof. exact join_data_returns_filled. Qed.

(** X6.  A first answer with a falsy value that is not [None] under some
    key (the height 0, no confirmation, an empty list) is never joined: the
    join raises, whatever the other answers are. *)
Theorem join_data_refuses_falsy_first_values :
  forall (min_sources : Z) (res : dict) (rest : list dict) (k : string) (v : value),
    NoDup (dict_keys res) ->
    In (k, v) res -> is_none v = false -> py_bool v = false ->
    raises (_join_data min_sources (res :: rest)).
Proof.
  intros min_sources res rest k v Hnd Hin Hnone Hfalsy.
  destruct (returns_or_raises (_join_data min_sources (res :: rest)))
    as [Hret|Hraise]; [exfalso | exact Hraise].
  destruct (Z.le_gt_cases min_sources (Z.of_nat (length (res :: rest))))
    as [Hlen|Hlen].
  - apply (join_data_returns min_sources res rest Hlen Hnd) in Hret.
    rewrite Forall_forall in Hret.
    destruct (Hret (k, v) (proj2 (list_elem_of_In _ _) Hin)) as [_ Htruthy].
    cbn [snd] in Htruthy. specialize (Htruthy Hnone). congruence.
  - unfold _join_data in Hret.
    destruct (Z.geb_spec (Z.of_nat (length (res :: rest))) min_sources); [lia|].
    destruct Hret.
Qed.

(** X7.  Two answers are never compared: when [min_sources] is 2 at most
    and the values of the first answer that are not [None] are truthy, the
    join of two answers returns, whatever the second answer holds. *)
Theorem join_data_of_two_never_compares :
  forall (min_sources : Z) (res other : dict),
    min_sources <= 2 ->
    NoDup (dict_keys res) ->
    (forall k v, In (k, v) res -> is_none v = false -> py_bool v = true) ->
    _join_data min_sources [res; other] = Return (map (joined_field [other]) res).
Proof.
  intros min_sources res other Hms Hnd Htruthy.
  assert (returns (_join_data min_sources [res; other])) as Hret.
  { apply join_data_returns; [simpl; lia | exact Hnd |].
    apply Forall_forall. intros [k v] Hin. apply list_elem_of_In in Hin.
    split; [|apply (Htruthy k v Hin)]. cbn [fst snd].
    apply check_loop_spec; [lia|]. intros j x y _ _ Hj. exfalso.
    unfold collected, collect in Hj. simpl in Hj.
    destruct (is_none v), (dict_get other k) as [w|]; simpl in Hj;
      try destruct (is_none w); simpl in Hj; lia. }
  destruct (_join_data min_sources [res; other]) as [out|] eqn:E; [|destruct Hret].
  f_equal. eapply join_data_returns_filled; eassumption.
Qed.

Lemma get_key_depends_on_collect (data data' : list dict) k _data _data' :
  collect k data = collect k data' ->
  _get_key data k _data = _get_key data' k _data'.
Proof. intros Hc. unfold _get_key. rewrite Hc. reflexivity. Qed.

Lemma join_items_depends_on_collect rest rest' : forall items (cur : dict),
  (forall k, In k (map fst items) -> collect k rest = collect k rest') ->
  join_items items cur rest = join_items items cur rest'.
Proof.
  induction items as [|[k v] items IH]; intros cur Hc; [reflexivity|].
  cbn [join_items].
  rewrite (get_key_depends_on_collect (cur :: rest) (cur :: rest') k rest rest').
  - assert (forall k', In k' (map fst items) -> collect k' rest = collect k' rest')
      as Hc' by (intros k' Hk'; apply Hc; right; exact Hk').
    destruct (is_none v); destruct (_get_key _ k rest') as [g|]; simpl;
      try reflexivity.
    + apply IH, Hc'.
    + destruct (bool_decide (v = g)); simpl; [apply IH, Hc' | reflexivity].
  - unfold collect. simpl. f_equal. apply Hc. left. reflexivity.
Qed.

(** X8.  The join looks at the other answers only under the keys of the
    first one: two lists of as many other answers, which hold the same
    values that are not [None] under each key of the first answer, give the
    same outcome.  What an answer holds under any other key is neither
    compared nor returned. *)
Theorem join_data_ignores_other_keys :
  forall (min_sources : Z) (res : dict) (rest rest' : list dict),
    length rest = length rest' ->
    (forall k, In k (dict_keys res) -> collect k rest = collect k rest') ->
    _join_data min_sources (res :: rest) = _join_data min_sources (res :: rest').
Proof.
  intros min_sources res rest rest' Hlen Hc. unfold _join_data. simpl length.
  rewrite Hlen. destruct (assert _); simpl; [|reflexivity].
  apply join_items_depends_on_collect. exact Hc.
Qed.

End JoinMore.

Lemma join_data_value_witness :
  SprunedVOService._join_data 3
    (answers "confirmations" VNone (VInt 10) (VInt 10))
  = Return [("hash"%string, VStr "00ab"); ("confirmations"%string, VInt 10)]
  /\ [("hash"%string, VStr "00ab"); ("confirmations"%string, VInt 10)]
     = map (joined_field
              [[("hash"%string, VStr "00ab"); ("confirmations"%string, VInt 10)];
               [("hash"%string, VStr "00ab"); ("confirmations"%string, VInt 10)]])
           [("hash"%string, VStr "00ab"); ("confirmations"%string, VNone)].
Proof.
  split; [reflexivity|].
  apply (join_data_value 3
           [("hash"%string, VStr "00ab"); ("confirmations"%string, VNone)]
           [[("hash"%string, VStr "00ab"); ("confirmations"%string, VInt 10)];
            [("hash"%string, VStr "00ab"); ("confirmations"%string, VInt 10)]]
           [("hash"%string, VStr "00ab"); ("confirmations"%string, VInt 10)]
           (two_keys_nodup "hash" "confirmations" _ _ ltac:(discriminate))).
  reflexivity.
Defined.

Lemma join_data_refuses_falsy_first_values_witness :
  raises (SprunedVOService._join_data 3 (answers "height" (VInt 0) (VInt 0) (VInt 0))).
Proof.
  apply (join_data_refuses_falsy_first_values 3
           [("hash"%string, VStr "00ab"); ("height"%string, VInt 0)]
           [[("hash"%string, VStr "00ab"); ("height"%string, VInt 0)];
            [("hash"%string, VStr "00ab"); ("height"%string, VInt 0)]]
           "height" (VInt 0)
           (two_keys_nodup "hash" "height" _ _ ltac:(discriminate))).
  - right. left. reflexivity.
  - reflexivity.
  - reflexivity.
Defined.

Lemma join_data_of_two_never_compares_witness :
  SprunedVOService._join_data 2
    [[("hash"%string, VStr "00ab"); ("merkleroot"%string, VStr "A")];
     [("hash"%string, VStr "00ff"); ("merkleroot"%string, VStr "B")]]
  = Return [("hash"%string, VStr "00ab"); ("merkleroot"%string, VStr "A")].
Proof.
  etrans.
  - apply (join_data_of_two_never_compares 2
             [("hash"%string, VStr "00ab"); ("merkleroot"%string, VStr "A")]
             [("hash"%string, VStr "00ff"); ("merkleroot"%string, VStr "B")]
             ltac:(lia)
             (two_keys_nodup "hash" "merkleroot" _ _ ltac:(discriminate))).
    intros k v [[= <- <-]|[[= <- <-]|[]]] _; reflexivity.
  - reflexivity.
Defined.

Lemma join_data_ignores_other_keys_witness :
  SprunedVOService._join_data 3
    [[("hash"%string, VStr "00ab")];
     [("hash"%string, VStr "00ab"); ("merkleroot"%string, VStr "A")];
     [("hash"%string, VStr "00ab"); ("merkleroot"%string, VStr "B")]]
  = SprunedVOService._join_data 3
      [[("hash"%string, VStr "00ab")];
       [("hash"%string, VStr "00ab")];
       [("hash"%string, VStr "00ab")]].
Proof.
  apply (join_data_ignores_other_keys 3
           [("hash"%string, VStr "00ab")]
           [[("hash"%string, VStr "00ab"); ("merkleroot"%string, VStr "A")];
            [("hash"%string, VStr "00ab"); ("merkleroot"%string, VStr "B")]]
           [[("hash"%string, VStr "00ab")]; [("hash"%string, VStr "00ab")]]).
  - reflexivity.
  - intros k [<-|[]]. reflexivity.
Defined.

(** ** The service: picking the sources, failing sources, the cache read back *)

Section ServiceMore.
Context {C : Type} `{CacheInterface C dict}.
Import SprunedVOService.

Implicit Types (self : SprunedVOService.t C) (rnd : nat -> nat).

Lemma pick_loop_unfold self rnd fuel i res :
  pick_loop self rnd (S fuel) i res
  = if Z.of_nat (length res) + Z.of_nat (length (primary self)) <? min_sources self
    then assert (S i <? 50)%nat ;;
         _c ← SprunedVOService.random_choice (services self) (rnd (S i));
         pick_loop self rnd fuel (S i)
           (if bool_decide (_c ∈ res) then res else res ++ [_c])
    else Return (res ++ primary self).
Proof. reflexivity. Qed.

Lemma pick_services_unfold self rnd :
  _pick_services self rnd = pick_loop self rnd 50 0%nat [].
Proof. reflexivity. Qed.

(** X9.  What [_pick_services] returns holds [min_sources] sources at
    least: secondary sources, no one twice, followed by all the primary
    ones; and when the primary sources are enough, it returns them alone,
    whatever is drawn. *)
Theorem pick_services_returns_enough :
  forall self rnd,
    (forall picked,
        _pick_services self rnd = Return picked ->
        exists res, picked = res ++ primary self
                    /\ NoDup res /\ res ⊆ services self
                    /\ min_sources self <= Z.of_nat (length picked))
    /\ (min_sources self <= Z.of_nat (length (primary self)) ->
        _pick_services self rnd = Return (primary self)).
Proof.
  intros self rnd. split.
  - intros picked. apply pick_services_spec.
  - intros Hms. rewrite pick_services_unfold, pick_loop_unfold.
    destruct (Z.ltb_spec (Z.of_nat (length (@nil nat)) + Z.of_nat (length (primary self)))
                (min_sources self)) as [Hlt|_];
      [simpl in Hlt; lia | reflexivity].
Qed.

Lemma pick_loop_raises_assertion self rnd fuel : forall i res e,
  services self <> [] ->
  pick_loop self rnd fuel i res = Raise e -> e = AssertionError.
Proof.
  induction fuel as [|fuel IH]; intros i res e Hne; simpl.
  - destruct (_ <? _); [congruence | discriminate].
  - destruct (_ <? _); [|discriminate].
    destruct (S i <? 50)%nat; simpl; [|congruence].
    unfold SprunedVOService.random_choice.
    destruct (services self !! _) as [_c|] eqn:E; simpl.
    + apply IH, Hne.
    + exfalso. apply lookup_ge_None in E.
      destruct (services self) as [|s l]; [contradiction|].
      pose proof (Nat.mod_upper_bound (rnd (S i)) (length (s :: l))) as Hlt.
      simpl in *. lia.
Qed.

Lemma pick_loop_no_secondary self rnd fuel :
  services self = [] ->
  Z.of_nat (length (primary self)) < min_sources self ->
  pick_loop self rnd (S fuel) 0 [] = Raise IndexError.
Proof.
  intros Hs Hfew. rewrite pick_loop_unfold.
  destruct (Z.ltb_spec (Z.of_nat (length (@nil nat)) + Z.of_nat (length (primary self)))
              (min_sources self)) as [_|Hge];
    [|simpl in Hge; lia].
  unfold SprunedVOService.random_choice. rewrite Hs. reflexivity.
Qed.

Lemma pick_services_never_enough self rnd picked :
  Z.of_nat (length (services self)) + Z.of_nat (length (primary self))
  < min_sources self ->
  _pick_services self rnd <> Return picked.
Proof.
  intros Hfew E. apply pick_services_spec in E as (res & -> & Hnd & Hsub & Hlen).
  assert (length res <= length (services self))%nat as Hle.
  { apply submseteq_length, NoDup_submseteq; assumption. }
  rewrite length_app in Hlen. lia.
Qed.

Lemma pick_services_raises_assertion self rnd e :
  services self <> [] -> _pick_services self rnd = Raise e -> e = AssertionError.
Proof. rewrite pick_services_unfold. apply pick_loop_raises_assertion. Qed.

(** X10.  With fewer sources than [min_sources], the secondary and the
    primary ones together, [_pick_services] raises whatever is drawn:
    [IndexError] when there is no secondary source, [AssertionError] when
    there is one. *)
Theorem pick_services_too_few_sources :
  forall self rnd,
    Z.of_nat (length (services self)) + Z.of_nat (length (primary self))
    < min_sources self ->
    (services self = [] -> _pick_services self rnd = Raise IndexError)
    /\ (services self <> [] -> _pick_services self rnd = Raise AssertionError).
Proof.
  intros self rnd Hfew. split.
  - intros Hs. rewrite pick_services_unfold.
    apply pick_loop_no_secondary; [exact Hs|].
    rewrite Hs in Hfew. simpl in Hfew. lia.
  - intros Hne. destruct (_pick_services self rnd) as [picked|e] eqn:E.
    + exfalso. exact (pick_services_never_enough self rnd picked Hfew E).
    + f_equal. exact (pick_services_raises_assertion self rnd e Hne E).
Qed.

Lemma call_each_first_failure self (query : RPCAPIService -> result exn dict) :
  forall before s after e,
    Forall (fun s' => returns (query (objects self s'))) before ->
    query (objects self s) = Raise e ->
    call_each self query (before ++ s :: after) = Raise e.
Proof.
  induction before as [|b before IH]; intros s after e Hall Hs; simpl.
  - rewrite Hs. reflexivity.
  - inversion Hall as [|? ? Hb Hall']; subst.
    destruct (query (objects self b)); [|destruct Hb]. simpl.
    rewrite (IH s after e Hall' Hs). reflexivity.
Qed.

(** X11.  One source that fails makes the query fail: when a picked source
    raises, and the sources asked before it answered, [getblock] and
    [getrawtransaction] raise its exception, however many other sources
    would answer. *)
Theorem queries_fail_with_the_first_failing_source :
  forall self rnd (h : string) (verbose : bool) before s after e,
    _pick_services self rnd = Return (before ++ s :: after) ->
    (Forall (fun s' => returns (svc_getblock (objects self s') h)) before ->
     svc_getblock (objects self s) h = Raise e ->
     getblock self rnd h = Raise e)
    /\ (Forall (fun s' => returns (svc_getrawtransaction (objects self s') h)) before ->
        svc_getrawtransaction (objects self s) h = Raise e ->
        getrawtransaction self rnd h verbose = Raise e).
Proof.
  intros self rnd h verbose before s after e Hpick. split; intros Hall Hs.
  - unfold getblock. rewrite maybe_cached_returns_the_function.
    unfold getblock_body. rewrite Hpick. simpl.
    rewrite (call_each_first_failure self (fun s => svc_getblock s h)
               before s after e Hall Hs). reflexivity.
  - unfold getrawtransaction. rewrite maybe_cached_returns_the_function.
    unfold getrawtransaction_body. rewrite Hpick. simpl.
    rewrite (call_each_first_failure self (fun s => svc_getrawtransaction s h)
               before s after e Hall Hs). reflexivity.
Qed.

End ServiceMore.

(** A service with two secondary sources that asks for three. *)
Definition two_sources_of_three (cache : FileCacheInterface.t dict) (block : dict)
  : SprunedVOService.t (FileCacheInterface.t dict) :=
  {| SprunedVOService.services := [0; 1]%nat;
     SprunedVOService.primary := [];
     SprunedVOService.cache := Some cache;
     SprunedVOService.min_sources := 3;
     SprunedVOService.objects := fun _ => source block [] |}.

(** Three sources, the one at address 2 out of reach. *)
Definition one_source_unreachable (cache : FileCacheInterface.t dict) (block : dict)
  : SprunedVOService.t (FileCacheInterface.t dict) :=
  {| SprunedVOService.services := [0; 1; 2]%nat;
     SprunedVOService.primary := [];
     SprunedVOService.cache := Some cache;
     SprunedVOService.min_sources := 2;
     SprunedVOService.objects :=
       fun s => match s with
                | 2%nat => unreachable_source
                | _ => source block []
                end |}.

Lemma pick_services_returns_enough_witness :
  let self := three_sources (empty_cache "/tmp/cache/") (block_00ab 10 "A" 1700000000) [] in
  SprunedVOService._pick_services self id = Return [1; 2; 0]%nat
  /\ exists res, [1; 2; 0]%nat = res ++ SprunedVOService.primary self
                 /\ NoDup res /\ res ⊆ SprunedVOService.services self
                 /\ SprunedVOService.min_sources self
                    <= Z.of_nat (length [1; 2; 0]%nat).
Proof.
  intros self. split; [reflexivity|].
  apply (proj1 (pick_services_returns_enough self id) [1; 2; 0]%nat).
  reflexivity.
Defined.

Lemma pick_services_too_few_sources_witness :
  SprunedVOService._pick_services
    (two_sources_of_three (empty_cache "/tmp/cache/") (block_00ab 10 "A" 1700000000))
    id
  = Raise AssertionError.
Proof.
  apply (proj2 (pick_services_too_few_sources
                  (two_sources_of_three (empty_cache "/tmp/cache/")
                     (block_00ab 10 "A" 1700000000))
                  id ltac:(simpl; lia))).
  discriminate.
Defined.

Lemma queries_fail_with_the_first_failing_source_witness :
  let self := one_source_unreachable (empty_cache "/tmp/cache/")
                (block_00ab 10 "A" 1700000000) in
  SprunedVOService._pick_services self id = Return [1; 2]%nat
  /\ SprunedVOService.getblock self id "00ab" = Raise OSError.
Proof.
  intros self. split; [reflexivity|].
  apply (proj1 (queries_fail_with_the_first_failing_source self id "00ab" false
                  [1%nat] 2%nat [] OSError eq_refl)).
  - repeat constructor.
  - reflexivity.
Defined.

Section ServiceCacheReadBack.
Import SprunedVOService.

Implicit Types (self : SprunedVOService.t (FileCacheInterface.t dict)).

Lemma getblock_inversion {C : Type} `{CacheInterface C dict}
    (self : SprunedVOService.t C) rnd (h : string) block
    (self' : SprunedVOService.t C) :
  getblock self rnd h = Return (block, self') ->
  exists picked res (confirmed : bool),
    _pick_services self rnd = Return picked
    /\ call_each self (fun s => svc_getblock s h) picked = Return res
    /\ _join_data (min_sources self) res = Return block
    /\ confirmations_gt_3 block = Return confirmed
    /\ (if confirmed
        then match cache self with
             | Some c => exists c', cache_set c "getblock" h block = Return c'
                                    /\ self' = with_cache self c'
             | None => self' = self
             end
        else self' = self).
Proof.
  unfold getblock. rewrite maybe_cached_returns_the_function. unfold getblock_body.
  destruct (_pick_services self rnd) as [picked|] eqn:E1; simpl; [|discriminate].
  destruct (call_each self _ picked) as [res|] eqn:E2; simpl; [|discriminate].
  destruct (_join_data (min_sources self) res) as [block'|] eqn:E3; simpl;
    [|discriminate].
  destruct (confirmations_gt_3 block') as [confirmed|] eqn:E4; simpl;
    [|discriminate].
  intros Hret. exists picked, res, confirmed.
  split; [reflexivity|]. split; [exact E2|].
  destruct confirmed.
  - destruct (cache self) as [c|] eqn:Hc.
    + destruct (cache_set c "getblock" h block') as [c'|e] eqn:Hset; simpl in Hret;
        [|discriminate].
      injection Hret as <- <-. split; [exact E3|]. split; [exact E4|].
      exists c'. split; [exact Hset|reflexivity].
    + simpl in Hret. injection Hret as <- <-. auto.
  - simpl in Hret. injection Hret as <- <-. auto.
Qed.

(** X12.  With the file cache, a block that [getblock] returned with more
    than 3 confirmations is what [_get_from_cache] reads back under
    [("getblock", blockhash)] from then on; a block returned with 3
    confirmations or fewer leaves the service as it was. *)
Theorem getblock_result_is_read_back :
  forall self rnd (blockhash : string) (block : dict) self' (n : Z),
    cache self <> None ->
    getblock self rnd blockhash = Return (block, self') ->
    dict_get block "confirmations" = Some (VInt n) ->
    (3 < n -> _get_from_cache self' "getblock" blockhash = Return (Some block))
    /\ (n <= 3 -> self' = self).
Proof.
  intros self rnd blockhash block self' n Hcache Hget Hconf.
  apply getblock_inversion in Hget
    as (picked & res & confirmed & _ & _ & _ & Hgt & Hself).
  unfold confirmations_gt_3 in Hgt. rewrite Hconf in Hgt. injection Hgt as <-.
  destruct (cache self) as [c|] eqn:Hc; [|contradiction]. split.
  - intros Hn. destruct (Z.ltb_spec 3 n); [|lia].
    destruct Hself as (c' & Hset & ->).
    unfold _get_from_cache. cbn [cache with_cache].
    cbn [cache_set cache_get FileCacheInterface.file_cache] in *.
    rewrite (proj2 (get_after_set c "getblock" blockhash block c' Hset)).
    destruct block; [discriminate | reflexivity].
  - intros Hn. destruct (Z.ltb_spec 3 n); [lia | exact Hself].
Qed.

End ServiceCacheReadBack.

Lemma getblock_result_is_read_back_witness :
  let block := block_00ab 10 "A" 1700000000 in
  let c := empty_cache "/tmp/cache/" in
  let c' := returned c (cache_set c "getblock" "00ab" block) in
  let self := three_sources c block [] in
  let self' := three_sources c' block [] in
  SprunedVOService.getblock self id "00ab" = Return (block, self')
  /\ SprunedVOService._get_from_cache self "getblock" "00ab" = Return None
  /\ SprunedVOService._get_from_cache self' "getblock" "00ab" = Return (Some block).
Proof.
  intros block c c' self self'.
  assert (SprunedVOService.getblock self id "00ab" = Return (block, self')) as Hget
    by (vm_compute; reflexivity).
  split; [exact Hget|]. split; [vm_compute; reflexivity|].
  apply (proj1 (getblock_result_is_read_back self id "00ab" block self' 10
                  ltac:(discriminate) Hget eq_refl)).
  lia.
Defined.

(** ** The pool: which peers are picked, what a call returns *)

Section PoolMore.
Context {R : Type} `{PyObject R}.
Import Electrod.

Variable await_generator
  : list (result exn (option R)) -> result (pool_exn R) (option R).

Implicit Types (self : ElectrodConnectionPool R) (rnd : list nat).

Lemma usable_spec self c :
  usable self c = true
  <-> exists peer, _connections self !! c = Some peer
                   /\ connected peer = true /\ 0 < score peer.
Proof.
  unfold usable. destruct (_connections self !! c) as [peer|].
  - rewrite andb_true_iff, Z.ltb_lt. split.
    + intros [? ?]. eauto.
    + intros (peer' & [= <-] & ? & ?). auto.
  - split; [discriminate | intros (peer & Hp & _); discriminate].
Qed.

Lemma pick_connection_unfold self rnd :
  _pick_connection self rnd = pick_connection_loop self 101 rnd.
Proof. reflexivity. Qed.

(** X13.  A peer that is not connected, or whose score is 0 or less, is
    never picked: the connection [_pick_connection] returns is connected
    with a positive score, and [_pick_multiple_connections] returns as many
    connections as asked for, no one twice, each connected with a positive
    score. *)
Theorem picked_connections_are_usable_and_distinct :
  forall self rnd rnd',
    (forall c,
        _pick_connection self rnd = Some (Return c, rnd') ->
        exists peer, _connections self !! c = Some peer
                     /\ connected peer = true /\ 0 < score peer)
    /\ (forall (howmany : Z) servers,
           _pick_multiple_connections self howmany rnd = Some (Return servers, rnd') ->
           NoDup servers
           /\ Z.of_nat (length servers) = howmany
           /\ Forall (fun c => exists peer, _connections self !! c = Some peer
                                            /\ connected peer = true
                                            /\ 0 < score peer) servers).
Proof.
  intros self rnd rnd'. split.
  - intros c Hpick. apply pick_connection_spec in Hpick as [_ Hus].
    apply usable_spec, Hus.
  - intros howmany servers Hpick.
    apply pick_multiple_connections_spec in Hpick as (Hnd & Hus & Hlen).
    split; [exact Hnd|]. split; [exact Hlen|].
    eapply Forall_impl; [exact Hus|]. intros c Hc. apply usable_spec, Hc.
Qed.

Lemma random_choice_established self r :
  established_connections self <> [] ->
  exists c, random_choice (R := R) (established_connections self) r = Return c
            /\ c ∈ established_connections self.
Proof.
  intros Hne. unfold random_choice.
  destruct (established_connections self !! _) as [c|] eqn:E.
  - exists c. split; [reflexivity|]. eapply list_elem_of_lookup_2, E.
  - exfalso. apply lookup_ge_None in E.
    destruct (established_connections self) as [|x l]; [contradiction|].
    pose proof (Nat.mod_upper_bound r (length (x :: l))) as Hlt.
    cbn [length] in *. lia.
Qed.

Lemma pick_connection_loop_none_usable self :
  established_connections self <> [] ->
  Forall (fun c => usable self c = false) (established_connections self) ->
  forall tries rnd,
    (tries <= length rnd)%nat ->
    pick_connection_loop self tries rnd
    = Some (Raise NoPeersException, drop tries rnd).
Proof.
  intros Hne Hnone. induction tries as [|tries IH]; intros rnd Hlen.
  - reflexivity.
  - destruct rnd as [|r rnd]; [simpl in Hlen; lia|]. cbn [pick_connection_loop].
    destruct (random_choice_established self r Hne) as (c & -> & Hc).
    rewrite Forall_forall in Hnone. rewrite (Hnone c Hc).
    apply IH. simpl in Hlen. lia.
Qed.

(** X14.  When none of the established connections has a positive score,
    [_pick_connection] draws 101 times and raises the no-peers exception;
    when no connection is established at all, the first draw raises
    [IndexError]. *)
Theorem pick_connection_without_usable_peer :
  forall self rnd,
    Forall (fun c => usable self c = false) (established_connections self) ->
    (established_connections self <> [] -> (101 <= length rnd)%nat ->
     _pick_connection self rnd = Some (Raise NoPeersException, drop 101 rnd))
    /\ (established_connections self = [] ->
        forall r rnd', rnd = r :: rnd' ->
                       _pick_connection self rnd
                       = Some (Raise (Builtin IndexError), rnd')).
Proof.
  intros self rnd Hnone. split.
  - intros Hne Hlen. rewrite pick_connection_unfold.
    apply pick_connection_loop_none_usable; assumption.
  - intros Hempty r rnd' ->. rewrite pick_connection_unfold.
    cbn [pick_connection_loop]. rewrite Hempty. reflexivity.
Qed.

(** X15.  [_handle_responses]: no response at all raises the no-quorum
    exception, one response is returned as it is, and of two responses or
    more one is returned only if all the responses equal it, the exception
    carrying the responses being raised when there is no such response. *)
Theorem handle_responses_agreement :
  _handle_responses (R := R) [] = Raise (NoQuorumOnResponsesException [])
  /\ (forall r : R, _handle_responses [r] = Return r)
  /\ (forall responses : list R,
         (1 < length responses)%nat ->
         (forall r, _handle_responses responses = Return r ->
                    In r responses /\ count responses r = length responses)
         /\ ((forall r, In r responses -> count responses r <> length responses) ->
             _handle_responses responses
             = Raise (NoQuorumOnResponsesException responses))
         /\ (forall r, In r responses -> count responses r = length responses ->
                       exists r', _handle_responses responses = Return r')).
Proof.
  split; [reflexivity|]. split; [reflexivity|].
  intros responses Hlen. apply handle_responses_rule, Hlen.
Qed.

(** X16.  With [agreement=1], when a connection is picked and the server
    answers a truthy value, [call] returns that value, with the connection
    when [get_peer] is set; and whatever the arguments, a response that
    [call] returns is truthy, and the connection returned with it is
    connected with a positive score. *)
Theorem call_returns_truthy_answers :
  forall self rnd (rpc : nat -> result exn (option R)),
    (forall (get_peer : bool) rnd' (connection : nat) (r : R),
        1 <= _required_connections self ->
        _pick_connection self rnd = Some (Return connection, rnd') ->
        rpc connection = Return (Some r) ->
        py_bool r = true ->
        call await_generator self 1 get_peer rnd rpc
        = Some (Return (if get_peer then PeerResponse connection (Some r)
                        else Response (Some r))))
    /\ (forall (agreement : Z) (get_peer : bool) (ans : answer R),
           call await_generator self agreement get_peer rnd rpc = Some (Return ans) ->
           match ans with
           | Response response => falsy response = false
           | PeerResponse connection response =>
               falsy response = false /\ usable self connection = true
           end).
Proof.
  intros self rnd rpc. split.
  - intros get_peer rnd' connection r Hreq Hpick Hrpc Htruthy.
    pose proof (pick_connection_spec _ _ _ _ Hpick) as [Hest _].
    destruct (established_lookup _ _ Hest) as (peer & Hpeer & _).
    assert (0 < length (established_connections self))%nat as Hlen.
    { apply list_elem_of_In in Hest.
      destruct (established_connections self); [destruct Hest | simpl; lia]. }
    unfold call. rewrite andb_false_r.
    destruct (Z.ltb_spec (_required_connections self) 1); [lia|].
    destruct (Z.ltb_spec (Z.of_nat (length (established_connections self))) 1);
      [lia|].
    change (1 <? 1) with false. cbv iota. rewrite Hpick, Hpeer, Hrpc.
    simpl. rewrite Htruthy. reflexivity.
  - intros agreement get_peer ans Hcall.
    unfold call in Hcall.
    destruct (get_peer && (1 <? agreement)); [discriminate|].
    destruct (_required_connections self <? agreement); [discriminate|].
    destruct (Z.of_nat (length (established_connections self)) <? agreement);
      [discriminate|].
    destruct (Z.ltb_spec 1 agreement) as [Hk|Hk].
    { exfalso.
      destruct (_pick_multiple_connections self agreement rnd)
        as [[[servers|e] rnd']|]; [|discriminate..].
      injection Hcall as Hcall. simpl in Hcall.
      destruct (await_generator (map rpc servers)) as [r|e]; simpl in Hcall;
        [|discriminate].
      destruct r as [r|]; cbn [not_none omap id option_bind mbind app length] in Hcall;
        match type of Hcall with
        | context [?a <? agreement] =>
            destruct (Z.ltb_spec a agreement) as [_|Hge]
        end; try discriminate; simpl in Hge; lia. }
    destruct (_pick_connection self rnd) as [[[c|e] rnd']|] eqn:Hpick;
      [|discriminate..].
    apply pick_connection_spec in Hpick as [_ Hus].
    destruct (_connections self !! c) as [peer|]; [|discriminate].
    destruct (falsy (rpc_call peer (rpc c)).1) eqn:Hf; [discriminate|].
    injection Hcall as <-. destruct get_peer; auto.
Qed.

End PoolMore.

(** A pool of three connected peers whose score is used up. *)
Definition three_spent_peers : Electrod.ElectrodConnectionPool json :=
  let peer host :=
    Electrod.set_score
      (fst (Electrod.connect (Electrod.new_connection host 10) (Return "1.2"%string)))
      0 in
  {| Electrod._connections :=
       [peer "a.example"%string; peer "b.example"%string; peer "c.example"%string];
     Electrod._required_connections := 3;
     Electrod._keepalive := true |}.

Lemma picked_connections_are_usable_and_distinct_witness :
  Electrod._pick_multiple_connections three_peers 2 [0%nat; 0%nat; 1%nat]
  = Some (Return [0%nat; 1%nat], [])
  /\ NoDup [0%nat; 1%nat]
  /\ Z.of_nat (length [0%nat; 1%nat]) = 2
  /\ Forall (fun c => exists peer,
                 Electrod._connections three_peers !! c = Some peer
                 /\ Electrod.connected peer = true /\ 0 < Electrod.score peer)
            [0%nat; 1%nat].
Proof.
  split; [reflexivity|].
  apply (proj2 (picked_connections_are_usable_and_distinct three_peers
                  [0%nat; 0%nat; 1%nat] []) 2 [0%nat; 1%nat]).
  reflexivity.
Defined.

Lemma pick_connection_without_usable_peer_witness :
  Electrod._pick_connection three_spent_peers (repeat 0%nat 101)
  = Some (Raise Electrod.NoPeersException, drop 101 (repeat 0%nat 101)).
Proof.
  apply (proj1 (pick_connection_without_usable_peer three_spent_peers
                  (repeat 0%nat 101) ltac:(repeat constructor))).
  - discriminate.
  - simpl. lia.
Defined.

Lemma handle_responses_agreement_witness :
  Electrod._handle_responses
    [JValue (VStr "0100"); JValue (VStr "0100"); JValue (VStr "0200")]
  = Raise (Electrod.NoQuorumOnResponsesException
             [JValue (VStr "0100"); JValue (VStr "0100"); JValue (VStr "0200")]).
Proof.
  apply (proj1 (proj2 (proj2 (proj2 handle_responses_agreement)
                               [JValue (VStr "0100"); JValue (VStr "0100");
                                JValue (VStr "0200")]
                               ltac:(simpl; lia)))).
  intros r [<-|[<-|[<-|[]]]]; vm_compute; discriminate.
Defined.

Lemma call_returns_truthy_answers_witness :
  Electrod.call bad_yield three_peers 1 true [0%nat] same_header
  = Some (Return (Electrod.PeerResponse 0 (Some (JValue (VStr "0100000000000000"))))).
Proof.
  apply (proj1 (call_returns_truthy_answers bad_yield three_peers [0%nat] same_header)
           true [] 0%nat (JValue (VStr "0100000000000000")));
    [vm_compute; discriminate | reflexivity..].
Defined.

(** ** The pool: which servers are dialled *)

Section PoolServers.
Context {R : Type} `{PyObject R}.
Import Electrod.

Implicit Types (self : ElectrodConnectionPool R) (rnd : list nat)
  (_servers : list server).

Lemma choose_server_elem _servers r s :
  choose_server (R := R) _servers r = Return s -> s ∈ _servers.
Proof.
  unfold choose_server. destruct (_servers !! _) as [a|] eqn:E; [|discriminate].
  intros [= <-]. eapply list_elem_of_lookup_2, E.
Qed.

Lemma choose_server_nonempty _servers r :
  _servers <> [] ->
  exists s, choose_server (R := R) _servers r = Return s /\ s ∈ _servers.
Proof.
  intros Hne. unfold choose_server.
  destruct (_servers !! _) as [s|] eqn:E.
  - exists s. split; [reflexivity|]. eapply list_elem_of_lookup_2, E.
  - exfalso. apply lookup_ge_None in E.
    destruct _servers as [|x l]; [contradiction|].
    pose proof (Nat.mod_upper_bound r (length (x :: l))) as Hlt.
    cbn [length] in *. lia.
Qed.

Lemma pick_server_unfold self _servers rnd :
  _pick_server self _servers rnd = pick_server_loop self _servers 101 rnd.
Proof. reflexivity. Qed.

Lemma pick_server_loop_spec self _servers tries : forall rnd rnd' s,
  pick_server_loop self _servers tries rnd = Some (Return s, rnd') ->
  s ∈ _servers /\ s.1 ∉ hostnames self.
Proof.
  induction tries as [|tries IH]; intros rnd rnd' s; simpl; [discriminate|].
  destruct rnd as [|r rnd0]; [discriminate|].
  destruct (choose_server _servers r) as [a|e] eqn:E; [|discriminate].
  case_bool_decide as Hin; [apply IH|].
  intros [= <- <-]. split; [eapply choose_server_elem, E | exact Hin].
Qed.

Lemma pick_server_spec self _servers rnd rnd' s :
  _pick_server self _servers rnd = Some (Return s, rnd') ->
  s ∈ _servers /\ s.1 ∉ hostnames self.
Proof. rewrite pick_server_unfold. apply pick_server_loop_spec. Qed.

Lemma pick_server_loop_all_dialled self _servers :
  _servers <> [] ->
  (forall s, s ∈ _servers -> s.1 ∈ hostnames self) ->
  forall tries rnd,
    (tries <= length rnd)%nat ->
    pick_server_loop self _servers tries rnd
    = Some (Raise NoPeersException, drop tries rnd).
Proof.
  intros Hne Hall. induction tries as [|tries IH]; intros rnd Hlen.
  - reflexivity.
  - destruct rnd as [|r rnd]; [simpl in Hlen; lia|]. cbn [pick_server_loop].
    destruct (choose_server_nonempty _servers r Hne) as (s & -> & Hs).
    rewrite bool_decide_true by (apply Hall, Hs).
    apply IH. simpl in Hlen. lia.
Qed.

(** X17.  A server is dialled once: the server [_pick_server] returns is
    one of the list whose hostname is the hostname of no connection of the
    pool, alive or not; and once every server of the list has a connection
    in the pool, [_pick_server] draws 101 times and raises the no-peers
    exception, whatever became of those connections. *)
Theorem dialled_servers_are_never_picked_again :
  forall self _servers rnd,
    (forall s rnd',
        _pick_server self _servers rnd = Some (Return s, rnd') ->
        s ∈ _servers /\ s.1 ∉ map hostname (_connections self))
    /\ (_servers <> [] ->
        (forall s, s ∈ _servers -> s.1 ∈ map hostname (_connections self)) ->
        (101 <= length rnd)%nat ->
        _pick_server self _servers rnd
        = Some (Raise NoPeersException, drop 101 rnd)).
Proof.
  intros self _servers rnd. split.
  - intros s rnd'. apply pick_server_spec.
  - intros Hne Hall Hlen. rewrite pick_server_unfold.
    apply pick_server_loop_all_dialled; assumption.
Qed.

Lemma pick_servers_loop_spec self _servers howmany fuel :
  forall i servers rnd rnd' picked,
    NoDup servers ->
    Forall (fun s => s ∈ _servers /\ s.1 ∉ hostnames self) servers ->
    pick_servers_loop self _servers howmany fuel i servers rnd
    = Some (Return picked, rnd') ->
    NoDup picked
    /\ Forall (fun s => s ∈ _servers /\ s.1 ∉ hostnames self) picked
    /\ Z.of_nat (length picked) = howmany
    /\ picked <> [].
Proof.
  induction fuel as [|fuel IH]; intros i servers rnd rnd' picked Hnd Hall;
    simpl; [discriminate|].
  destruct (_pick_server self _servers rnd) as [[[s|e] rnd0]|] eqn:E;
    [|discriminate..].
  apply pick_server_spec in E.
  case_bool_decide as Hin; [apply IH; assumption|].
  assert (NoDup (servers ++ [s])) as Hnd'.
  { apply NoDup_app. split; [assumption|]. split.
    - intros x Hx Hx'. apply list_elem_of_singleton in Hx'. subst x.
      exact (Hin Hx).
    - apply NoDup_singleton. }
  assert (Forall (fun s => s ∈ _servers /\ s.1 ∉ hostnames self) (servers ++ [s]))
    as Hall'.
  { apply Forall_app. split; [assumption|]. constructor; [assumption|constructor]. }
  match goal with
  | |- context [Z.of_nat ?l =? howmany] =>
      destruct (Z.of_nat l =? howmany) eqn:Hlen
  end.
  - intros [= <- <-]. apply Z.eqb_eq in Hlen. repeat split; auto.
    destruct servers; discriminate.
  - destruct (100 <? i); [discriminate|]. apply IH; assumption.
Qed.

Lemma pick_multiple_servers_spec self _servers howmany rnd rnd' picked :
  _pick_multiple_servers self _servers howmany rnd = Some (Return picked, rnd') ->
  NoDup picked
  /\ Forall (fun s => s ∈ _servers /\ s.1 ∉ hostnames self) picked
  /\ Z.of_nat (length picked) = howmany
  /\ picked <> [].
Proof.
  apply pick_servers_loop_spec; [apply NoDup_nil_2 | constructor].
Qed.

(** X18.  [_pick_multiple_servers(howmany)] returns [howmany] servers of
    the list, no one twice, none with the hostname of a connection of the
    pool; asked for no server, or for fewer, it never returns: it raises or
    goes round for ever. *)
Theorem pick_multiple_servers_returns_howmany :
  forall self _servers (howmany : Z) rnd rnd',
    (forall picked,
        _pick_multiple_servers self _servers howmany rnd = Some (Return picked, rnd') ->
        NoDup picked
        /\ Z.of_nat (length picked) = howmany
        /\ Forall (fun s => s ∈ _servers /\ s.1 ∉ map hostname (_connections self))
                  picked)
    /\ (howmany <= 0 ->
        forall picked,
          _pick_multiple_servers self _servers howmany rnd
          <> Some (Return picked, rnd')).
Proof.
  intros self _servers howmany rnd rnd'. split.
  - intros picked Hpick.
    apply pick_multiple_servers_spec in Hpick as (Hnd & Hall & Hlen & _). auto.
  - intros Hle picked Hpick.
    apply pick_multiple_servers_spec in Hpick as (_ & _ & Hlen & Hne).
    destruct picked; [contradiction | simpl in Hlen; lia].
Qed.

Lemma filter_seq_app (P : nat -> bool) (n m : nat) :
  List.filter P (seq 0 (n + m)) = List.filter P (seq 0 n) ++ List.filter P (seq n m).
Proof. rewrite seq_app, List.filter_app. reflexivity. Qed.

Lemma filter_none {A} (P : A -> bool) (l : list A) :
  (forall x, In x l -> P x = false) -> List.filter P l = [].
Proof.
  induction l as [|x l IH]; intros Hall; [reflexivity|]. simpl.
  rewrite (Hall x) by (left; reflexivity). apply IH.
  intros y Hy. apply Hall. right. exact Hy.
Qed.

Lemma established_after_append self (new : list (ElectrodConnection R)) self' :
  _connections self' = _connections self ++ new ->
  Forall (fun peer => connected peer = false) new ->
  established_connections self' = established_connections self.
Proof.
  intros Hconn Hnew. unfold established_connections.
  rewrite Hconn, length_app, filter_seq_app.
  assert (List.filter (is_connected self') (seq (length (_connections self)) (length new))
          = []) as ->.
  { apply filter_none. intros i Hi. apply in_seq in Hi.
    unfold is_connected. rewrite Hconn, lookup_app_r by lia.
    destruct (new !! _) as [peer|] eqn:E; [|reflexivity].
    rewrite Forall_forall in Hnew. apply Hnew.
    eapply list_elem_of_lookup_2, E. }
  rewrite app_nil_r. apply List.filter_ext_in. intros i Hi. apply in_seq in Hi.
  unfold is_connected. rewrite Hconn, lookup_app_l by lia. reflexivity.
Qed.

(** X19.  When [_connect_servers(howmany)] returns, the connections of the
    pool are those it had, in their places, followed by [howmany] new ones:
    new peers with the score 10, not connected, for servers of the list
    whose hostnames are new to the pool and differ from each other.  The
    established connections are as before. *)
Theorem connect_servers_appends_new_peers :
  forall self _servers (howmany : Z) rnd rnd' self',
    _connect_servers self _servers howmany rnd = Some (Return self', rnd') ->
    exists picked : list server,
      _connections self'
      = _connections self ++ map (fun s : server => new_connection s.1 10) picked
      /\ NoDup picked
      /\ Z.of_nat (length picked) = howmany
      /\ Forall (fun s => s ∈ _servers /\ s.1 ∉ map hostname (_connections self)) picked
      /\ established_connections self' = established_connections self
      /\ _required_connections self' = _required_connections self.
Proof.
  intros self _servers howmany rnd rnd' self'. unfold _connect_servers.
  destruct (_pick_multiple_servers self _servers howmany rnd)
    as [[[picked|e] rnd0]|] eqn:E; [|discriminate..].
  apply pick_multiple_servers_spec in E as (Hnd & Hall & Hlen & _).
  intros [= <- <-]. exists picked. repeat split; auto.
  eapply established_after_append; [reflexivity|].
  apply Forall_forall. intros peer Hin. apply list_elem_of_In, in_map_iff in Hin.
  destruct Hin as (s & <- & _). reflexivity.
Qed.

(** X20.  A turn of the keep-alive loop on a pool that has all the
    connections it requires never adds a connection and never ends well:
    [_connect_servers] is called with [missings <= 0], for which
    [_pick_multiple_servers] does not return. *)
Theorem keepalive_turn_on_a_full_pool_never_returns :
  forall self _servers rnd rnd' out,
    _required_connections self <= Z.of_nat (length (established_connections self)) ->
    keepalive_turn self _servers rnd = Some (out, rnd') ->
    exists e, out = Raise e.
Proof.
  intros self _servers rnd rnd' out Hfull. unfold keepalive_turn, _connect_servers.
  destruct (_pick_multiple_servers self _servers _ rnd)
    as [[[picked|e] rnd0]|] eqn:E; [|intros [= <- <-]; eauto|discriminate].
  exfalso. apply pick_multiple_servers_spec in E as (_ & _ & Hlen & Hne).
  destruct picked; [contradiction | simpl in Hlen; lia].
Qed.

End PoolServers.

(** Servers the pool of three peers is connected to, and servers it is not. *)
Definition dialled_servers : list Electrod.server :=
  [("a.example"%string, "s"%string); ("b.example"%string, "s"%string)].

Definition fresh_servers : list Electrod.server :=
  [("d.example"%string, "s"%string); ("e.example"%string, "s"%string)].

Lemma dialled_servers_are_never_picked_again_witness :
  Electrod._pick_server three_peers dialled_servers (repeat 0%nat 101)
  = Some (Raise Electrod.NoPeersException, drop 101 (repeat 0%nat 101)).
Proof.
  apply (proj2 (dialled_servers_are_never_picked_again three_peers dialled_servers
                  (repeat 0%nat 101))).
  - discriminate.
  - intros s Hs. apply list_elem_of_In in Hs.
    destruct Hs as [<-|[<-|[]]]; apply list_elem_of_In; simpl; auto.
  - simpl. lia.
Defined.

Lemma pick_multiple_servers_returns_howmany_witness :
  Electrod._pick_multiple_servers three_peers fresh_servers 2 [0%nat; 0%nat; 1%nat]
  = Some (Return fresh_servers, [])
  /\ NoDup fresh_servers
  /\ Z.of_nat (length fresh_servers) = 2
  /\ Forall (fun s => s ∈ fresh_servers
                      /\ s.1 ∉ map Electrod.hostname (Electrod._connections three_peers))
            fresh_servers.
Proof.
  split; [reflexivity|].
  apply (proj1 (pick_multiple_servers_returns_howmany three_peers fresh_servers 2
                  [0%nat; 0%nat; 1%nat] []) fresh_servers).
  reflexivity.
Defined.

Lemma connect_servers_appends_new_peers_witness :
  exists self' picked,
    Electrod._connect_servers three_peers fresh_servers 2 [0%nat; 1%nat]
    = Some (Return self', [])
    /\ Electrod._connections self'
       = Electrod._connections three_peers
         ++ map (fun s : Electrod.server => Electrod.new_connection s.1 10) picked
    /\ Z.of_nat (length picked) = 2
    /\ Electrod.established_connections self'
       = Electrod.established_connections three_peers.
Proof.
  destruct (Electrod._connect_servers three_peers fresh_servers 2 [0%nat; 1%nat])
    as [[[self'|e] rnd']|] eqn:E; try (vm_compute in E; discriminate).
  assert (rnd' = []) as -> by (vm_compute in E; congruence).
  destruct (connect_servers_appends_new_peers three_peers fresh_servers 2
              [0%nat; 1%nat] [] self' E)
    as (picked & Hconn & _ & Hlen & _ & Hest & _).
  exists self', picked. auto.
Defined.

Lemma keepalive_turn_on_a_full_pool_never_returns_witness :
  Electrod._required_connections three_peers
  <= Z.of_nat (length (Electrod.established_connections three_peers))
  /\ exists e, Electrod.keepalive_turn three_peers dialled_servers (repeat 0%nat 101)
               = Some (Raise e, []).
Proof.
  split; [vm_compute; discriminate|].
  destruct (keepalive_turn_on_a_full_pool_never_returns three_peers dialled_servers
              (repeat 0%nat 101) [] _ ltac:(vm_compute; discriminate) eq_refl)
    as [e He].
  exists e. rewrite <- He. reflexivity.
Defined.

(** ** The peer: where the score goes, whom the handler disconnects *)

(** How many connects, and how many polls of the queue, failed. *)
Definition failed_connects {R : Type} (inputs : list (Electrod.input R)) : Z :=
  Z.of_nat (length (List.filter
                      (fun i => match i with
                                | Electrod.IConnect (Raise _) => true
                                | _ => false
                                end) inputs)).

Definition failed_polls {R : Type} (inputs : list (Electrod.input R)) : Z :=
  Z.of_nat (length (List.filter
                      (fun i => match i with
                                | Electrod.IPollQueue (Raise _) => true
                                | _ => false
                                end) inputs)).

Section PeerMore.
Context {R : Type} `{PyObject R}.
Import Electrod.

Implicit Types (peer : ElectrodConnection R) (queue : list task).

(** The score and the errors recorded, together. *)
Definition balance peer : Z := score peer + Z.of_nat (length (_errors peer)).

Lemma run_task_balance peer t po :
  balance (fst (run_task peer t po)) = balance peer.
Proof.
  unfold balance, score. destruct t as [[]|e|]; simpl; try reflexivity.
  rewrite length_app. simpl. lia.
Qed.

Lemma step_balance peer queue (i : input R) :
  balance (fst (step (peer, queue) i))
  = balance peer - 4 * failed_connects [i] - failed_polls [i].
Proof.
  destruct i as [[v|e]|o|[e|e|h]|[h|e]|po];
    try (unfold balance, score, failed_connects, failed_polls; simpl; lia).
  unfold failed_connects, failed_polls. simpl.
  destruct queue as [|t queue]; simpl; [lia|].
  pose proof (run_task_balance peer t po) as Hb.
  destruct (run_task peer t po) as [peer' spawned]. simpl in *. lia.
Qed.

(** X21.  Every point of score a peer loses is accounted for: along any
    run of the loop, the score plus the number of errors recorded changes
    only by the 4 points of each failed connect and the point of each failed
    poll, the error events taking one point for each error they record.  So
    a new peer has [start_score - len(_errors) - 4 * failed connects -
    failed polls] as its score at all times. *)
Theorem score_is_accounted_for :
  forall (inputs : list (input R)) (cfg : ElectrodConnection R * list task),
    score (fst (run inputs cfg)) + Z.of_nat (length (_errors (fst (run inputs cfg))))
    = score (fst cfg) + Z.of_nat (length (_errors (fst cfg)))
      - 4 * failed_connects inputs - failed_polls inputs.
Proof.
  unfold run. induction inputs as [|i inputs IH]; intros [peer queue].
  - unfold failed_connects, failed_polls. simpl. lia.
  - cbn [fold_left]. rewrite IH.
    pose proof (step_balance peer queue i) as Hs. unfold balance in Hs.
    cbn [fst]. rewrite Hs.
    unfold failed_connects, failed_polls. cbn [List.filter].
    destruct i as [[v|e]|o|o|[h|e]|po]; cbn [length]; lia.
Qed.

Lemma established_elem (self : ElectrodConnectionPool R) c :
  c ∈ established_connections self <-> is_connected self c = true.
Proof.
  unfold established_connections. rewrite list_elem_of_In, filter_In, in_seq.
  split; [tauto|]. intros Hc. split; [|exact Hc]. unfold is_connected in Hc.
  destruct (_connections self !! c) as [peer|] eqn:E; [|discriminate].
  apply lookup_lt_Some in E. lia.
Qed.

(** X22.  A connected peer whose score has gone below 0 stays as it is:
    when its ping is answered the error handler schedules nothing for it,
    the pool counts it among its established connections, so that no
    connection is missing for it, and the pool never picks it. *)
Theorem negative_score_peers_linger :
  forall (self : ElectrodConnectionPool R) (c : nat) peer (r : option R),
    _connections self !! c = Some peer ->
    connected peer = true ->
    score peer < 0 ->
    _handle_peer_error peer (PingReply (Return r)) = []
    /\ c ∈ established_connections self
    /\ usable self c = false
    /\ (forall rnd rnd', _pick_connection self rnd <> Some (Return c, rnd')).
Proof.
  intros self c peer r Hpeer Hconn Hscore.
  assert (usable self c = false) as Hus.
  { unfold usable. rewrite Hpeer, Hconn. simpl.
    destruct (Z.ltb_spec 0 (score peer)); [lia | reflexivity]. }
  split; [|split; [|split]].
  - unfold _handle_peer_error. rewrite Hconn. simpl.
    destruct (Z.eqb_spec (score peer) 0); [lia | reflexivity].
  - apply established_elem. unfold is_connected. rewrite Hpeer. exact Hconn.
  - exact Hus.
  - intros rnd rnd' Hpick. apply pick_connection_spec in Hpick as [_ Hus'].
    congruence.
Qed.

Lemma no_disconnect_in_callbacks (cbs : list callback) :
  ~ In TDisconnect (map TCallback cbs).
Proof. intros Hin. apply in_map_iff in Hin as (cb & Hcb & _). discriminate. Qed.

Lemma handler_spares_nonzero peer (po : ping_outcome R) :
  score peer <> 0 -> ~ In TDisconnect (_handle_peer_error peer po).
Proof.
  intros Hs. unfold _handle_peer_error.
  destruct (connected peer); [|intros []]. cbn [negb].
  destruct (Z.eqb_spec (score peer) 0) as [|_]; [contradiction|].
  destruct po as [[r|e]|]; simpl; intros Hin; repeat destruct Hin as [Hin|Hin];
    try discriminate; contradiction.
Qed.

Lemma step_keeps_negative peer queue (i : input R) :
  connected peer = true -> score peer < 0 -> ~ In TDisconnect queue ->
  connected (fst (step (peer, queue) i)) = true
  /\ score (fst (step (peer, queue) i)) < 0
  /\ ~ In TDisconnect (snd (step (peer, queue) i)).
Proof.
  intros Hc Hs Hq. unfold score, connected in *.
  destruct i as [[v|e]|[r|e]|[e|e|h]|[h|e]|po]; cbn [step connect rpc_call subscribe
    _poll_queue fst snd set_client set_score set_subscriptions set_last_header
    client_protocol _score on_connect];
    try (split; [first [exact Hc|reflexivity]|]; split; [lia|];
         rewrite in_app_iff; intros [Hin|Hin]; [exact (Hq Hin)|];
         first [exact (no_disconnect_in_callbacks _ Hin)
               | simpl in Hin; repeat destruct Hin as [Hin|Hin];
                 try discriminate; contradiction]).
  destruct queue as [|t queue]; [auto|].
  assert (t <> TDisconnect) as Ht by (intros ->; apply Hq; left; reflexivity).
  assert (~ In TDisconnect queue) as Hq' by (intros Hin; apply Hq; right; exact Hin).
  destruct t as [cb|e|]; [|clear Ht|contradiction].
  - assert (~ In TDisconnect (snd (run_task peer (TCallback cb) po))) as Hsp.
    { destruct cb; simpl; try (intros []).
      apply handler_spares_nonzero. unfold score. lia. }
    assert (fst (run_task peer (TCallback cb) po) = peer) as Hfst
      by (destruct cb; reflexivity).
    destruct (run_task peer (TCallback cb) po) as [peer' spawned].
    cbn [fst snd] in *. subst peer'.
    split; [exact Hc|]. split; [exact Hs|].
    rewrite in_app_iff. tauto.
  - cbn [run_task on_error fst snd set_score set_errors client_protocol _score
         _on_errors_callbacks].
    split; [exact Hc|]. split; [lia|].
    rewrite in_app_iff. intros [Hin|Hin]; [exact (Hq' Hin)|].
    exact (no_disconnect_in_callbacks _ Hin).
Qed.

(** X23.  A ping that times out disconnects nobody: [ping] raises, the
    handler ends there, and the one disconnection it schedules is that of
    a connected peer whose score is exactly 0, before the ping.  So a
    connected peer whose score has gone below 0, with no disconnection
    under way, stays connected whatever the loop runs after that, pings
    that time out included. *)
Theorem negative_score_peer_is_never_disconnected :
  (forall peer, score peer <> 0 -> _handle_peer_error peer PingTimeout = [])
  /\ (forall (inputs : list (input R)) peer queue,
         connected peer = true -> score peer < 0 -> ~ In TDisconnect queue ->
         connected (fst (run inputs (peer, queue))) = true
         /\ score (fst (run inputs (peer, queue))) < 0
         /\ ~ In TDisconnect (snd (run inputs (peer, queue)))).
Proof.
  split.
  - intros peer Hs. unfold _handle_peer_error.
    destruct (connected peer); [|reflexivity]. cbn [negb ping].
    destruct (Z.eqb_spec (score peer) 0) as [|_]; [contradiction|reflexivity].
  - unfold run. induction inputs as [|i inputs IH]; intros peer queue Hc Hs Hq.
    + auto.
    + cbn [fold_left].
      destruct (step_keeps_negative peer queue i Hc Hs Hq) as (Hc' & Hs' & Hq').
      destruct (step (peer, queue) i) as [peer' queue'].
      apply IH; assumption.
Qed.

End PeerMore.

Lemma negative_score_peers_linger_witness :
  let peer := fst (Electrod.run eleven_timeouts
                     (Electrod.new_connection "electrum.example"%string 10, [])) in
  let self := {| Electrod._connections := [peer];
                 Electrod._required_connections := 1;
                 Electrod._keepalive := true |} in
  Electrod.score peer = -1
  /\ Electrod._handle_peer_error peer (Electrod.PingReply (Return None)) = []
  /\ Electrod.established_connections self = [0%nat]
  /\ Electrod.usable self 0 = false.
Proof.
  intros peer self. split; [reflexivity|].
  destruct (negative_score_peers_linger self 0%nat peer None eq_refl eq_refl
              ltac:(vm_compute; reflexivity)) as (Hh & _ & Hus & _).
  split; [exact Hh|]. split; [reflexivity | exact Hus].
Defined.

Lemma negative_score_peer_is_never_disconnected_witness :
  let peer := fst (Electrod.run eleven_timeouts
                     (Electrod.new_connection "electrum.example"%string 10, [])) in
  let peer' := fst (Electrod.run
                      [Electrod.IRun Electrod.PingTimeout;
                       Electrod.IRpcCall (Raise TimeoutError);
                       Electrod.IRun Electrod.PingTimeout;
                       Electrod.IRun Electrod.PingTimeout]
                      (peer, [Electrod.TCallback Electrod.on_peer_error])) in
  Electrod.connected peer = true
  /\ Electrod.score peer = -1
  /\ Electrod.connected peer' = true.
Proof.
  intros peer peer'. split; [reflexivity|]. split; [reflexivity|].
  apply (proj2 negative_score_peer_is_never_disconnected
           [Electrod.IRun Electrod.PingTimeout;
            Electrod.IRpcCall (Raise TimeoutError);
            Electrod.IRun Electrod.PingTimeout;
            Electrod.IRun Electrod.PingTimeout]
           peer [Electrod.TCallback Electrod.on_peer_error]).
  - reflexivity.
  - vm_compute. reflexivity.
  - intros [Hin|[]]. discriminate.
Defined.

(** ** BlockCypher as a source *)

(** The keys of the block a BlockCypher source answers. *)
Definition blockcypher_block_keys : list string :=
  ["hash"; "confirmations"; "strippedsize"; "size"; "weight"; "height";
   "version"; "versionHex"; "merkleroot"; "tx"; "time"; "mediantime"; "nonce";
   "bits"; "difficulty"; "chainwork"; "previousblockhash"; "nextblockhash"]%string.

Section BlockCypherAnswers.
Import SprunedVOService.

Lemma bind_return_inv {E A B} (m : result E A) (f : A -> result E B) b :
  m ≫= f = Return b -> exists a, m = Return a /\ f a = Return b.
Proof. destruct m as [a|e]; simpl; [eauto | discriminate]. Qed.

Lemma block_answer_shape epoch_seconds (d a : dict) :
  BlockCypherService.block_answer epoch_seconds d = Return a ->
  dict_keys a = blockcypher_block_keys
  /\ dict_get a "confirmations" = Some VNone
  /\ dict_get a "tx" = dict_get d "txids".
Proof.
  unfold BlockCypherService.block_answer. intros Ha.
  repeat (apply bind_return_inv in Ha as (? & ? & Ha)).
  injection Ha as <-. split; [reflexivity|]. split; [reflexivity|].
  simpl. unfold BlockCypherService.item in *.
  destruct (dict_get d "txids"); congruence.
Qed.

Lemma blockcypher_getblock_shape http_get epoch_seconds self fuel h (a : dict) :
  BlockCypherService.getblock http_get epoch_seconds self fuel h = Some (Return a) ->
  dict_keys a = blockcypher_block_keys
  /\ dict_get a "confirmations" = Some VNone.
Proof.
  unfold BlockCypherService.getblock.
  destruct (BlockCypherService.fetch_pages _ _ _ _ _ _ _) as [[d|e]|];
    [|discriminate..].
  intros [= Ha]. apply block_answer_shape in Ha as (? & ? & _). auto.
Qed.

Lemma blockcypher_keys_nodup : NoDup blockcypher_block_keys.
Proof.
  unfold blockcypher_block_keys.
  repeat (apply NoDup_cons; split;
          [intros Hin; apply list_elem_of_In in Hin; simpl in Hin;
           repeat (destruct Hin as [Hin|Hin]; [discriminate|]); exact Hin|]).
  apply NoDup_nil_2.
Qed.

Lemma call_each_answers {C : Type} `{CacheInterface C dict}
    (self : SprunedVOService.t C) (query : RPCAPIService -> result exn dict) :
  forall picked res,
    call_each self query picked = Return res ->
    Forall (fun a => exists s, query (objects self s) = Return a) res.
Proof.
  induction picked as [|s picked IH]; intros res; simpl.
  - intros [= <-]. constructor.
  - destruct (query (objects self s)) as [a|] eqn:Ea; simpl; [|discriminate].
    destruct (call_each self query picked) as [rs|]; simpl; [|discriminate].
    intros [= <-]. constructor; [eauto | apply IH; reflexivity].
Qed.

Lemma dict_get_joined rest (l : dict) k v :
  dict_get l k = Some v ->
  dict_get (map (joined_field rest) l) k = Some (snd (joined_field rest (k, v))).
Proof.
  induction l as [|[k0 v0] l IH]; simpl; [discriminate|].
  destruct (String.eqb_spec k0 k) as [->|_]; [|exact IH].
  intros [= ->]. reflexivity.
Qed.

Lemma collect_all_none k (rest : list dict) :
  Forall (fun a => dict_get a k = Some VNone) rest -> collect k rest = [].
Proof.
  induction 1 as [|a rest Ha _ IH]; [reflexivity|].
  unfold collect in *. simpl. rewrite Ha, IH. reflexivity.
Qed.

(** X24.  Sources that are all BlockCypher services cannot serve
    [getblock]: every block they answer has [None] for [confirmations],
    the join leaves it [None], and [block['confirmations'] > 3] raises.  So
    [getblock] of the aggregation service never returns a block. *)
Theorem blockcypher_sources_alone_cannot_serve_getblock :
  forall {C : Type} `{CacheInterface C dict} (self : SprunedVOService.t C)
         (rnd : nat -> nat) (h : string),
    (forall s a,
        svc_getblock (objects self s) h = Return a ->
        exists http_get epoch_seconds bc fuel,
          BlockCypherService.getblock http_get epoch_seconds bc fuel h
          = Some (Return a)) ->
    raises (getblock self rnd h).
Proof.
  intros C HC self rnd h Hbc.
  destruct (getblock self rnd h) as [[block self']|e] eqn:Hget; [|exact I].
  exfalso. apply getblock_inversion in Hget
    as (picked & res & confirmed & _ & Hcall & Hjoin & Hgt & _).
  apply call_each_answers in Hcall.
  assert (Forall (fun a => dict_keys a = blockcypher_block_keys
                           /\ dict_get a "confirmations" = Some VNone) res) as Hshape.
  { eapply Forall_impl; [exact Hcall|]. intros a [s Hs].
    destruct (Hbc s a Hs) as (http_get & epoch_seconds & bc & fuel & Ha).
    eapply blockcypher_getblock_shape, Ha. }
  destruct res as [|first rest].
  { unfold _join_data in Hjoin. destruct (assert _); discriminate. }
  inversion Hshape as [|? ? [Hkeys Hconf] Hrest]; subst.
  apply join_data_returns_filled in Hjoin;
    [|rewrite Hkeys; apply blockcypher_keys_nodup].
  unfold confirmations_gt_3 in Hgt. rewrite Hjoin in Hgt.
  rewrite (dict_get_joined rest first "confirmations" VNone Hconf) in Hgt.
  simpl in Hgt. rewrite collect_all_none in Hgt.
  - discriminate.
  - eapply Forall_impl; [exact Hrest|]. intros a [_ Ha]. exact Ha.
Qed.

End BlockCypherAnswers.

(** A page of the block ["00ab"], as BlockCypher answers it. *)
Definition blockcypher_page (txids : list string) : dict :=
  [("hash"%string, VStr "00ab"); ("height"%string, VInt 500000);
   ("ver"%string, VInt 536870912); ("size"%string, VInt 1048576);
   ("time"%string, VStr "2017-12-18T18:35:25Z");
   ("mrkl_root"%string, VStr "A"); ("txids"%string, VList txids);
   ("nonce"%string, VInt 42); ("bits"%string, VInt 402691653);
   ("prev_block"%string, VStr "00aa")].

(** A server that knows the first page of ["00ab"] on the main network. *)
Definition one_page_server (url : string) : result exn dict :=
  if String.eqb url
       (BlockCypherService.page_url
          (BlockCypherService.init BlockCypherService.BITCOIN) "00ab" 0 500)
  then Return (blockcypher_page ["7f3c"; "7f3d"]%string)
  else Raise OSError.

(** A clock for the one date of the examples. *)
Definition clock_of_2017 (format text : string) : result exn Z :=
  Return 1513622125.

(** A BlockCypher service as a source of the aggregation service. *)
Definition blockcypher_source : SprunedVOService.RPCAPIService :=
  {| SprunedVOService.svc_getblock :=
       fun h =>
         match BlockCypherService.getblock one_page_server clock_of_2017
                 (BlockCypherService.init BlockCypherService.BITCOIN) 1 h with
         | Some r => r
         | None => Raise RuntimeError
         end;
     SprunedVOService.svc_getrawtransaction :=
       BlockCypherService.getrawtransaction one_page_server clock_of_2017
         (BlockCypherService.init BlockCypherService.BITCOIN) |}.

(** An aggregation service whose three sources are BlockCypher services. *)
Definition three_blockcypher_sources
  : SprunedVOService.t (FileCacheInterface.t dict) :=
  {| SprunedVOService.services := [0; 1; 2]%nat;
     SprunedVOService.primary := [];
     SprunedVOService.cache := Some (empty_cache "/tmp/cache/");
     SprunedVOService.min_sources := 3;
     SprunedVOService.objects := fun _ => blockcypher_source |}.

Lemma blockcypher_sources_alone_cannot_serve_getblock_witness :
  (exists a, SprunedVOService.svc_getblock blockcypher_source "00ab" = Return a)
  /\ raises (SprunedVOService.getblock three_blockcypher_sources id "00ab").
Proof.
  split; [eexists; vm_compute; reflexivity|].
  apply (blockcypher_sources_alone_cannot_serve_getblock
           three_blockcypher_sources id "00ab").
  intros s a Ha.
  exists one_page_server, clock_of_2017,
    (BlockCypherService.init BlockCypherService.BITCOIN), 1%nat.
  change (SprunedVOService.svc_getblock blockcypher_source "00ab" = Return a) in Ha.
  unfold blockcypher_source, SprunedVOService.svc_getblock in Ha.
  destruct (BlockCypherService.getblock _ _ _ _ _) as [[a'|e]|] eqn:E;
    [|discriminate..].
  injection Ha as ->. reflexivity.
Defined.

Section BlockCypherPages.
Import BlockCypherService.

Variable http_get : string -> result exn dict.
Variable epoch_seconds : string -> string -> result exn Z.
Variable self : BlockCypherService.t.
Variable blockhash : string.

Lemma dict_get_set_eq (d : dict) k v : dict_get (dict_set d k v) k = Some v.
Proof.
  induction d as [|[k' v'] d IH]; simpl.
  - rewrite String.eqb_refl. reflexivity.
  - destruct (String.eqb k' k) eqn:E; simpl; rewrite E; [reflexivity | exact IH].
Qed.

Lemma dict_set_set (d : dict) k v v' :
  dict_set (dict_set d k v) k v' = dict_set d k v'.
Proof.
  induction d as [|[k0 v0] d IH]; simpl.
  - rewrite String.eqb_refl. reflexivity.
  - destruct (String.eqb k0 k) eqn:E; simpl; rewrite E; [reflexivity|].
    rewrite IH. reflexivity.
Qed.

Lemma dict_set_same (d : dict) k v : dict_get d k = Some v -> dict_set d k v = d.
Proof.
  induction d as [|[k0 v0] d IH]; simpl; [discriminate|].
  destruct (String.eqb k0 k) eqn:E.
  - intros [= ->]. reflexivity.
  - intros Hd. rewrite (IH Hd). reflexivity.
Qed.

Lemma fetch_pages_unfold fuel d _s _l :
  fetch_pages http_get self blockhash (S fuel) d _s _l =
  match http_get (page_url self blockhash _s _l) with
  | Raise e => Some (Raise e)
  | Return res =>
      match (d' ← match d with
                  | None => Return res
                  | Some d => extend_txids d res
                  end;
             txids ← item res "txids";
             n ← len txids;
             Return (d', n)) with
      | Raise e => Some (Raise e)
      | Return (d', n) =>
          if n <? 500 then Some (Return d')
          else fetch_pages http_get self blockhash fuel (Some d')
                 (_s + 500) (_l + 500)
      end
  end.
Proof. reflexivity. Qed.

(** The pages the server answers: the [k]-th request asks for the ids from
    [500 * k] on, with the limit [500 * k + 500]. *)
Variable resp : nat -> dict.
Variable page : nat -> list string.
Variable last_page : nat.

Hypothesis served : forall k, (k <= last_page)%nat ->
  http_get (page_url self blockhash (500 * Z.of_nat k) (500 * Z.of_nat k + 500))
  = Return (resp k).
Hypothesis txids_of : forall k, (k <= last_page)%nat ->
  dict_get (resp k) "txids" = Some (VList (page k)).
Hypothesis full_pages : forall k, (k < last_page)%nat -> (500 <= length (page k))%nat.
Hypothesis short_page : (length (page last_page) < 500)%nat.

Lemma fetch_pages_rest :
  forall j k fuel d acc,
    (k + j = last_page)%nat ->
    (j < fuel)%nat ->
    dict_get d "txids" = Some (VList acc) ->
    fetch_pages http_get self blockhash fuel (Some d)
      (500 * Z.of_nat k) (500 * Z.of_nat k + 500)
    = Some (Return (dict_set d "txids"
                      (VList (acc ++ concat (map page (seq k (S j))))))).
Proof.
  induction j as [|j IH]; intros k fuel d acc Hk Hfuel Hd;
    (destruct fuel as [|fuel]; [lia|]);
    rewrite fetch_pages_unfold, (served k) by lia;
    unfold extend_txids, item; rewrite Hd, (txids_of k) by lia;
    cbn [mbind result_bind bind mret result_ret len].
  - assert (k = last_page) as Hkl by lia. rewrite Hkl.
    destruct (Z.ltb_spec (Z.of_nat (length (page last_page))) 500) as [_|Hge];
      [|lia].
    cbn [seq map concat]. rewrite app_nil_r. reflexivity.
  - destruct (Z.ltb_spec (Z.of_nat (length (page k))) 500) as [Hlt|_].
    { pose proof (full_pages k ltac:(lia)). lia. }
    replace (500 * Z.of_nat k + 500) with (500 * Z.of_nat (S k)) by lia.
    rewrite (IH (S k) fuel _ (acc ++ page k)); [|lia|lia|apply dict_get_set_eq].
    rewrite dict_set_set. rewrite <- app_assoc. reflexivity.
Qed.

Lemma fetch_pages_concat fuel :
  (last_page < fuel)%nat ->
  fetch_pages http_get self blockhash fuel None 0 500
  = Some (Return (dict_set (resp 0) "txids"
                    (VList (concat (map page (seq 0 (S last_page))))))).
Proof.
  intros Hfuel. destruct fuel as [|fuel]; [lia|].
  rewrite fetch_pages_unfold.
  change (page_url self blockhash 0 500)
    with (page_url self blockhash (500 * Z.of_nat 0) (500 * Z.of_nat 0 + 500)).
  rewrite (served 0) by lia.
  unfold item. rewrite (txids_of 0) by lia.
  cbn [mbind result_bind bind mret result_ret len].
  destruct (Nat.eq_dec last_page 0%nat) as [Hlast|Hlast].
  - pose proof short_page as Hshort. rewrite Hlast in Hshort. rewrite Hlast.
    destruct (Z.ltb_spec (Z.of_nat (length (page 0))) 500) as [_|Hge]; [|lia].
    cbn [seq map concat]. rewrite app_nil_r.
    rewrite dict_set_same; [reflexivity | apply txids_of; lia].
  - destruct (Z.ltb_spec (Z.of_nat (length (page 0))) 500) as [Hlt|_].
    { pose proof (full_pages 0%nat ltac:(lia)). lia. }
    change (0 + 500) with (500 * Z.of_nat 1).
    change (500 + 500) with (500 * Z.of_nat 1 + 500).
    rewrite (fetch_pages_rest (last_page - 1) 1 fuel (resp 0) (page 0));
      [|lia|lia|apply txids_of; lia].
    replace (S (last_page - 1)) with last_page by lia.
    reflexivity.
Qed.

End BlockCypherPages.

(** A server for the block ["00ab"] of the main network that answers its
    first [pages] requests, the [k]-th of them with the ids [serve k]. *)
Fixpoint block_server (serve : nat -> list string) (pages : nat) (url : string)
  : result exn dict :=
  match pages with
  | O => Raise OSError
  | S k =>
      if String.eqb url
           (BlockCypherService.page_url
              (BlockCypherService.init BlockCypherService.BITCOIN) "00ab"
              (500 * Z.of_nat k) (500 * Z.of_nat k + 500))
      then Return (blockcypher_page (serve k))
      else block_server serve k url
  end.

(** The ids of a block of [n] transactions. *)
Definition block_txids (n : nat) : list string :=
  map (fun i : nat => pretty i) (seq 0 n).

Section BlockCypherBlocks.
Import BlockCypherService.

Lemma concat_chunks (txs : list string) :
  forall j k,
    concat (map (fun i => take 500 (drop (500 * i) txs)) (seq k j))
    = take (500 * j) (drop (500 * k) txs).
Proof.
  induction j as [|j IH]; intros k.
  - rewrite Nat.mul_0_r. reflexivity.
  - cbn [seq map concat]. rewrite IH.
    replace (500 * S k)%nat with (500 * k + 500)%nat by lia.
    rewrite <- drop_drop, take_take_drop.
    f_equal. lia.
Qed.

Lemma concat_length_le (p q : nat -> list string) :
  forall l,
    (forall i, (length (p i) <= length (q i))%nat) ->
    (length (concat (map p l)) <= length (concat (map q l)))%nat.
Proof.
  intros l Hpq. induction l as [|i l IH]; cbn [map concat]; [lia|].
  rewrite !length_app. specialize (Hpq i). lia.
Qed.

(** X25.  [getblock] puts the pages of a block together: against a server
    that answers at most 500 ids a request, from the asked start, the block
    it builds holds the ids of the block, each once and in order, whatever
    the number of pages. *)
Theorem getblock_reassembles_capped_pages :
  forall (http_get : string -> result exn dict)
         (epoch_seconds : string -> string -> result exn Z)
         (self : BlockCypherService.t) (h : string)
         (meta : dict) (txs : list string) (n fuel : nat),
    (500 * n <= length txs < 500 * n + 500)%nat ->
    (forall k, (k <= n)%nat ->
       http_get (page_url self h (500 * Z.of_nat k) (500 * Z.of_nat k + 500))
       = Return (dict_set meta "txids"
                   (VList (take 500 (drop (500 * k) txs))))) ->
    (n < fuel)%nat ->
    getblock http_get epoch_seconds self fuel h
    = Some (block_answer epoch_seconds (dict_set meta "txids" (VList txs))).
Proof.
  intros http_get epoch_seconds self h meta txs n fuel Hlen Hserved Hfuel.
  unfold getblock.
  rewrite (fetch_pages_concat http_get self h
             (fun k => dict_set meta "txids"
                         (VList (take 500 (drop (500 * k) txs))))
             (fun k => take 500 (drop (500 * k) txs)) n).
  - rewrite dict_set_set, concat_chunks, Nat.mul_0_r.
    rewrite drop_0, take_ge by lia. reflexivity.
  - exact Hserved.
  - intros k _. apply dict_get_set_eq.
  - intros k Hk. rewrite length_take, length_drop. lia.
  - rewrite length_take, length_drop. lia.
  - exact Hfuel.
Qed.

(** X26.  The limit [getblock] asks for grows by 500 with every request.
    Against a server that answers as many ids as asked, a block of more than
    1000 transactions comes back with more ids than it has: the requests
    overlap. *)
Theorem getblock_repeats_ids_when_the_limit_is_honoured :
  forall (http_get : string -> result exn dict)
         (epoch_seconds : string -> string -> result exn Z)
         (self : BlockCypherService.t) (h : string)
         (meta : dict) (txs : list string) (n fuel : nat),
    (500 * n <= length txs < 500 * n + 500)%nat ->
    (1000 < length txs)%nat ->
    (forall k, (k <= n)%nat ->
       http_get (page_url self h (500 * Z.of_nat k) (500 * Z.of_nat k + 500))
       = Return (dict_set meta "txids"
                   (VList (take (500 * k + 500) (drop (500 * k) txs))))) ->
    (n < fuel)%nat ->
    exists l,
      getblock http_get epoch_seconds self fuel h
      = Some (block_answer epoch_seconds (dict_set meta "txids" (VList l)))
      /\ (length txs < length l)%nat.
Proof.
  intros http_get epoch_seconds self h meta txs n fuel Hlen Hbig Hserved Hfuel.
  set (q := fun k : nat => take (500 * k + 500) (drop (500 * k) txs)).
  exists (concat (map q (seq 0 (S n)))). split.
  - unfold getblock.
    rewrite (fetch_pages_concat http_get self h
               (fun k => dict_set meta "txids" (VList (q k))) q n).
    + rewrite dict_set_set. reflexivity.
    + exact Hserved.
    + intros k _. apply dict_get_set_eq.
    + intros k Hk. unfold q. rewrite length_take, length_drop. lia.
    + unfold q. rewrite length_take, length_drop. lia.
    + exact Hfuel.
  - replace (S n) with (S (S (n - 1))) by lia.
    cbn [seq map concat]. rewrite !length_app.
    pose proof (concat_length_le
                  (fun i => take 500 (drop (500 * i) txs)) q (seq 2 (n - 1))) as Hle.
    rewrite concat_chunks, length_take, length_drop in Hle.
    assert (length (q 0%nat) = 500%nat) as H0.
    { unfold q. rewrite length_take, length_drop. lia. }
    assert (500 < length (q 1%nat))%nat as H1.
    { unfold q. rewrite length_take, length_drop. lia. }
    assert (forall i, (length (take 500 (drop (500 * i) txs)) <= length (q i))%nat)
      as Hpq.
    { intros i. unfold q. rewrite !length_take, !length_drop. lia. }
    specialize (Hle Hpq). lia.
Qed.

End BlockCypherBlocks.

Lemma getblock_reassembles_capped_pages_witness :
  let txs := block_txids 501 in
  let serve := fun k : nat => take 500 (drop (500 * k) txs) in
  (length (serve 0%nat) = 500 /\ length (serve 1%nat) = 1)%nat
  /\ BlockCypherService.getblock (block_server serve 2) clock_of_2017
       (BlockCypherService.init BlockCypherService.BITCOIN) 2 "00ab"
     = Some (BlockCypherService.block_answer clock_of_2017
               (dict_set (blockcypher_page []) "txids" (VList txs))).
Proof.
  intros txs serve. split; [split; vm_compute; reflexivity|].
  apply (getblock_reassembles_capped_pages (block_server serve 2) clock_of_2017
           (BlockCypherService.init BlockCypherService.BITCOIN) "00ab"
           (blockcypher_page []) txs 1 2).
  - vm_compute. lia.
  - intros [|[|k]] Hk; [vm_compute; reflexivity..|lia].
  - lia.
Defined.

Lemma getblock_repeats_ids_when_the_limit_is_honoured_witness :
  let txs := block_txids 1001 in
  let serve := fun k : nat => take (500 * k + 500) (drop (500 * k) txs) in
  exists l,
    BlockCypherService.getblock (block_server serve 3) clock_of_2017
      (BlockCypherService.init BlockCypherService.BITCOIN) 3 "00ab"
    = Some (BlockCypherService.block_answer clock_of_2017
              (dict_set (blockcypher_page []) "txids" (VList l)))
    /\ (1001 < length l)%nat.
Proof.
  intros txs serve.
  destruct (getblock_repeats_ids_when_the_limit_is_honoured
              (block_server serve 3) clock_of_2017
              (BlockCypherService.init BlockCypherService.BITCOIN) "00ab"
              (blockcypher_page []) txs 2 3) as (l & Hl & Hlen).
  - vm_compute. lia.
  - vm_compute. lia.
  - intros [|[|[|k]]] Hk; [vm_compute; reflexivity..|lia].
  - lia.
  - exists l. split; [exact Hl|].
    replace 1001%nat with (length txs); [exact Hlen | vm_compute; reflexivity].
Defined.
